(** * react-phoenix: connection and channel lifecycle managers

    A shallow embedding of the event bus ([src/core/events.ts] with the
    emitter of [utils]), the channel manager ([src/core/channels.ts]), the
    connection manager ([core/connection]), the monolithic legacy client
    ([src/phoenix-client.ts]), the timing, validation and channel-key
    utilities, the session storage helpers and the client that wires the two
    managers together, followed by the properties proved about them.

    Conventions of the embedding:
    - a JavaScript [Function] (callback, handler) is the natural number that
      names its identity;
    - a [Map<string, _>] is a [gmap string _]; a [Set<Function>] is the list
      of its members in insertion order, maintained through [Js.set_add];
    - objects reached through references (transport sockets and channels) live
      in a heap indexed by their identity, so that aliasing is visible;
    - an [async] method is split at its [await]: a [_start] function runs the
      synchronous prefix, and one function per settlement of the awaited
      promise runs the rest;
    - console output, emitted lifecycle events, state-change notifications and
      timers are appended to logs kept in the state. *)

From Stdlib Require Import ZArith Lia Bool Ascii.
From stdpp Require Import base tactics option list gmap strings fin_maps.

(** ** JavaScript values *)

Module Js.

(** [Set.prototype.has / add / delete] on an insertion-ordered set. *)
Definition set_has (x : nat) (s : list nat) : bool := bool_decide (x ∈ s).

Definition set_add (x : nat) (s : list nat) : list nat :=
  if set_has x s then s else s ++ [x].

Definition set_delete (x : nat) (s : list nat) : list nat :=
  filter (λ y, y ≠ x) s.

(** How many times a callback occurs in a list of invocations. *)
Definition invocations (x : nat) (calls : list nat) : nat :=
  length (filter (λ y, y = x) calls).

(** [String.prototype.startsWith] and [String.prototype.includes]. *)
Fixpoint startsWith (s sub : string) {struct sub} : bool :=
  match sub, s with
  | EmptyString, _ => true
  | String c sub', String d s' => bool_decide (c = d) && startsWith s' sub'
  | String _ _, EmptyString => false
  end.

Fixpoint includes (s sub : string) : bool :=
  startsWith s sub ||
  match s with
  | EmptyString => false
  | String _ s' => includes s' sub
  end.

(** Truthiness of an optional string: [undefined], [null] and [""] are falsy. *)
Definition truthy (o : option string) : option string :=
  match o with
  | Some EmptyString => None
  | other => other
  end.

(** An [Error] built by [errorUtils.createError(message, code)]. *)
Record Error := { message : string; code : option string }.

Definition createError (msg : string) (c : option string) : Error :=
  {| message := msg; code := c |}.

#[global] Instance Error_eq_dec : EqDecision Error.
Proof. solve_decision. Defined.

End Js.

(** ** Event bus: [eventUtils.createEventEmitter] and [PhoenixEventManager] *)

Module EventBus.

Definition CONNECT : string := "phoenix_connect".
Definition DISCONNECT : string := "phoenix_disconnect".
Definition ERROR : string := "phoenix_error".
Definition RECONNECT : string := "phoenix_reconnect".
Definition CHANNEL_JOIN : string := "phoenix_channel_join".
Definition CHANNEL_LEAVE : string := "phoenix_channel_leave".
Definition CHANNEL_ERROR : string := "phoenix_channel_error".

(** The emitter's [listeners : Map<string, Set<Function>>]. *)
Definition emitter_on (event : string) (handler : nat)
    (listeners : gmap string (list nat)) : gmap string (list nat) :=
  let listeners1 :=
    match listeners !! event with
    | Some _ => listeners
    | None => <[event := []]> listeners
    end in
  match listeners1 !! event with
  | Some handlers => <[event := Js.set_add handler handlers]> listeners1
  | None => listeners1
  end.

Definition emitter_off (event : string) (handler : nat)
    (listeners : gmap string (list nat)) : gmap string (list nat) :=
  match listeners !! event with
  | Some handlers =>
      let handlers' := Js.set_delete handler handlers in
      if bool_decide (length handlers' = 0) then delete event listeners
      else <[event := handlers']> listeners
  | None => listeners
  end.

(** [emit] calls every handler of the event, each inside its own [try];
    the result is the sequence of handlers called. *)
Definition emitter_emit (event : string)
    (listeners : gmap string (list nat)) : list nat :=
  match listeners !! event with
  | Some handlers => handlers
  | None => []
  end.

Record EventManager := {
  emitter : gmap string (list nat);
  listenerCounts : gmap string nat;
  warnings : list string
}.

Definition maxListenersPerEvent : nat := 20.

Definition init : EventManager :=
  {| emitter := ∅; listenerCounts := ∅; warnings := [] |}.

Definition currentCount (event : string) (m : EventManager) : nat :=
  default 0 (listenerCounts m !! event).

Definition on (event : string) (handler : nat) (m : EventManager) : EventManager :=
  if decide (maxListenersPerEvent ≤ currentCount event m) then
    {| emitter := emitter m;
       listenerCounts := listenerCounts m;
       warnings := warnings m ++ ["[EventManager] Maximum listeners (20) exceeded for event: " +:+ event] |}
  else
    {| emitter := emitter_on event handler (emitter m);
       listenerCounts := <[event := currentCount event m + 1]> (listenerCounts m);
       warnings := warnings m |}.

Definition off (event : string) (handler : nat) (m : EventManager) : EventManager :=
  {| emitter := emitter_off event handler (emitter m);
     listenerCounts :=
       if decide (0 < currentCount event m)
       then <[event := currentCount event m - 1]> (listenerCounts m)
       else listenerCounts m;
     warnings := warnings m |}.

Definition emit (event : string) (m : EventManager) : list nat :=
  emitter_emit event (emitter m).

Definition clear (m : EventManager) : EventManager :=
  {| emitter := ∅; listenerCounts := ∅; warnings := warnings m |}.

Record ResourceStats := {
  totalListeners : nat;
  statsMaxListenersPerEvent : nat;
  eventsWithListeners : nat
}.

Definition getResourceStats (m : EventManager) : ResourceStats :=
  {| totalListeners := map_fold (λ _ count total, total + count) 0 (listenerCounts m);
     statsMaxListenersPerEvent := maxListenersPerEvent;
     eventsWithListeners := size (listenerCounts m) |}.

(** The handlers the emitter really holds, over all events. *)
Definition distinctHandlers (m : EventManager) : nat :=
  map_fold (λ _ handlers total, total + length handlers) 0 (emitter m).

(** Every handler collection of the emitter is a set. *)
Definition sets_wf (m : EventManager) : Prop :=
  ∀ event handlers, emitter m !! event = Some handlers → NoDup handlers.

End EventBus.

(** ** Channel manager: [PhoenixChannelManager] *)

Module Channels.

(** [ChannelState] and the partial updates merged into it. *)
Inductive Status := disconnected | joining | joined | error.

#[global] Instance Status_eq_dec : EqDecision Status.
Proof. solve_decision. Defined.

Record ChannelState := {
  topic : string;
  status : Status;
  lastError : option Js.Error;
  lastJoined : option Z;
  lastLeft : option Z;
  messageCount : nat
}.

Record Updates := {
  u_status : option Status;
  u_error : option (option Js.Error);
  u_lastJoined : option Z;
  u_lastLeft : option Z
}.

Definition no_updates : Updates :=
  {| u_status := None; u_error := None; u_lastJoined := None; u_lastLeft := None |}.

(** [ChannelOptions]: callbacks are named by their identity. *)
Record ChannelOptions := {
  params : option (gmap string string);
  onJoin : option nat;
  onLeave : option nat;
  onError : option nat
}.

Definition no_options : ChannelOptions :=
  {| params := None; onJoin := None; onLeave := None; onError := None |}.

(** The transport's channel object, as far as the manager uses it: the
    [state] field it reads, the flag it plants on the object, and what
    it has asked of the object. *)
Inductive TransportState := t_closed | t_errored | t_joined | t_joining | t_leaving.

#[global] Instance TransportState_eq_dec : EqDecision TransportState.
Proof. solve_decision. Defined.

Record Channel := {
  ch_topic : string;
  ch_params : gmap string string;
  ch_state : TransportState;
  ch_managerHandlers : bool;
  ch_errorHandlers : list (string * ChannelOptions);
  ch_closeHandlers : list (string * ChannelOptions);
  ch_bindings : list (string * nat);
  ch_joins : nat;
  ch_pushes : list (string * string);
  ch_leaves : nat
}.

(** The manager with the channel objects it refers to and its logs. *)
Record State := {
  channels : gmap string nat;
  channelStates : gmap string ChannelState;
  messageListeners : gmap string (gmap string (list nat));
  socket : option nat;
  heap : list Channel;
  emitted : list (string * string);
  console : list string;
  called : list nat;
  clock : Z
}.

Definition maxChannels : nat := 50.
Definition maxListenersPerEvent : nat := 10.

Definition init (sock : option nat) : State :=
  {| channels := ∅; channelStates := ∅; messageListeners := ∅; socket := sock;
     heap := []; emitted := []; console := []; called := []; clock := 0 |}.

Definition with_channels (f : gmap string nat → gmap string nat) (st : State) : State :=
  {| channels := f (channels st); channelStates := channelStates st;
     messageListeners := messageListeners st; socket := socket st; heap := heap st;
     emitted := emitted st; console := console st; called := called st;
     clock := clock st |}.

Definition with_channelStates
    (f : gmap string ChannelState → gmap string ChannelState) (st : State) : State :=
  {| channels := channels st; channelStates := f (channelStates st);
     messageListeners := messageListeners st; socket := socket st; heap := heap st;
     emitted := emitted st; console := console st; called := called st;
     clock := clock st |}.

Definition with_messageListeners
    (f : gmap string (gmap string (list nat)) → gmap string (gmap string (list nat)))
    (st : State) : State :=
  {| channels := channels st; channelStates := channelStates st;
     messageListeners := f (messageListeners st); socket := socket st; heap := heap st;
     emitted := emitted st; console := console st; called := called st;
     clock := clock st |}.

Definition with_heap (f : list Channel → list Channel) (st : State) : State :=
  {| channels := channels st; channelStates := channelStates st;
     messageListeners := messageListeners st; socket := socket st; heap := f (heap st);
     emitted := emitted st; console := console st; called := called st;
     clock := clock st |}.

(** [phoenixEventManager.emit(event, { topic, ... })], [console.warn] and the
    call of an optional callback of the options. *)
Definition emit (event topic : string) (st : State) : State :=
  {| channels := channels st; channelStates := channelStates st;
     messageListeners := messageListeners st; socket := socket st; heap := heap st;
     emitted := emitted st ++ [(event, topic)]; console := console st;
     called := called st; clock := clock st |}.

Definition warn (line : string) (st : State) : State :=
  {| channels := channels st; channelStates := channelStates st;
     messageListeners := messageListeners st; socket := socket st; heap := heap st;
     emitted := emitted st; console := console st ++ [line];
     called := called st; clock := clock st |}.

Definition call (callback : option nat) (st : State) : State :=
  {| channels := channels st; channelStates := channelStates st;
     messageListeners := messageListeners st; socket := socket st; heap := heap st;
     emitted := emitted st; console := console st;
     called := called st ++ from_option (λ f, [f]) [] callback; clock := clock st |}.

(** Update of one channel object through its reference. *)
Definition update_channel (c : nat) (f : Channel → Channel) (st : State) : State :=
  with_heap (λ h, match h !! c with Some obj => <[c := f obj]> h | None => h end) st.

Definition setSocket (sock : option nat) (st : State) : State :=
  {| channels := channels st; channelStates := channelStates st;
     messageListeners := messageListeners st; socket := sock; heap := heap st;
     emitted := emitted st; console := console st; called := called st;
     clock := clock st |}.

Definition apply_updates (current : ChannelState) (updates : Updates) : ChannelState :=
  {| topic := topic current;
     status := default (status current) (u_status updates);
     lastError := default (lastError current) (u_error updates);
     lastJoined := match u_lastJoined updates with Some d => Some d | None => lastJoined current end;
     lastLeft := match u_lastLeft updates with Some d => Some d | None => lastLeft current end;
     messageCount := messageCount current |}.

Definition updateChannelState (tp : string) (updates : Updates) (st : State) : State :=
  let currentState :=
    default {| topic := tp; status := disconnected; lastError := None;
               lastJoined := None; lastLeft := None; messageCount := 0 |}
            (channelStates st !! tp) in
  with_channelStates (λ states, <[tp := apply_updates currentState updates]> states) st.

Definition incrementMessageCount (tp : string) (st : State) : State :=
  match channelStates st !! tp with
  | Some state =>
      with_channelStates
        (λ states, <[tp := {| topic := topic state; status := status state;
                              lastError := lastError state; lastJoined := lastJoined state;
                              lastLeft := lastLeft state;
                              messageCount := S (messageCount state) |}]> states) st
  | None => st
  end.

(** [socket.channel(topic, params)]: a new channel object. *)
Definition new_channel (tp : string) (ps : gmap string string) : Channel :=
  {| ch_topic := tp; ch_params := ps; ch_state := t_closed;
     ch_managerHandlers := false; ch_errorHandlers := []; ch_closeHandlers := [];
     ch_bindings := []; ch_joins := 0; ch_pushes := []; ch_leaves := 0 |}.

Definition socket_channel (tp : string) (ps : gmap string string) (st : State) : nat * State :=
  (length (heap st), with_heap (λ h, h ++ [new_channel tp ps]) st).

Definition setupChannelHandlers (tp : string) (c : nat) (options : ChannelOptions)
    (st : State) : State :=
  match heap st !! c with
  | Some obj =>
      if ch_managerHandlers obj then st
      else update_channel c (λ o,
        {| ch_topic := ch_topic o; ch_params := ch_params o; ch_state := ch_state o;
           ch_managerHandlers := true;
           ch_errorHandlers := ch_errorHandlers o ++ [(tp, options)];
           ch_closeHandlers := ch_closeHandlers o ++ [(tp, options)];
           ch_bindings := ch_bindings o; ch_joins := ch_joins o;
           ch_pushes := ch_pushes o; ch_leaves := ch_leaves o |}) st
  | None => st
  end.

(** [channel.join()], [channel.leave()], [channel.push(event, payload)],
    [channel.on(event, callback)] and [channel.off(event, callback)] as
    requests recorded on the object. The transport is the collaborator of
    the manager, not part of it: no request is taken to throw, [on] adds one
    binding per call and [off] removes the bindings of the callback. *)
Definition channel_join (c : nat) (st : State) : State :=
  update_channel c (λ o,
    {| ch_topic := ch_topic o; ch_params := ch_params o; ch_state := ch_state o;
       ch_managerHandlers := ch_managerHandlers o;
       ch_errorHandlers := ch_errorHandlers o; ch_closeHandlers := ch_closeHandlers o;
       ch_bindings := ch_bindings o; ch_joins := S (ch_joins o);
       ch_pushes := ch_pushes o; ch_leaves := ch_leaves o |}) st.

Definition channel_leave (c : nat) (st : State) : State :=
  update_channel c (λ o,
    {| ch_topic := ch_topic o; ch_params := ch_params o; ch_state := ch_state o;
       ch_managerHandlers := ch_managerHandlers o;
       ch_errorHandlers := ch_errorHandlers o; ch_closeHandlers := ch_closeHandlers o;
       ch_bindings := ch_bindings o; ch_joins := ch_joins o;
       ch_pushes := ch_pushes o; ch_leaves := S (ch_leaves o) |}) st.

Definition channel_push (c : nat) (event payload : string) (st : State) : State :=
  update_channel c (λ o,
    {| ch_topic := ch_topic o; ch_params := ch_params o; ch_state := ch_state o;
       ch_managerHandlers := ch_managerHandlers o;
       ch_errorHandlers := ch_errorHandlers o; ch_closeHandlers := ch_closeHandlers o;
       ch_bindings := ch_bindings o; ch_joins := ch_joins o;
       ch_pushes := ch_pushes o ++ [(event, payload)]; ch_leaves := ch_leaves o |}) st.

Definition set_bindings (bs : list (string * nat)) (o : Channel) : Channel :=
  {| ch_topic := ch_topic o; ch_params := ch_params o; ch_state := ch_state o;
     ch_managerHandlers := ch_managerHandlers o;
     ch_errorHandlers := ch_errorHandlers o; ch_closeHandlers := ch_closeHandlers o;
     ch_bindings := bs; ch_joins := ch_joins o;
     ch_pushes := ch_pushes o; ch_leaves := ch_leaves o |}.

Definition channel_on (c : nat) (event : string) (callback : nat) (st : State) : State :=
  update_channel c (λ o, set_bindings (ch_bindings o ++ [(event, callback)]) o) st.

Definition channel_off (c : nat) (event : string) (callback : nat) (st : State) : State :=
  update_channel c (λ o,
    set_bindings (filter (λ b, ¬ (b.1 = event ∧ b.2 = callback)) (ch_bindings o)) o) st.

(** The callbacks the transport calls when a message [event] arrives on
    the channel object. *)
Definition bound (event : string) (obj : Channel) : list nat :=
  (filter (λ b, b.1 = event) (ch_bindings obj)).*2.

Definition dispatch (c : nat) (event : string) (st : State) : list nat :=
  from_option (bound event) [] (heap st !! c).

(** *** [joinChannel] *)

Inductive JoinOutcome :=
  | JoinRejected (e : Js.Error)
  | JoinResolved (c : nat)
  | JoinPending (c : nat).

Definition SOCKET_NOT_CONNECTED : Js.Error :=
  Js.createError "Socket not connected" (Some "SOCKET_NOT_CONNECTED").

Definition MAX_CHANNELS_EXCEEDED : Js.Error :=
  Js.createError "Maximum channels limit (50) exceeded" (Some "MAX_CHANNELS_EXCEEDED").

Definition is_joined (c : nat) (st : State) : bool :=
  match heap st !! c with
  | Some obj => bool_decide (ch_state obj = t_joined)
  | None => false
  end.

(** The [try] block of the method up to the [await] of [performChannelJoin];
    [existingChannel] is the channel found in the map, if any. *)
Definition joinChannel_try (tp : string) (options : ChannelOptions)
    (existingChannel : option nat) (st : State) : State * JoinOutcome :=
  let st1 := updateChannelState tp
    {| u_status := Some joining; u_error := None;
       u_lastJoined := None; u_lastLeft := None |} st in
  let '(c, st2) :=
    match existingChannel with
    | Some c => (c, st1)
    | None => socket_channel tp (default ∅ (params options)) st1
    end in
  let st3 := with_channels (λ chans, <[tp := c]> chans) st2 in
  let st4 := setupChannelHandlers tp c options st3 in
  (channel_join c st4, JoinPending c).

Definition joinChannel (tp : string) (options : ChannelOptions) (st : State)
    : State * JoinOutcome :=
  match socket st with
  | None => (st, JoinRejected SOCKET_NOT_CONNECTED)
  | Some _ =>
      if decide (maxChannels ≤ size (channels st)) then
        (st, JoinRejected MAX_CHANNELS_EXCEEDED)
      else
        match channels st !! tp with
        | Some c =>
            if is_joined c st then (st, JoinResolved c)
            else joinChannel_try tp options (Some c) st
        | None => joinChannel_try tp options None st
        end
  end.

(** How the join promise settles: the three acknowledgments of the transport
    and the manager's own 10 s timer. *)
Inductive JoinAck :=
  | join_ok (response : string)
  | join_error (reason : string)
  | join_timeout
  | join_timer.

Definition JOIN_TIMEOUT : Js.Error :=
  Js.createError "Channel join timeout" (Some "JOIN_TIMEOUT").

Definition JOIN_ERROR (reason : string) : Js.Error :=
  Js.createError ("Channel join failed: " +:+ reason) (Some "JOIN_ERROR").

(** The [catch] block of [joinChannel]. *)
Definition joinChannel_catch (tp : string) (e : Js.Error) (st : State)
    : State * JoinOutcome :=
  let st1 := updateChannelState tp
    {| u_status := Some error; u_error := Some (Some e);
       u_lastJoined := None; u_lastLeft := None |} st in
  (emit EventBus.CHANNEL_ERROR tp st1, JoinRejected e).

(** The method from the settlement of the join promise on. *)
Definition joinChannel_settle (tp : string) (c : nat) (options : ChannelOptions)
    (ack : JoinAck) (st : State) : State * JoinOutcome :=
  match ack with
  | join_ok response =>
      let st1 := updateChannelState tp
        {| u_status := Some joined; u_error := Some None;
           u_lastJoined := Some (clock st); u_lastLeft := None |} st in
      let st2 := call (onJoin options) st1 in
      (emit EventBus.CHANNEL_JOIN tp st2, JoinResolved c)
  | join_error reason => joinChannel_catch tp (JOIN_ERROR reason) st
  | join_timeout => joinChannel_catch tp JOIN_TIMEOUT st
  | join_timer => joinChannel_catch tp JOIN_TIMEOUT st
  end.

(** *** [leaveChannel], [cleanup] *)

Definition leaveChannel (tp : string) (st : State) : State :=
  match channels st !! tp with
  | None => st
  | Some c =>
      let st1 := channel_leave c st in
      let st2 := with_channels (λ chans, delete tp chans) st1 in
      let st3 := with_messageListeners (λ ls, delete tp ls) st2 in
      let st4 := updateChannelState tp
        {| u_status := Some disconnected; u_error := None;
           u_lastJoined := None; u_lastLeft := Some (clock st) |} st3 in
      emit EventBus.CHANNEL_LEAVE tp st4
  end.

(** The loop of [cleanup] leaves every topic of the map (here in key order,
    in the source in order of insertion), then the three maps are cleared. *)
Definition cleanup (st : State) : State :=
  let st1 := foldr leaveChannel st (map_to_list (channels st)).*1 in
  with_messageListeners (λ _, ∅)
    (with_channelStates (λ _, ∅) (with_channels (λ _, ∅) st1)).

(** *** [sendMessage] *)

Inductive SendOutcome :=
  | SendRejected (e : Js.Error)
  | SendResolved (response : string)
  | SendPending (c : nat).

Definition CHANNEL_NOT_FOUND (tp : string) : Js.Error :=
  Js.createError ("Channel " +:+ tp +:+ " not found") (Some "CHANNEL_NOT_FOUND").

Definition MESSAGE_ERROR (reason : string) : Js.Error :=
  Js.createError ("Message failed: " +:+ reason) (Some "MESSAGE_ERROR").

Definition MESSAGE_TIMEOUT : Js.Error :=
  Js.createError "Message timeout" (Some "MESSAGE_TIMEOUT").

(** The method up to the promise that waits for the acknowledgment. *)
Definition sendMessage (tp event payload : string) (st : State) : State * SendOutcome :=
  match channels st !! tp with
  | None => (st, SendRejected (CHANNEL_NOT_FOUND tp))
  | Some c => (channel_push c event payload st, SendPending c)
  end.

Inductive PushAck :=
  | push_ok (response : string)
  | push_error (reason : string)
  | push_timeout.

(** The three [receive] callbacks of the push. *)
Definition sendMessage_settle (tp : string) (ack : PushAck) (st : State)
    : State * SendOutcome :=
  match ack with
  | push_ok response => (incrementMessageCount tp st, SendResolved response)
  | push_error reason => (st, SendRejected (MESSAGE_ERROR reason))
  | push_timeout => (st, SendRejected MESSAGE_TIMEOUT)
  end.

(** *** [onMessage], [offMessage] *)

Definition listeners (tp event : string) (st : State) : list nat :=
  default [] (default ∅ (messageListeners st !! tp) !! event).

Definition onMessage (tp event : string) (callback : nat) (st : State) : State :=
  match channels st !! tp with
  | None =>
      warn ("[ChannelManager] Channel " +:+ tp +:+ " not joined, deferring message listener") st
  | Some c =>
      let topicListeners := default ∅ (messageListeners st !! tp) in
      let eventListeners := default [] (topicListeners !! event) in
      let st1 := with_messageListeners
        (λ ls, <[tp := <[event := eventListeners]> topicListeners]> ls) st in
      if decide (maxListenersPerEvent ≤ length eventListeners) then
        warn ("[ChannelManager] Maximum listeners (10) exceeded for " +:+ tp +:+ ":" +:+ event) st1
      else if Js.set_has callback eventListeners then st1
      else
        channel_on c event callback
          (with_messageListeners
             (λ ls, <[tp := <[event := Js.set_add callback eventListeners]> topicListeners]> ls)
             st)
  end.

Definition offMessage (tp event : string) (callback : nat) (st : State) : State :=
  match messageListeners st !! tp with
  | None => st
  | Some topicListeners =>
      match topicListeners !! event with
      | None => st
      | Some eventListeners =>
          let eventListeners' := Js.set_delete callback eventListeners in
          let st1 :=
            match channels st !! tp with
            | Some c => channel_off c event callback st
            | None => st
            end in
          let topicListeners' :=
            if bool_decide (length eventListeners' = 0) then delete event topicListeners
            else <[event := eventListeners']> topicListeners in
          with_messageListeners
            (λ ls, if bool_decide (size topicListeners' = 0) then delete tp ls
                   else <[tp := topicListeners']> ls) st1
      end
  end.

(** *** Queries *)

Definition getChannelState (tp : string) (st : State) : option ChannelState :=
  channelStates st !! tp.

Definition isChannelJoined (tp : string) (st : State) : bool :=
  match channelStates st !! tp with
  | Some state => bool_decide (status state = joined)
  | None => false
  end.

Definition getChannelCount (st : State) : nat := size (channels st).

Record ResourceStats := {
  stat_channels : nat;
  stat_maxChannels : nat;
  stat_totalListeners : nat;
  stat_maxListenersPerEvent : nat
}.

Definition getResourceStats (st : State) : ResourceStats :=
  {| stat_channels := size (channels st);
     stat_maxChannels := maxChannels;
     stat_totalListeners :=
       map_fold (λ _ topicListeners total,
         map_fold (λ _ (eventListeners : list nat) total', total' + length eventListeners)
                  total topicListeners)
         0 (messageListeners st);
     stat_maxListenersPerEvent := maxListenersPerEvent |}.

(** *** What the transport does to the manager *)

(** The error and close callbacks that [setupChannelHandlers] installed. *)
Definition error_handler (reason : string) (h : string * ChannelOptions) (st : State) : State :=
  let st1 := updateChannelState h.1
    {| u_status := Some error; u_error := Some (Some (Js.createError reason None));
       u_lastJoined := None; u_lastLeft := None |} st in
  emit EventBus.CHANNEL_ERROR h.1 (call (onError h.2) st1).

Definition close_handler (h : string * ChannelOptions) (st : State) : State :=
  let st1 := updateChannelState h.1
    {| u_status := Some disconnected; u_error := None;
       u_lastJoined := None; u_lastLeft := Some (clock st) |} st in
  emit EventBus.CHANNEL_LEAVE h.1 (call (onLeave h.2) st1).

Definition channel_error (c : nat) (reason : string) (st : State) : State :=
  foldl (λ s h, error_handler reason h s) st
        (from_option ch_errorHandlers [] (heap st !! c)).

Definition channel_close (c : nat) (st : State) : State :=
  foldl (λ s h, close_handler h s) st
        (from_option ch_closeHandlers [] (heap st !! c)).

Definition transport_state (c : nat) (s : TransportState) (st : State) : State :=
  update_channel c (λ o,
    {| ch_topic := ch_topic o; ch_params := ch_params o; ch_state := s;
       ch_managerHandlers := ch_managerHandlers o;
       ch_errorHandlers := ch_errorHandlers o; ch_closeHandlers := ch_closeHandlers o;
       ch_bindings := ch_bindings o; ch_joins := ch_joins o;
       ch_pushes := ch_pushes o; ch_leaves := ch_leaves o |}) st.

Definition tick (dt : Z) (st : State) : State :=
  {| channels := channels st; channelStates := channelStates st;
     messageListeners := messageListeners st; socket := socket st; heap := heap st;
     emitted := emitted st; console := console st; called := called st;
     clock := (clock st + dt)%Z |}.

(** *** Sequences of operations *)

Inductive Op :=
  | SetSocket (sock : option nat)
  | JoinChannel (tp : string) (options : ChannelOptions)
  | JoinSettled (tp : string) (c : nat) (options : ChannelOptions) (ack : JoinAck)
  | LeaveChannel (tp : string)
  | SendMessage (tp event payload : string)
  | SendSettled (tp : string) (ack : PushAck)
  | OnMessage (tp event : string) (callback : nat)
  | OffMessage (tp event : string) (callback : nat)
  | Cleanup
  | ChannelError (c : nat) (reason : string)
  | ChannelClose (c : nat)
  | TransportState_ (c : nat) (s : TransportState)
  | Tick (dt : Z).

Definition step (st : State) (op : Op) : State :=
  match op with
  | SetSocket sock => setSocket sock st
  | JoinChannel tp options => (joinChannel tp options st).1
  | JoinSettled tp c options ack => (joinChannel_settle tp c options ack st).1
  | LeaveChannel tp => leaveChannel tp st
  | SendMessage tp event payload => (sendMessage tp event payload st).1
  | SendSettled tp ack => (sendMessage_settle tp ack st).1
  | OnMessage tp event callback => onMessage tp event callback st
  | OffMessage tp event callback => offMessage tp event callback st
  | Cleanup => cleanup st
  | ChannelError c reason => channel_error c reason st
  | ChannelClose c => channel_close c st
  | TransportState_ c s => transport_state c s st
  | Tick dt => tick dt st
  end.

Definition run (ops : list Op) (st : State) : State := foldl step st ops.

Definition reachable (st : State) : Prop :=
  ∃ sock ops, st = run ops (init sock).

(** *** Consistency of the registries

    What every state reached from [init] satisfies: the cap on the map of
    channels; each topic of the map refers to a channel object of that topic
    that was not left and whose bindings are the registered listeners; a
    channel object that was not left is the one registered for its topic;
    the manager's handlers are on an object exactly when its flag is set;
    a registered topic has a [ChannelState]; a topic without channel has no
    listeners; and the listener collections are sets. *)
Record Inv (st : State) : Prop := {
  inv_cap : size (channels st) ≤ maxChannels;
  inv_ref : ∀ tp c, channels st !! tp = Some c →
    ∃ obj, heap st !! c = Some obj ∧ ch_topic obj = tp ∧ ch_leaves obj = 0
           ∧ ∀ event, bound event obj = listeners tp event st;
  inv_live : ∀ c obj, heap st !! c = Some obj → ch_leaves obj = 0 →
    channels st !! ch_topic obj = Some c;
  inv_handlers : ∀ c obj, heap st !! c = Some obj →
    length (ch_errorHandlers obj) = (if ch_managerHandlers obj then 1 else 0)
    ∧ length (ch_closeHandlers obj) = (if ch_managerHandlers obj then 1 else 0);
  inv_states : ∀ tp c, channels st !! tp = Some c → is_Some (channelStates st !! tp);
  inv_nolisten : ∀ tp, channels st !! tp = None → messageListeners st !! tp = None;
  inv_nodup : ∀ tp event, NoDup (listeners tp event st)
}.



(** *** Scenarios

    [joinedTopics n]: the topics ["room:00"], ["room:01"], ... are joined one
    after the other, the transport marking each channel joined and
    acknowledging the join. *)
Definition topicN (n : nat) : string :=
  "room:" +:+ String (ascii_of_nat (48 + n / 10))
                (String (ascii_of_nat (48 + n mod 10)) EmptyString).

Definition joinAcked (n : nat) : list Op :=
  [JoinChannel (topicN n) no_options;
   TransportState_ n t_joined;
   JoinSettled (topicN n) n no_options (join_ok "ok")].

Definition joinedTopics (n : nat) : list Op := mjoin (joinAcked <$> seq 0 n).

End Channels.

(** ** Connection manager: [PhoenixConnectionManager] *)

Module Connection.

Inductive Status := disconnected | connecting | connected | reconnecting | error.

#[global] Instance Status_eq_dec : EqDecision Status.
Proof. solve_decision. Defined.

Record ConnectionState := {
  status : Status;
  lastConnected : option Z;
  lastDisconnected : option Z;
  reconnectAttempts : nat;
  lastError : option Js.Error
}.

Record Updates := {
  u_status : option Status;
  u_lastConnected : option Z;
  u_lastDisconnected : option Z;
  u_reconnectAttempts : option nat;
  u_error : option (option Js.Error)
}.

Definition no_updates : Updates :=
  {| u_status := None; u_lastConnected := None; u_lastDisconnected := None;
     u_reconnectAttempts := None; u_error := None |}.

(** [ConnectionParams]. For [endpoint] and [params] the outer option says
    whether the object has the key, the inner one whether its value is
    [undefined]/[null]; [extras] are the other keys of the object. *)
Record ConnectionParams := {
  endpoint : option (option string);
  params : option (option (gmap string string));
  extras : gmap string string
}.

Definition empty_params : ConnectionParams :=
  {| endpoint := None; params := None; extras := ∅ |}.

Record PhoenixConfig := {
  url : option string;
  authParams : option (gmap string string);
  useLongPoll : bool;
  disableLongPollFallback : bool
}.

Record ConfigUpdates := {
  c_url : option (option string);
  c_authParams : option (option (gmap string string));
  c_useLongPoll : option bool;
  c_disableLongPollFallback : option bool
}.

Record PhoenixEnv := { EDGE_URL : option string; SOCKET_EDGE_URL : option string }.

(** The transport's socket object, as far as the manager uses it. *)
Record Socket := {
  s_url : string;
  s_params : gmap string string;
  s_longPoll : bool;
  s_connected : bool;
  s_handlers : bool;
  s_disconnects : list string
}.

(** The closures handed to [setTimeout] by [forceReconnect] and
    [handlePollStatusError]: [if (this.connectionParams)
    this.connect(this.connectionParams)]. *)
Inductive Timer := ReconnectStored.

(** The manager ([socket] to [lastReconnectTime]) with the socket objects,
    the session storage, the clock and the logs around it. [ctorFailure]
    is the error the [Socket] constructor throws in this environment, if
    it throws. *)
Record State := {
  socket : option nat;
  connectionState : ConnectionState;
  connectionParams : option ConnectionParams;
  config : PhoenixConfig;
  env : PhoenixEnv;
  lastReconnectTime : Z;
  sockets : list Socket;
  ctorFailure : option Js.Error;
  storageAvailable : bool;
  storedParams : option ConnectionParams;
  storedConfig : option PhoenixConfig;
  emitted : list (string * string);
  notified : list ConnectionState;
  console : list string;
  timers : list (Z * Timer);
  clock : Z
}.

Definition reconnectThrottleMs : Z := 5000.

Definition init (e : PhoenixEnv) (cfg : PhoenixConfig) : State :=
  {| socket := None;
     connectionState := {| status := disconnected; lastConnected := None;
                           lastDisconnected := None; reconnectAttempts := 0;
                           lastError := None |};
     connectionParams := None; config := cfg; env := e; lastReconnectTime := 0;
     sockets := []; ctorFailure := None; storageAvailable := true;
     storedParams := None; storedConfig := None;
     emitted := []; notified := []; console := []; timers := []; clock := 0 |}.

Definition set_socket (v : option nat) (st : State) : State :=
  {| socket := v; connectionState := connectionState st;
     connectionParams := connectionParams st; config := config st; env := env st;
     lastReconnectTime := lastReconnectTime st; sockets := sockets st;
     ctorFailure := ctorFailure st; storageAvailable := storageAvailable st;
     storedParams := storedParams st; storedConfig := storedConfig st;
     emitted := emitted st; notified := notified st; console := console st;
     timers := timers st; clock := clock st |}.

Definition set_connectionState (v : ConnectionState) (st : State) : State :=
  {| socket := socket st; connectionState := v;
     connectionParams := connectionParams st; config := config st; env := env st;
     lastReconnectTime := lastReconnectTime st; sockets := sockets st;
     ctorFailure := ctorFailure st; storageAvailable := storageAvailable st;
     storedParams := storedParams st; storedConfig := storedConfig st;
     emitted := emitted st; notified := notified st; console := console st;
     timers := timers st; clock := clock st |}.

Definition set_connectionParams (v : option ConnectionParams) (st : State) : State :=
  {| socket := socket st; connectionState := connectionState st;
     connectionParams := v; config := config st; env := env st;
     lastReconnectTime := lastReconnectTime st; sockets := sockets st;
     ctorFailure := ctorFailure st; storageAvailable := storageAvailable st;
     storedParams := storedParams st; storedConfig := storedConfig st;
     emitted := emitted st; notified := notified st; console := console st;
     timers := timers st; clock := clock st |}.

Definition set_config (v : PhoenixConfig) (st : State) : State :=
  {| socket := socket st; connectionState := connectionState st;
     connectionParams := connectionParams st; config := v; env := env st;
     lastReconnectTime := lastReconnectTime st; sockets := sockets st;
     ctorFailure := ctorFailure st; storageAvailable := storageAvailable st;
     storedParams := storedParams st; storedConfig := storedConfig st;
     emitted := emitted st; notified := notified st; console := console st;
     timers := timers st; clock := clock st |}.

Definition set_lastReconnectTime (v : Z) (st : State) : State :=
  {| socket := socket st; connectionState := connectionState st;
     connectionParams := connectionParams st; config := config st; env := env st;
     lastReconnectTime := v; sockets := sockets st;
     ctorFailure := ctorFailure st; storageAvailable := storageAvailable st;
     storedParams := storedParams st; storedConfig := storedConfig st;
     emitted := emitted st; notified := notified st; console := console st;
     timers := timers st; clock := clock st |}.

Definition set_sockets (v : list Socket) (st : State) : State :=
  {| socket := socket st; connectionState := connectionState st;
     connectionParams := connectionParams st; config := config st; env := env st;
     lastReconnectTime := lastReconnectTime st; sockets := v;
     ctorFailure := ctorFailure st; storageAvailable := storageAvailable st;
     storedParams := storedParams st; storedConfig := storedConfig st;
     emitted := emitted st; notified := notified st; console := console st;
     timers := timers st; clock := clock st |}.

Definition set_ctorFailure (v : option Js.Error) (st : State) : State :=
  {| socket := socket st; connectionState := connectionState st;
     connectionParams := connectionParams st; config := config st; env := env st;
     lastReconnectTime := lastReconnectTime st; sockets := sockets st;
     ctorFailure := v; storageAvailable := storageAvailable st;
     storedParams := storedParams st; storedConfig := storedConfig st;
     emitted := emitted st; notified := notified st; console := console st;
     timers := timers st; clock := clock st |}.

Definition set_storedParams (v : option ConnectionParams) (st : State) : State :=
  {| socket := socket st; connectionState := connectionState st;
     connectionParams := connectionParams st; config := config st; env := env st;
     lastReconnectTime := lastReconnectTime st; sockets := sockets st;
     ctorFailure := ctorFailure st; storageAvailable := storageAvailable st;
     storedParams := v; storedConfig := storedConfig st;
     emitted := emitted st; notified := notified st; console := console st;
     timers := timers st; clock := clock st |}.

Definition set_storedConfig (v : option PhoenixConfig) (st : State) : State :=
  {| socket := socket st; connectionState := connectionState st;
     connectionParams := connectionParams st; config := config st; env := env st;
     lastReconnectTime := lastReconnectTime st; sockets := sockets st;
     ctorFailure := ctorFailure st; storageAvailable := storageAvailable st;
     storedParams := storedParams st; storedConfig := v;
     emitted := emitted st; notified := notified st; console := console st;
     timers := timers st; clock := clock st |}.

(** [phoenixEventManager.emit(event, { ..., context })], the [onStateChange]
    callback of the options, [console.warn]/[console.log], [setTimeout]. *)
Definition emit (event context : string) (st : State) : State :=
  {| socket := socket st; connectionState := connectionState st;
     connectionParams := connectionParams st; config := config st; env := env st;
     lastReconnectTime := lastReconnectTime st; sockets := sockets st;
     ctorFailure := ctorFailure st; storageAvailable := storageAvailable st;
     storedParams := storedParams st; storedConfig := storedConfig st;
     emitted := emitted st ++ [(event, context)]; notified := notified st;
     console := console st; timers := timers st; clock := clock st |}.

Definition notify (st : State) : State :=
  {| socket := socket st; connectionState := connectionState st;
     connectionParams := connectionParams st; config := config st; env := env st;
     lastReconnectTime := lastReconnectTime st; sockets := sockets st;
     ctorFailure := ctorFailure st; storageAvailable := storageAvailable st;
     storedParams := storedParams st; storedConfig := storedConfig st;
     emitted := emitted st; notified := notified st ++ [connectionState st];
     console := console st; timers := timers st; clock := clock st |}.

Definition log (line : string) (st : State) : State :=
  {| socket := socket st; connectionState := connectionState st;
     connectionParams := connectionParams st; config := config st; env := env st;
     lastReconnectTime := lastReconnectTime st; sockets := sockets st;
     ctorFailure := ctorFailure st; storageAvailable := storageAvailable st;
     storedParams := storedParams st; storedConfig := storedConfig st;
     emitted := emitted st; notified := notified st;
     console := console st ++ [line]; timers := timers st; clock := clock st |}.

Definition setTimeout (callback : Timer) (delay : Z) (st : State) : State :=
  {| socket := socket st; connectionState := connectionState st;
     connectionParams := connectionParams st; config := config st; env := env st;
     lastReconnectTime := lastReconnectTime st; sockets := sockets st;
     ctorFailure := ctorFailure st; storageAvailable := storageAvailable st;
     storedParams := storedParams st; storedConfig := storedConfig st;
     emitted := emitted st; notified := notified st; console := console st;
     timers := timers st ++ [(delay, callback)]; clock := clock st |}.

Definition tick (dt : Z) (st : State) : State :=
  {| socket := socket st; connectionState := connectionState st;
     connectionParams := connectionParams st; config := config st; env := env st;
     lastReconnectTime := lastReconnectTime st; sockets := sockets st;
     ctorFailure := ctorFailure st; storageAvailable := storageAvailable st;
     storedParams := storedParams st; storedConfig := storedConfig st;
     emitted := emitted st; notified := notified st; console := console st;
     timers := timers st; clock := (clock st + dt)%Z |}.

(** *** State, configuration, storage *)

Definition getState (st : State) : ConnectionState := connectionState st.

Definition socket_isConnected (st : State) : bool :=
  match socket st with
  | Some s => from_option s_connected false (sockets st !! s)
  | None => false
  end.

Definition isConnected (st : State) : bool :=
  socket_isConnected st && bool_decide (status (connectionState st) = connected).

Definition canConnect (st : State) : bool :=
  bool_decide (status (connectionState st) = disconnected)
  || bool_decide (status (connectionState st) = error).

Definition apply_updates (current : ConnectionState) (u : Updates) : ConnectionState :=
  {| status := default (status current) (u_status u);
     lastConnected :=
       match u_lastConnected u with Some d => Some d | None => lastConnected current end;
     lastDisconnected :=
       match u_lastDisconnected u with Some d => Some d | None => lastDisconnected current end;
     reconnectAttempts := default (reconnectAttempts current) (u_reconnectAttempts u);
     lastError := default (lastError current) (u_error u) |}.

Definition updateState (u : Updates) (st : State) : State :=
  notify (set_connectionState (apply_updates (connectionState st) u) st).

(** [phoenixStorage]: every operation is a no-op without session storage. *)
Definition saveConfig (cfg : PhoenixConfig) (st : State) : State :=
  if storageAvailable st then set_storedConfig (Some cfg) st else st.

Definition saveConnectionParams (p : ConnectionParams) (st : State) : State :=
  if storageAvailable st then
    set_storedParams
      (Some {| endpoint := Some (Js.truthy (default None (endpoint p)));
               params := Some (default None (params p));
               extras := ∅ |}) st
  else st.

Definition loadConnectionParams (st : State) : option ConnectionParams :=
  if storageAvailable st then storedParams st else None.

Definition clearConnectionParams (st : State) : State :=
  if storageAvailable st then set_storedParams None st else st.

Definition apply_config (cfg : PhoenixConfig) (u : ConfigUpdates) : PhoenixConfig :=
  {| url := default (url cfg) (c_url u);
     authParams := default (authParams cfg) (c_authParams u);
     useLongPoll := default (useLongPoll cfg) (c_useLongPoll u);
     disableLongPollFallback :=
       default (disableLongPollFallback cfg) (c_disableLongPollFallback u) |}.

Definition updateConfig (u : ConfigUpdates) (st : State) : State :=
  let st1 := set_config (apply_config (config st) u) st in
  saveConfig (config st1) st1.

Definition getConfig (st : State) : PhoenixConfig := config st.

(** *** Parameters, URL, socket *)

Definition mergeConnectionParams (p : ConnectionParams) (st : State) : ConnectionParams :=
  let previous := default empty_params (loadConnectionParams st) in
  let mergedParams :=
    default ∅ (default None (params p)) ∪ default ∅ (default None (params previous)) in
  {| endpoint := match endpoint p with Some v => Some v | None => endpoint previous end;
     params := Some (Some mergedParams);
     extras := extras p ∪ extras previous |}.

Definition NO_URL : Js.Error := Js.createError "No WebSocket URL configured" None.

(** [baseUrl.replace(/^https?/, 'wss')], [.replace(/\/api\/v1$/, '')],
    [.replace(/\/$/, '')]. *)
Fixpoint string_drop (n : nat) (s : string) : string :=
  match n, s with
  | 0, _ => s
  | S n', String _ s' => string_drop n' s'
  | S _, EmptyString => EmptyString
  end.

Definition replace_scheme (s : string) : string :=
  if Js.startsWith s "https" then "wss" +:+ string_drop 5 s
  else if Js.startsWith s "http" then "wss" +:+ string_drop 4 s
  else s.

Definition strip_suffix (suffix s : string) : string :=
  let l := String.list_ascii_of_string s in
  let k := String.list_ascii_of_string suffix in
  if bool_decide (length k ≤ length l ∧ drop (length l - length k) l = k)
  then String.string_of_list_ascii (take (length l - length k) l)
  else s.

Definition buildSocketUrl (p : ConnectionParams) (st : State) : Js.Error + string :=
  match Js.truthy (default None (endpoint p)) with
  | Some e => inr e
  | None =>
      match Js.truthy (url (config st)) with
      | Some u => inr u
      | None =>
          match Js.truthy (EDGE_URL (env st)), Js.truthy (SOCKET_EDGE_URL (env st)) with
          | Some baseUrl, _ | None, Some baseUrl =>
              inr (strip_suffix "/" (strip_suffix "/api/v1" (replace_scheme baseUrl))
                   +:+ "/socket")
          | None, None => inl NO_URL
          end
      end
  end.

Definition buildSocketParams (p : ConnectionParams) (st : State) : gmap string string :=
  default ∅ (default None (params p)) ∪ default ∅ (authParams (config st)).

(** [new Socket(url, { params, transport, ... })], stored in [this.socket]. *)
Definition createSocket (u : string) (ps : gmap string string) (st : State) : State :=
  set_socket (Some (length (sockets st)))
    (set_sockets
       (sockets st ++ [{| s_url := u; s_params := ps;
                          s_longPoll := useLongPoll (config st);
                          s_connected := false; s_handlers := false;
                          s_disconnects := [] |}]) st).

Definition update_socket (s : nat) (f : Socket → Socket) (st : State) : State :=
  match sockets st !! s with
  | Some obj => set_sockets (<[s := f obj]> (sockets st)) st
  | None => st
  end.

(** [setupSocketHandlers] registers the open, close and error handlers on
    [this.socket]. *)
Definition setupSocketHandlers (st : State) : State :=
  match socket st with
  | None => st
  | Some s =>
      update_socket s (λ o,
        {| s_url := s_url o; s_params := s_params o; s_longPoll := s_longPoll o;
           s_connected := s_connected o; s_handlers := true;
           s_disconnects := s_disconnects o |}) st
  end.

(** *** [disconnect], [handleConnectionError] *)

Definition disconnect (reason : option string) (st : State) : State :=
  match socket st with
  | None => st
  | Some s =>
      let said := default "Client disconnect" (Js.truthy reason) in
      let st1 := update_socket s (λ o,
        {| s_url := s_url o; s_params := s_params o; s_longPoll := s_longPoll o;
           s_connected := s_connected o; s_handlers := s_handlers o;
           s_disconnects := s_disconnects o ++ [said] |}) st in
      updateState
        {| u_status := Some disconnected; u_lastConnected := None;
           u_lastDisconnected := Some (clock st); u_reconnectAttempts := None;
           u_error := None |}
        (set_socket None st1)
  end.

Definition handleConnectionError (e : Js.Error) (st : State) : State :=
  let st1 := updateState
    {| u_status := Some error; u_lastConnected := None; u_lastDisconnected := None;
       u_reconnectAttempts := Some (reconnectAttempts (connectionState st) + 1);
       u_error := Some (Some e) |} st in
  emit EventBus.ERROR "connection" st1.

(** *** [connect] *)

Inductive ConnectOutcome :=
  | ConnectResolved (s : option nat)
  | ConnectRejected (e : Js.Error)
  | ConnectWaiting.

(** The [catch] block of [connect]. *)
Definition connect_catch (e : Js.Error) (st : State) : State * ConnectOutcome :=
  (handleConnectionError e st, ConnectRejected e).

(** The method up to the [await] of [waitForConnection]. *)
Definition connect (p : ConnectionParams) (st : State) : State * ConnectOutcome :=
  if negb (canConnect st) then (st, ConnectResolved (socket st))
  else
    let st1 := updateState
      {| u_status := Some connecting; u_lastConnected := None;
         u_lastDisconnected := None; u_reconnectAttempts := None;
         u_error := Some None |} st in
    let effectiveParams := mergeConnectionParams p st1 in
    match buildSocketUrl effectiveParams st1 with
    | inl e => connect_catch e st1
    | inr socketUrl =>
        let socketParams := buildSocketParams effectiveParams st1 in
        match ctorFailure st1 with
        | Some e => connect_catch e st1
        | None =>
            let st2 := createSocket socketUrl socketParams st1 in
            let st3 := setupSocketHandlers st2 in
            let st4 := set_connectionParams (Some effectiveParams) st3 in
            (saveConnectionParams effectiveParams st4, ConnectWaiting)
        end
    end.

(** *** Callbacks of the transport *)

(** The value handed to the error handler ([error: any]): [undefined], or
    something with an optional [message] and a [toString()]. *)
Record ErrorValue := { ev_message : option string; ev_toString : option string }.

Definition errorMessage (ev : ErrorValue) : string :=
  match Js.truthy (ev_message ev) with
  | Some m => m
  | None => default "Unknown error" (Js.truthy (ev_toString ev))
  end.

Definition handlePollStatusError (ev : ErrorValue) (st : State) : State :=
  let st1 := log "[ConnectionManager] Poll status error detected, attempting recovery..." st in
  let st2 := updateConfig
    {| c_url := None; c_authParams := None; c_useLongPoll := Some false;
       c_disableLongPollFallback := None |} st1 in
  let st3 := updateState
    {| u_status := Some reconnecting; u_lastConnected := None;
       u_lastDisconnected := None; u_reconnectAttempts := None; u_error := None |} st2 in
  let st4 := disconnect (Some "Poll status recovery") st3 in
  let st5 := set_socket None st4 in
  setTimeout ReconnectStored 2000 st5.

Definition handleSocketError (ev : ErrorValue) (st : State) : State :=
  if Js.includes (errorMessage ev) "unhandled poll status" then
    handlePollStatusError ev st
  else
    let st1 :=
      if bool_decide (status (connectionState st) ≠ reconnecting) then
        updateState
          {| u_status := Some error; u_lastConnected := None;
             u_lastDisconnected := None; u_reconnectAttempts := None;
             u_error := Some (Some (Js.createError (errorMessage ev) None)) |} st
      else st in
    emit EventBus.ERROR "socket" st1.

Definition onOpen (st : State) : State :=
  let wasReconnecting := bool_decide (status (connectionState st) = reconnecting) in
  let st1 := updateState
    {| u_status := Some connected; u_lastConnected := Some (clock st);
       u_lastDisconnected := None; u_reconnectAttempts := Some 0;
       u_error := Some None |} st in
  emit (if wasReconnecting then EventBus.RECONNECT else EventBus.CONNECT) "" st1.

Definition onClose (st : State) : State :=
  let st1 :=
    if bool_decide (status (connectionState st) = connected) then
      updateState
        {| u_status := Some reconnecting; u_lastConnected := None;
           u_lastDisconnected := Some (clock st); u_reconnectAttempts := None;
           u_error := None |} st
    else if bool_decide (status (connectionState st) = connecting) then
      updateState
        {| u_status := Some disconnected; u_lastConnected := None;
           u_lastDisconnected := Some (clock st); u_reconnectAttempts := None;
           u_error := None |} st
    else st in
  emit EventBus.DISCONNECT "Socket closed" st1.

(** What the transport reports about a socket object: it opened, it closed,
    it had an error. The object's own connectivity changes first, then the
    handlers registered on it run. *)
Inductive SocketEvent :=
  | Opened (s : nat)
  | Closed (s : nat)
  | Errored (s : nat) (ev : ErrorValue).

Definition set_connected (b : bool) (o : Socket) : Socket :=
  {| s_url := s_url o; s_params := s_params o; s_longPoll := s_longPoll o;
     s_connected := b; s_handlers := s_handlers o; s_disconnects := s_disconnects o |}.

Definition has_handlers (s : nat) (st : State) : bool :=
  from_option s_handlers false (sockets st !! s).

Definition socket_event (ev : SocketEvent) (st : State) : State :=
  match ev with
  | Opened s =>
      let st1 := update_socket s (set_connected true) st in
      if has_handlers s st then onOpen st1 else st1
  | Closed s =>
      let st1 := update_socket s (set_connected false) st in
      if has_handlers s st then onClose st1 else st1
  | Errored s e => if has_handlers s st then handleSocketError e st else st
  end.

(** *** [waitForConnection]

    The promise is settled by the first of: a check that finds the socket
    connected, the check that reaches [maxAttempts], the 10 s timer. Checks
    run at 0 ms, 50 ms, 100 ms, ... after the call; [events k] are the
    transport's reports that arrive before the check number [k + 1]. *)
Inductive WaitResult := WaitConnected | WaitTimeout | WaitLimit | WaitNoSocket.

Definition waitTimeoutMs : Z := 10000.
Definition maxAttempts : nat := 100.
Definition checkInterval : Z := 50.

Fixpoint checkConnection (fuel attempts : nat) (elapsed : Z)
    (events : nat → list SocketEvent) (st : State) : option (State * WaitResult * Z) :=
  match fuel with
  | 0 => None
  | S fuel' =>
      let st1 := foldl (λ s ev, socket_event ev s) st (events attempts) in
      let attempts1 := S attempts in
      if decide (maxAttempts ≤ attempts1) then Some (st1, WaitLimit, elapsed)
      else if socket_isConnected st1 then Some (st1, WaitConnected, elapsed)
      else if decide (waitTimeoutMs ≤ elapsed + checkInterval)%Z
           then Some (st1, WaitTimeout, waitTimeoutMs)
      else checkConnection fuel' attempts1 (elapsed + checkInterval)%Z events st1
  end.

Definition waitForConnection (events : nat → list SocketEvent) (st : State)
    : option (State * WaitResult * Z) :=
  match socket st with
  | None => Some (st, WaitNoSocket, 0%Z)
  | Some _ => checkConnection maxAttempts 0 0 events st
  end.

Definition wait_error (r : WaitResult) : Js.Error :=
  match r with
  | WaitTimeout => Js.createError "Connection timeout" None
  | WaitLimit => Js.createError "Connection check limit exceeded" None
  | WaitNoSocket => Js.createError "Socket not initialized" None
  | WaitConnected => Js.createError "" None
  end.

(** The method from the settlement of [waitForConnection] on. *)
Definition connect_settle (r : WaitResult) (st : State) : State * ConnectOutcome :=
  match r with
  | WaitConnected => (st, ConnectResolved (socket st))
  | _ => connect_catch (wait_error r) st
  end.

(** A whole [connect] call during which only the transport acts. *)
Definition connect_run (p : ConnectionParams) (events : nat → list SocketEvent)
    (st : State) : option (State * ConnectOutcome) :=
  match connect p st with
  | (st1, ConnectWaiting) =>
      match waitForConnection events st1 with
      | Some (st2, r, _) => Some (connect_settle r st2)
      | None => None
      end
  | settled => Some settled
  end.

(** *** [forceReconnect], [reset], timers *)

Definition forceReconnect (st : State) : State :=
  let now := clock st in
  if decide (now - lastReconnectTime st < reconnectThrottleMs)%Z then
    log "[ConnectionManager] Force reconnect throttled - too frequent" st
  else
    let st1 := log "[ConnectionManager] Force reconnecting..." st in
    let st2 := set_lastReconnectTime now st1 in
    let st3 := disconnect (Some "Force reconnect") st2 in
    let st4 := set_connectionState
      {| status := status (connectionState st3);
         lastConnected := lastConnected (connectionState st3);
         lastDisconnected := lastDisconnected (connectionState st3);
         reconnectAttempts := 0;
         lastError := lastError (connectionState st3) |} st3 in
    setTimeout ReconnectStored 1000 st4.

Definition reset (st : State) : State :=
  let st1 := disconnect (Some "Reset") st in
  let st2 := set_connectionState
    {| status := disconnected; lastConnected := None; lastDisconnected := None;
       reconnectAttempts := 0; lastError := None |} st1 in
  clearConnectionParams (set_connectionParams None st2).

(** Running the callback of a timer. *)
Definition fire (t : Timer) (st : State) : State * option ConnectOutcome :=
  match t with
  | ReconnectStored =>
      match connectionParams st with
      | Some p => let r := connect p st in (r.1, Some r.2)
      | None => (st, None)
      end
  end.

(** While a [connect] call waits for the socket object [n] it created:
    the handlers are on [n]; the manager holds [n] or, after a poll-status
    fault, nothing; and if [n] is connected then its open handler has run
    and nothing has counted a failure since. *)
Definition attempt_inv (n : nat) (st : State) : Prop :=
  has_handlers n st = true
  ∧ (socket st = None
     ∨ (socket st = Some n
        ∧ (from_option s_connected false (sockets st !! n) = true →
           reconnectAttempts (connectionState st) = 0))).

(** *** Scenario: connected to ["wss://x/socket"] with a token *)

Definition lobby_params : ConnectionParams :=
  {| endpoint := Some (Some "wss://x/socket");
     params := Some (Some {["token" := "abc"]});
     extras := ∅ |}.

Definition plain_config : PhoenixConfig :=
  {| url := None; authParams := None; useLongPoll := false;
     disableLongPollFallback := false |}.

Definition no_env : PhoenixEnv := {| EDGE_URL := None; SOCKET_EDGE_URL := None |}.

Definition opens_at_once (k : nat) : list SocketEvent :=
  match k with 0 => [Opened 0] | _ => [] end.

Definition connected_state : option (State * ConnectOutcome) :=
  connect_run lobby_params opens_at_once (init no_env plain_config).

End Connection.

(** ** The monolithic client: [PhoenixClient] of [src/phoenix-client.ts]

    Only what [connect] uses. The parameter, configuration, environment and
    socket types are those of the connection manager. *)

Module Legacy.

Import Connection.

Record State := {
  l_socket : option nat;
  l_channels : gmap string nat;
  l_connectionState : Status;
  l_connectionParams : option ConnectionParams;
  l_env : PhoenixEnv;
  l_config : PhoenixConfig;
  l_sockets : list Socket;
  l_ctorFailure : option Js.Error;
  l_storageAvailable : bool;
  l_storedParams : option ConnectionParams;
  l_left : list nat;
  l_emitted : list string
}.

Definition isConnected (st : State) : bool :=
  match l_socket st with
  | Some s => from_option s_connected false (l_sockets st !! s)
  | None => false
  end.

(** The options [connect] works with: the incoming ones merged over the
    saved ones, the [params] key merged entry by entry. *)
Definition effectiveOptions (options : ConnectionParams) (st : State) : ConnectionParams :=
  let previous := default empty_params (l_connectionParams st) in
  let mergedParams :=
    default ∅ (default None (params options)) ∪ default ∅ (default None (params previous)) in
  {| endpoint := match endpoint options with Some v => Some v | None => endpoint previous end;
     params := Some (Some mergedParams);
     extras := extras options ∪ extras previous |}.

Definition _hasConnectionParamsChanged (options : ConnectionParams) (st : State) : bool :=
  match l_connectionParams st with
  | None => false
  | Some current =>
      let currentEndpoint :=
        match Js.truthy (default None (endpoint current)) with
        | Some e => Some e
        | None => url (l_config st)
        end in
      let endpointChanged :=
        match Js.truthy (default None (endpoint options)) with
        | Some newEndpoint => bool_decide (currentEndpoint ≠ Some newEndpoint)
        | None => false
        end in
      if endpointChanged then true
      else
        let currentParams := default ∅ (default None (params current)) in
        let newParams := default ∅ (default None (params options)) in
        bool_decide (set_Exists (λ key, currentParams !! key ≠ newParams !! key)
                                (dom currentParams ∪ dom newParams))
  end.

Definition disconnect (st : State) : State :=
  match l_socket st with
  | None => st
  | Some s =>
      {| l_socket := None; l_channels := ∅; l_connectionState := disconnected;
         l_connectionParams := l_connectionParams st; l_env := l_env st;
         l_config := l_config st;
         l_sockets :=
           match l_sockets st !! s with
           | Some o =>
               <[s := {| s_url := s_url o; s_params := s_params o;
                         s_longPoll := s_longPoll o; s_connected := s_connected o;
                         s_handlers := s_handlers o;
                         s_disconnects := s_disconnects o ++ ["Client disconnect"] |}]>
                 (l_sockets st)
           | None => l_sockets st
           end;
         l_ctorFailure := l_ctorFailure st;
         l_storageAvailable := l_storageAvailable st;
         l_storedParams := l_storedParams st;
         l_left := l_left st ++ (map_to_list (l_channels st)).*2;
         l_emitted := l_emitted st |}
  end.

Definition _getSocketUrl (options : ConnectionParams) (st : State) : Js.Error + string :=
  match Js.truthy (default None (endpoint options)) with
  | Some e => inr e
  | None =>
      match Js.truthy (url (l_config st)) with
      | Some u => inr u
      | None =>
          match Js.truthy (EDGE_URL (l_env st)), Js.truthy (SOCKET_EDGE_URL (l_env st)) with
          | Some baseUrl, _ | None, Some baseUrl =>
              inr (strip_suffix "/" (strip_suffix "/api/v1" (replace_scheme baseUrl))
                   +:+ "/socket")
          | None, None => inl NO_URL
          end
      end
  end.

Definition _getSocketParams (options : ConnectionParams) (st : State) : gmap string string :=
  default ∅ (default None (params options)) ∪ default ∅ (authParams (l_config st)).

Inductive Outcome := Returned (s : option nat) | Thrown (e : Js.Error).

(** [connect] from the point where the state becomes [connecting]. *)
Definition connect_attempt (effective : ConnectionParams) (st : State) : State * Outcome :=
  let persisted :=
    if l_storageAvailable st then
      Some {| endpoint := Some (Js.truthy (default None (endpoint effective)));
              params := Some (default None (params effective)); extras := ∅ |}
    else l_storedParams st in
  let failed (e : Js.Error) :=
    ({| l_socket := l_socket st; l_channels := l_channels st; l_connectionState := error;
        l_connectionParams := Some effective; l_env := l_env st; l_config := l_config st;
        l_sockets := l_sockets st; l_ctorFailure := l_ctorFailure st;
        l_storageAvailable := l_storageAvailable st; l_storedParams := persisted;
        l_left := l_left st; l_emitted := l_emitted st ++ [EventBus.ERROR] |}, Thrown e) in
  match _getSocketUrl effective st with
  | inl e => failed e
  | inr socketUrl =>
      match l_ctorFailure st with
      | Some e => failed e
      | None =>
          ({| l_socket := Some (length (l_sockets st)); l_channels := l_channels st;
              l_connectionState := connecting;
              l_connectionParams := Some effective; l_env := l_env st;
              l_config := l_config st;
              l_sockets := l_sockets st ++
                [{| s_url := socketUrl; s_params := _getSocketParams effective st;
                    s_longPoll := useLongPoll (l_config st); s_connected := false;
                    s_handlers := true; s_disconnects := [] |}];
              l_ctorFailure := l_ctorFailure st;
              l_storageAvailable := l_storageAvailable st; l_storedParams := persisted;
              l_left := l_left st; l_emitted := l_emitted st |},
           Returned (Some (length (l_sockets st))))
      end
  end.

Definition connect (options : ConnectionParams) (st : State) : State * Outcome :=
  let effective := effectiveOptions options st in
  let guarded (st1 : State) :=
    if bool_decide (l_connectionState st1 = connecting) then (st1, Returned (l_socket st1))
    else connect_attempt effective st1 in
  if isConnected st then
    if negb (_hasConnectionParamsChanged effective st) then (st, Returned (l_socket st))
    else guarded (disconnect st)
  else guarded st.

End Legacy.

(** ** Channel manager: bookkeeping over sequences of operations *)

Module Registry.

Import Channels.

(** The acknowledgments [ok] of pushes on a topic among the operations. *)
Definition is_okAck (tp : string) (op : Op) : bool :=
  match op with
  | SendSettled tp' (push_ok _) => bool_decide (tp' = tp)
  | _ => false
  end.

Definition okAcks (tp : string) (ops : list Op) : nat :=
  length (filter (λ op, is_okAck tp op = true) ops).

(** Every channel object carries the manager's error and close handlers,
    installed for the topic of the object. *)
Definition handlers_installed (st : State) : Prop :=
  ∀ c obj, heap st !! c = Some obj →
    ch_managerHandlers obj = true
    ∧ ∃ options, ch_errorHandlers obj = [(ch_topic obj, options)]
                 ∧ ch_closeHandlers obj = [(ch_topic obj, options)].


(** [st'] has the channel objects of [st], each with its topic and its
    handlers, and possibly more. *)
Definition same_handlers (st st' : State) : Prop :=
  length (heap st) ≤ length (heap st') ∧
  ∀ c obj', heap st' !! c = Some obj' →
    (∃ obj, heap st !! c = Some obj
            ∧ ch_topic obj' = ch_topic obj
            ∧ ch_managerHandlers obj' = ch_managerHandlers obj
            ∧ ch_errorHandlers obj' = ch_errorHandlers obj
            ∧ ch_closeHandlers obj' = ch_closeHandlers obj)
    ∨ (heap st !! c = None
       ∧ ch_managerHandlers obj' = true
       ∧ ∃ options, ch_errorHandlers obj' = [(ch_topic obj', options)]
                    ∧ ch_closeHandlers obj' = [(ch_topic obj', options)]).

(** [st'] has a [ChannelState] for every topic that has one in [st], with
    the same [messageCount]. *)
Definition counts_kept (st st' : State) : Prop :=
  ∀ tp state, channelStates st !! tp = Some state →
    ∃ state', channelStates st' !! tp = Some state'
              ∧ messageCount state' = messageCount state.

End Registry.

(** ** Event bus: sequences of subscriptions *)

Module BusOps.

Import EventBus.

Inductive Op :=
  | On (event : string) (handler : nat)
  | Off (event : string) (handler : nat)
  | Clear.

Definition step (m : EventManager) (op : Op) : EventManager :=
  match op with
  | On event handler => on event handler m
  | Off event handler => off event handler m
  | Clear => clear m
  end.

Definition run (ops : list Op) (m : EventManager) : EventManager := foldl step m ops.

(** [churn n]: the handlers [0], [1], ..., [n - 1] are subscribed to the
    connect event one after the other, each subscription followed by the
    removal of a handler that was never subscribed. *)
Definition churn (n : nat) : list Op :=
  mjoin ((λ i, [On CONNECT i; Off CONNECT (S i)]) <$> seq 0 n).

End BusOps.

(** ** Utilities: [timingUtils], [validationUtils], [channelUtils] *)

Module Utils.

(** [timingUtils.calculateBackoffDelay(attempt, baseDelay)], for a count of
    attempts and a whole number of milliseconds, and the [reconnectAfterMs]
    option that [createSocket] hands to the transport, which leaves
    [baseDelay] at its default of 1000. *)
Definition calculateBackoffDelay (attempt : nat) (baseDelay : Z) : Z :=
  Z.min (baseDelay * 2 ^ Z.of_nat attempt) 30000.

Definition reconnectAfterMs (tries : nat) : Z := calculateBackoffDelay tries 1000.

(** [validationUtils.isValidTopic]. *)
Definition isValidTopic (topic : string) : bool :=
  bool_decide (0 < String.length topic) && Js.includes topic ":".

(** [String.prototype.split] for a separator of one character. *)
Fixpoint split (sep : ascii) (s : string) : list string :=
  match s with
  | EmptyString => [EmptyString]
  | String c s' =>
      if decide (c = sep) then EmptyString :: split sep s'
      else match split sep s' with
           | piece :: pieces => String c piece :: pieces
           | [] => [String c EmptyString]
           end
  end.

(** [channelUtils.createChannelKey] and [channelUtils.parseChannelKey].
    [stringify] and [parse] stand for [JSON.stringify] and for [JSON.parse],
    which gives nothing where [JSON.parse] throws. *)
Section ChannelKeys.
Context {Params : Type}.
Variable stringify : Params → string.
Variable parse : string → option Params.

Definition createChannelKey (topic : string) (params : option Params) : string :=
  let paramsKey := match params with Some ps => stringify ps | None => "" end in
  topic +:+ ":" +:+ paramsKey.

Record ParsedKey := { key_topic : string; key_params : option Params }.

Definition parseChannelKey (key : string) : ParsedKey :=
  let parts := take 2 (split ":" key) in
  {| key_topic := default "" (parts !! 0);
     key_params := match Js.truthy (parts !! 1) with
                   | Some paramsStr => parse paramsStr
                   | None => None
                   end |}.

End ChannelKeys.

End Utils.

(** ** The monolithic client: delays handed to the transport *)

Module LegacyTiming.




End LegacyTiming.

(** ** Session storage: [storageHelpers] *)

Module SessionStorage.

(** [window.sessionStorage]: absent, or a map from keys to texts. *)
Definition Storage := option (gmap string string).

(** [storageHelpers.clearByPattern]; the pattern is what [pattern.test]
    answers for a key. *)
Definition clearByPattern (pattern : string → bool) (storage : Storage) : nat * Storage :=
  match storage with
  | None => (0, None)
  | Some items =>
      let keys := filter (λ key, pattern key = true) (map_to_list items).*1 in
      (length keys, Some (foldr delete items keys))
  end.

Definition clearPhoenixData (storage : Storage) : nat * Storage :=
  clearByPattern (λ key, Js.startsWith key "phoenix_") storage.

(** [/[^a-zA-Z0-9]/]: a character that is neither a letter nor a digit. *)
Definition isAlphanumeric (c : ascii) : bool :=
  let n := nat_of_ascii c in
  (48 <=? n) && (n <=? 57) || (65 <=? n) && (n <=? 90) || (97 <=? n) && (n <=? 122).

Fixpoint sanitize (s : string) : string :=
  match s with
  | EmptyString => EmptyString
  | String c s' => String (if isAlphanumeric c then c else "_"%char) (sanitize s')
  end.

(** [storageHelpers.createChannelStorageKey]. *)
Definition createChannelStorageKey (topic : string) : string :=
  "phoenix_channel_" +:+ sanitize topic.

Definition CONFIG : string := "phoenix_config".
Definition CONNECTION_PARAMS : string := "phoenix_connection_params".

End SessionStorage.

(** ** The client: [PhoenixClient] over the two managers

    The methods of the class that delegate to the connection manager, the
    channel manager and the event manager. The constructor, [setEnvironment]
    and the global error handler are not part of the embedding, and with
    them the fields [env] and [config] of the class, which no other method
    reads. *)

Module Facade.

Record Client := {
  connectionManager : Connection.State;
  channelManager : Channels.State;
  eventManager : EventBus.EventManager
}.

Definition with_connectionManager (f : Connection.State → Connection.State)
    (client : Client) : Client :=
  {| connectionManager := f (connectionManager client);
     channelManager := channelManager client;
     eventManager := eventManager client |}.

Definition with_channelManager (f : Channels.State → Channels.State)
    (client : Client) : Client :=
  {| connectionManager := connectionManager client;
     channelManager := f (channelManager client);
     eventManager := eventManager client |}.

Definition with_eventManager (f : EventBus.EventManager → EventBus.EventManager)
    (client : Client) : Client :=
  {| connectionManager := connectionManager client;
     channelManager := channelManager client;
     eventManager := f (eventManager client) |}.

(** [phoenixStorage.clearConfig] and [phoenixStorage.clearAll]. *)
Definition storage_clearConfig (st : Connection.State) : Connection.State :=
  if Connection.storageAvailable st then Connection.set_storedConfig None st else st.

Definition storage_clearAll (st : Connection.State) : Connection.State :=
  Connection.clearConnectionParams (storage_clearConfig st).

(** *** Configuration *)

Definition setWebSocketUrl (url : string) (client : Client) : Client :=
  with_connectionManager
    (Connection.updateConfig
       {| Connection.c_url := Some (Some url); Connection.c_authParams := None;
          Connection.c_useLongPoll := None;
          Connection.c_disableLongPollFallback := None |}) client.

Definition setAuthParams (authParams : option (gmap string string)) (client : Client)
    : Client :=
  with_connectionManager
    (Connection.updateConfig
       {| Connection.c_url := None; Connection.c_authParams := Some authParams;
          Connection.c_useLongPoll := None;
          Connection.c_disableLongPollFallback := None |}) client.

Definition setLongPollSupport (enabled : bool) (client : Client) : Client :=
  with_connectionManager
    (Connection.updateConfig
       {| Connection.c_url := None; Connection.c_authParams := None;
          Connection.c_useLongPoll := Some enabled;
          Connection.c_disableLongPollFallback := None |}) client.

Definition disableLongPollFallback (client : Client) : Client :=
  with_connectionManager
    (Connection.updateConfig
       {| Connection.c_url := None; Connection.c_authParams := None;
          Connection.c_useLongPoll := None;
          Connection.c_disableLongPollFallback := Some true |}) client.

Definition clearConfig (client : Client) : Client :=
  with_connectionManager
    (λ st, Connection.updateConfig
       {| Connection.c_url := Some None; Connection.c_authParams := Some None;
          Connection.c_useLongPoll := Some false;
          Connection.c_disableLongPollFallback := Some false |}
       (storage_clearConfig st)) client.

(** *** Connection *)

(** [connect]: the connection manager's [connect], awaited, then
    [channelManager.setSocket] with the socket it resolved to; a rejection
    is passed on. *)
Definition connect (options : Connection.ConnectionParams)
    (events : nat → list Connection.SocketEvent) (client : Client)
    : option (Client * Connection.ConnectOutcome) :=
  match Connection.connect_run options events (connectionManager client) with
  | Some (st, Connection.ConnectResolved socket) =>
      Some ({| connectionManager := st;
               channelManager := Channels.setSocket socket (channelManager client);
               eventManager := eventManager client |},
            Connection.ConnectResolved socket)
  | Some (st, outcome) =>
      Some ({| connectionManager := st;
               channelManager := channelManager client;
               eventManager := eventManager client |}, outcome)
  | None => None
  end.

Definition disconnect (client : Client) : Client :=
  with_connectionManager (Connection.disconnect (Some "Client disconnect"))
    (with_channelManager Channels.cleanup client).

Definition resetConnection (client : Client) : Client :=
  with_connectionManager (λ st, storage_clearAll (Connection.reset st))
    (disconnect client).

Definition forceReconnect (client : Client) : Client :=
  with_connectionManager Connection.forceReconnect client.

(** *** Channels *)

Definition joinChannel (topic : string) (params : gmap string string) (client : Client)
    : Client * Channels.JoinOutcome :=
  let r := Channels.joinChannel topic
    {| Channels.params := Some params; Channels.onJoin := None;
       Channels.onLeave := None; Channels.onError := None |}
    (channelManager client) in
  (with_channelManager (λ _, r.1) client, r.2).

Definition leaveChannel (topic : string) (client : Client) : Client :=
  with_channelManager (Channels.leaveChannel topic) client.

Definition sendMessage (topic event payload : string) (client : Client)
    : Client * Channels.SendOutcome :=
  let r := Channels.sendMessage topic event payload (channelManager client) in
  (with_channelManager (λ _, r.1) client, r.2).

Definition onMessage (topic event : string) (callback : nat) (client : Client) : Client :=
  with_channelManager (Channels.onMessage topic event callback) client.

Definition offMessage (topic event : string) (callback : nat) (client : Client) : Client :=
  with_channelManager (Channels.offMessage topic event callback) client.

(** *** State and events *)

Definition getConnectionState (client : Client) : Connection.Status :=
  Connection.status (Connection.getState (connectionManager client)).

Definition isConnected (client : Client) : bool :=
  Connection.isConnected (connectionManager client).

Definition canConnect (client : Client) : bool :=
  Connection.canConnect (connectionManager client).

Definition addEventListener (event : string) (handler : nat) (client : Client) : Client :=
  with_eventManager (EventBus.on event handler) client.

Definition removeEventListener (event : string) (handler : nat) (client : Client) : Client :=
  with_eventManager (EventBus.off event handler) client.

(** *** Scenario: a new client, connected to ["wss://x/socket"] *)

(** The managers as the constructor creates them, with no environment. *)
Definition new_client : Client :=
  {| connectionManager := Connection.init Connection.no_env Connection.plain_config;
     channelManager := Channels.init None;
     eventManager := EventBus.init |}.

Definition connected_client : Client :=
  from_option fst new_client
    (connect Connection.lobby_params Connection.opens_at_once new_client).

End Facade.

(** * Properties *)

(** ** Sets of callbacks and sums over maps *)

Section JsFacts.
Import Js.

Lemma set_has_true x s : set_has x s = true ↔ x ∈ s.
Proof. unfold set_has. apply bool_decide_eq_true. Qed.

Lemma set_add_elem x s : x ∈ set_add x s.
Proof.
  unfold set_add. destruct (set_has x s) eqn:E.
  - by apply set_has_true.
  - apply elem_of_app. right. by apply list_elem_of_singleton.
Qed.

Lemma set_add_mono x y s : y ∈ s → y ∈ set_add x s.
Proof.
  unfold set_add. destruct (set_has x s); [done|].
  intros. apply elem_of_app. by left.
Qed.

Lemma set_add_inv x y s : y ∈ set_add x s → y = x ∨ y ∈ s.
Proof.
  unfold set_add. destruct (set_has x s); [by right|].
  intros [H|H%list_elem_of_singleton]%elem_of_app; [by right|by left].
Qed.

Lemma set_add_NoDup x s : NoDup s → NoDup (set_add x s).
Proof.
  unfold set_add. destruct (set_has x s) eqn:E; [done|].
  intros Hs. apply NoDup_app. split_and!; [done| |apply NoDup_singleton].
  intros y Hy ->%list_elem_of_singleton.
  apply set_has_true in Hy. congruence.
Qed.

Lemma set_add_present x s : x ∈ s → set_add x s = s.
Proof. intros H. unfold set_add. by rewrite (proj2 (set_has_true x s) H). Qed.

Lemma set_add_absent x s : x ∉ s → set_add x s = s ++ [x].
Proof.
  intros H. unfold set_add. destruct (set_has x s) eqn:E; [|done].
  by apply set_has_true in E.
Qed.

Lemma set_add_idem x s : set_add x (set_add x s) = set_add x s.
Proof. apply set_add_present, set_add_elem. Qed.

Lemma set_add_length x s : length (set_add x s) ≤ S (length s).
Proof.
  unfold set_add. destruct (set_has x s); [lia|].
  rewrite length_app. simpl. lia.
Qed.

Lemma invocations_absent x calls : x ∉ calls → invocations x calls = 0.
Proof.
  unfold invocations. induction calls as [|y calls IH]; [done|].
  intros Hn. rewrite filter_cons. case_decide as Hy.
  - subst. exfalso. apply Hn. by left.
  - apply IH. intros ?. apply Hn. by right.
Qed.

Lemma invocations_set x s : NoDup s → x ∈ s → invocations x s = 1.
Proof.
  unfold invocations. induction 1 as [|y s Hy Hs IH]; intros Hx.
  - by apply elem_of_nil in Hx.
  - rewrite filter_cons. case_decide as E.
    + subst. simpl. f_equal. by apply invocations_absent.
    + apply IH. apply elem_of_cons in Hx as [->|?]; done.
Qed.

Lemma invocations_app x l1 l2 :
  invocations x (l1 ++ l2) = invocations x l1 + invocations x l2.
Proof. unfold invocations. by rewrite filter_app, length_app. Qed.

Lemma fold_sum_insert {A} (f : A → nat) (m : gmap string A) k v :
  map_fold (λ _ x t, t + f x) 0 (<[k := v]> m) + from_option f 0 (m !! k)
  = map_fold (λ _ x t, t + f x) 0 m + f v.
Proof.
  destruct (m !! k) as [a|] eqn:E; simpl.
  - rewrite <- (insert_delete_eq m k v).
    rewrite <- (insert_id m k a E) at 2.
    rewrite <- (insert_delete_eq m k a).
    rewrite !map_fold_insert_L.
    + lia.
    + intros; lia.
    + apply lookup_delete_eq.
    + intros; lia.
    + apply lookup_delete_eq.
  - rewrite map_fold_insert_L; [lia| intros; lia | done].
Qed.

End JsFacts.

(** ** Event bus *)

Section EventBusFacts.
Import Js EventBus.

Lemma emitter_on_insert event handler (listeners : gmap string (list nat)) :
  emitter_on event handler listeners
  = <[event := set_add handler (default [] (listeners !! event))]> listeners.
Proof.
  unfold emitter_on. destruct (listeners !! event) as [hs|] eqn:E; simpl.
  - by rewrite E.
  - rewrite lookup_insert_eq. by rewrite insert_insert_eq.
Qed.

Lemma sets_wf_init : sets_wf init.
Proof. intros event handlers. unfold init; simpl. by rewrite lookup_empty. Qed.

Lemma sets_wf_handlers m event :
  sets_wf m → NoDup (default [] (emitter m !! event)).
Proof.
  intros Hwf. destruct (emitter m !! event) as [hs|] eqn:E; simpl.
  - by eapply Hwf.
  - apply NoDup_nil_2.
Qed.

Lemma sets_wf_on m event handler : sets_wf m → sets_wf (on event handler m).
Proof.
  intros Hwf e hs. unfold on. case_decide; simpl; [apply Hwf|].
  rewrite emitter_on_insert, lookup_insert. case_decide; [|apply Hwf].
  intros [= <-]. by apply set_add_NoDup, sets_wf_handlers.
Qed.

Lemma sets_wf_off m event handler : sets_wf m → sets_wf (off event handler m).
Proof.
  intros Hwf e hs. unfold off, emitter_off; simpl.
  destruct (emitter m !! event) as [hs0|] eqn:E; [|apply Hwf].
  case_bool_decide.
  - rewrite lookup_delete. case_decide; [done|apply Hwf].
  - rewrite lookup_insert. case_decide; [|apply Hwf].
    intros [= <-]. unfold set_delete. apply NoDup_filter. by eapply Hwf.
Qed.

Lemma on_admitted m event handler :
  currentCount event m < maxListenersPerEvent →
  on event handler m =
    {| emitter := emitter_on event handler (emitter m);
       listenerCounts := <[event := currentCount event m + 1]> (listenerCounts m);
       warnings := warnings m |}.
Proof. intros H. unfold on. case_decide; [lia|done]. Qed.

Lemma on_dropped m event handler :
  maxListenersPerEvent ≤ currentCount event m →
  emitter (on event handler m) = emitter m
  ∧ listenerCounts (on event handler m) = listenerCounts m
  ∧ warnings (on event handler m) ≠ warnings m.
Proof.
  intros H. unfold on. case_decide; [|lia]. simpl. split_and!; [done..|].
  intros Heq. apply (f_equal length) in Heq. rewrite length_app in Heq.
  simpl in Heq. lia.
Qed.

Lemma currentCount_on m event handler :
  currentCount event m < maxListenersPerEvent →
  currentCount event (on event handler m) = currentCount event m + 1.
Proof.
  intros H. rewrite on_admitted by done.
  unfold currentCount at 1; simpl. by rewrite lookup_insert_eq.
Qed.

Lemma totalListeners_on m event handler :
  currentCount event m < maxListenersPerEvent →
  totalListeners (getResourceStats (on event handler m))
  = totalListeners (getResourceStats m) + 1.
Proof.
  intros H. rewrite on_admitted by done. unfold getResourceStats; simpl.
  pose proof (fold_sum_insert (λ c : nat, c) (listenerCounts m) event
                (currentCount event m + 1)) as Hs.
  unfold currentCount in *.
  destruct (listenerCounts m !! event); simpl in *; lia.
Qed.

Lemma distinctHandlers_on m event handler :
  distinctHandlers (on event handler m) ≤ distinctHandlers m + 1.
Proof.
  unfold on. case_decide; simpl; [unfold distinctHandlers; simpl; lia|].
  unfold distinctHandlers; simpl. rewrite emitter_on_insert.
  pose proof (fold_sum_insert (λ hs : list nat, length hs) (emitter m) event
                (set_add handler (default [] (emitter m !! event)))) as Hs.
  pose proof (set_add_length handler (default [] (emitter m !! event))).
  destruct (emitter m !! event); simpl in *; lia.
Qed.

Lemma emit_on m event handler :
  currentCount event m < maxListenersPerEvent →
  emit event (on event handler m)
  = set_add handler (default [] (emitter m !! event)).
Proof.
  intros H. rewrite on_admitted by done. unfold emit, emitter_emit; simpl.
  by rewrite emitter_on_insert, lookup_insert_eq.
Qed.

(** C10. In the event manager a handler registered twice for one event is
    called once per emit, because the emitter keeps a set; but both [on]
    calls increment the per-event count. So the duplicate takes a slot of
    the cap of 20 (a fresh handler is refused once the count says 20, however
    few handlers the set holds), and [getResourceStats().totalListeners]
    grows by two where the number of handlers held grows by at most one. *)
Theorem duplicate_handler_counted_twice m event handler :
  sets_wf m →
  currentCount event m + 1 < maxListenersPerEvent →
  let m2 := on event handler (on event handler m) in
  invocations handler (emit event m2) = 1
  ∧ emit event m2 = emit event (on event handler m)
  ∧ currentCount event m2 = currentCount event m + 2
  ∧ totalListeners (getResourceStats m2) = totalListeners (getResourceStats m) + 2
  ∧ distinctHandlers m2 ≤ distinctHandlers m + 1
  ∧ (distinctHandlers m ≤ totalListeners (getResourceStats m) →
     distinctHandlers m2 < totalListeners (getResourceStats m2))
  ∧ (∀ other, currentCount event m + 2 = maxListenersPerEvent →
       emit event (on event other m2) = emit event m2).
Proof.
  intros Hwf Hlt m2.
  assert (H1 : currentCount event m < maxListenersPerEvent) by lia.
  assert (Hc1 := currentCount_on m event handler H1).
  assert (H2 : currentCount event (on event handler m) < maxListenersPerEvent) by lia.
  assert (Hc2 : currentCount event m2 = currentCount event m + 2).
  { unfold m2. rewrite currentCount_on by done. lia. }
  assert (He1 := emit_on m event handler H1).
  assert (He2 : emit event m2 = emit event (on event handler m)).
  { unfold m2. rewrite emit_on by done.
    change (default [] (emitter (on event handler m) !! event))
      with (emit event (on event handler m)) at 1.
    - rewrite He1. by rewrite set_add_idem. }
  assert (Ht : totalListeners (getResourceStats m2)
               = totalListeners (getResourceStats m) + 2).
  { unfold m2. rewrite !totalListeners_on by done. lia. }
  assert (Hl : emitter (on event handler m) !! event
               = Some (set_add handler (default [] (emitter m !! event)))).
  { rewrite on_admitted by done. simpl.
    by rewrite emitter_on_insert, lookup_insert_eq. }
  assert (Hd : distinctHandlers m2 ≤ distinctHandlers m + 1).
  { unfold m2. rewrite on_admitted by done.
    unfold distinctHandlers; simpl. rewrite emitter_on_insert.
    pose proof (fold_sum_insert (λ hs : list nat, length hs)
      (emitter (on event handler m)) event
      (set_add handler (default [] (emitter (on event handler m) !! event)))) as Hs.
    rewrite Hl in Hs. simpl in Hs. rewrite set_add_idem in Hs.
    pose proof (distinctHandlers_on m event handler) as Hd1.
    unfold distinctHandlers in Hd1.
    rewrite Hl. simpl. rewrite set_add_idem. lia. }
  split_and!; try done.
  - rewrite He2, He1. apply invocations_set.
    + by apply set_add_NoDup, sets_wf_handlers.
    + apply set_add_elem.
  - lia.
  - intros other Hcap. unfold emit.
    by destruct (on_dropped m2 event other ltac:(lia)) as (-> & _).
Qed.

(** Registering one handler twice on the fresh event manager. *)
Lemma duplicate_handler_counted_twice_witness :
  sets_wf init
  ∧ currentCount CONNECT init + 1 < maxListenersPerEvent
  ∧ invocations 7 (emit CONNECT (on CONNECT 7 (on CONNECT 7 init))) = 1
  ∧ totalListeners (getResourceStats (on CONNECT 7 (on CONNECT 7 init))) = 2
  ∧ distinctHandlers (on CONNECT 7 (on CONNECT 7 init)) < 2.
Proof.
  assert (Hlt : currentCount CONNECT init + 1 < maxListenersPerEvent)
    by (vm_compute; lia).
  destruct (duplicate_handler_counted_twice init CONNECT 7 sets_wf_init Hlt)
    as (Hi & _ & _ & Ht & _ & Hd & _).
  split_and!; [apply sets_wf_init|exact Hlt|exact Hi|exact Ht|].
  apply Hd. vm_compute. lia.
Defined.

End EventBusFacts.

(** ** Channel manager *)

Section ChannelFacts.
Import Js Channels.

Lemma heap_update_channel c f st i :
  heap (update_channel c f st) !! i
  = if decide (i = c) then f <$> heap st !! c else heap st !! i.
Proof.
  unfold update_channel; simpl.
  destruct (heap st !! c) as [obj|] eqn:E.
  - case_decide as Hi.
    + subst. simpl. apply list_lookup_insert_eq. by eapply lookup_lt_Some.
    + by apply list_lookup_insert_ne.
  - case_decide; by subst.
Qed.

Lemma heap_update_channel_length c f st :
  length (heap (update_channel c f st)) = length (heap st).
Proof.
  unfold update_channel; simpl.
  destruct (heap st !! c); [apply length_insert|done].
Qed.

(** The invariant only reads the three maps and the heap. *)
Lemma Inv_ext st st' :
  channels st' = channels st → channelStates st' = channelStates st →
  messageListeners st' = messageListeners st → heap st' = heap st →
  Inv st → Inv st'.
Proof.
  intros Hc Hs Hl Hh [].
  split; unfold listeners in *; rewrite ?Hc, ?Hs, ?Hl, ?Hh; done.
Qed.

Lemma Inv_emit event tp st : Inv st → Inv (emit event tp st).
Proof. by apply Inv_ext. Qed.

Lemma Inv_warn line st : Inv st → Inv (warn line st).
Proof. by apply Inv_ext. Qed.

Lemma Inv_call cb st : Inv st → Inv (call cb st).
Proof. by apply Inv_ext. Qed.

Lemma Inv_tick dt st : Inv st → Inv (tick dt st).
Proof. by apply Inv_ext. Qed.

Lemma Inv_setSocket sock st : Inv st → Inv (setSocket sock st).
Proof. by apply Inv_ext. Qed.

Lemma Inv_init sock : Inv (init sock).
Proof.
  split; unfold init, listeners; simpl.
  - rewrite map_size_empty. unfold maxChannels. lia.
  - intros tp c. by rewrite lookup_empty.
  - intros c obj. by rewrite lookup_nil.
  - intros c obj. by rewrite lookup_nil.
  - intros tp c. by rewrite lookup_empty.
  - intros tp _. by rewrite lookup_empty.
  - intros tp event. rewrite lookup_empty. simpl. rewrite lookup_empty. apply NoDup_nil_2.
Qed.

(** [ChannelState] entries are only ever added. *)
Lemma Inv_states_insert tp state st :
  Inv st → Inv (with_channelStates (λ states, <[tp := state]> states) st).
Proof.
  intros []. split; try done. simpl. intros tp' c Hc.
  rewrite lookup_insert. case_decide; [by eexists|by eapply inv_states0].
Qed.

Lemma Inv_updateChannelState tp updates st :
  Inv st → Inv (updateChannelState tp updates st).
Proof. apply Inv_states_insert. Qed.

Lemma Inv_incrementMessageCount tp st :
  Inv st → Inv (incrementMessageCount tp st).
Proof.
  unfold incrementMessageCount. destruct (channelStates st !! tp); [|done].
  apply Inv_states_insert.
Qed.

(** A request recorded on a channel object that leaves its topic, its
    bindings, its handlers and its leave count alone. *)
Lemma Inv_update_frame c f st :
  (∀ o, ch_topic (f o) = ch_topic o ∧ ch_leaves (f o) = ch_leaves o
        ∧ ch_bindings (f o) = ch_bindings o
        ∧ ch_managerHandlers (f o) = ch_managerHandlers o
        ∧ ch_errorHandlers (f o) = ch_errorHandlers o
        ∧ ch_closeHandlers (f o) = ch_closeHandlers o) →
  Inv st → Inv (update_channel c f st).
Proof.
  intros Hf []. split; try done.
  - intros tp c' Hc. destruct (inv_ref0 tp c' Hc) as (obj & Ho & Ht & Hl & Hb).
    rewrite heap_update_channel. case_decide.
    + subst. rewrite Ho. simpl. exists (f obj).
      destruct (Hf obj) as (-> & -> & Hbs & _). split_and!; try done.
      intros e. unfold bound. rewrite Hbs. apply Hb.
    + by exists obj.
  - intros c' obj. rewrite heap_update_channel. case_decide.
    + subst. destruct (heap st !! c) as [o|] eqn:Ho; [|done]. simpl.
      intros [= <-]. destruct (Hf o) as (-> & -> & _). apply (inv_live0 _ _ Ho).
    + apply inv_live0.
  - intros c' obj. rewrite heap_update_channel. case_decide.
    + subst. destruct (heap st !! c) as [o|] eqn:Ho; [|done]. simpl.
      intros [= <-]. destruct (Hf o) as (_ & _ & _ & -> & -> & ->).
      apply (inv_handlers0 _ _ Ho).
    + apply inv_handlers0.
Qed.

Lemma Inv_channel_join c st : Inv st → Inv (channel_join c st).
Proof. by apply Inv_update_frame. Qed.

Lemma Inv_channel_push c event payload st : Inv st → Inv (channel_push c event payload st).
Proof. by apply Inv_update_frame. Qed.

Lemma Inv_transport_state c s st : Inv st → Inv (transport_state c s st).
Proof. by apply Inv_update_frame. Qed.

Lemma Inv_setupChannelHandlers tp c options st :
  Inv st → Inv (setupChannelHandlers tp c options st).
Proof.
  intros HI. unfold setupChannelHandlers.
  destruct (heap st !! c) as [obj|] eqn:Ho; [|done].
  destruct (ch_managerHandlers obj) eqn:Hflag; [done|].
  destruct HI. split; try done.
  - intros tp' c' Hc. destruct (inv_ref0 tp' c' Hc) as (obj' & Ho' & Ht & Hl & Hb).
    rewrite heap_update_channel. case_decide.
    + subst. rewrite Ho'. simpl. eexists. split; [done|]. by simpl.
    + by exists obj'.
  - intros c' obj'. rewrite heap_update_channel. case_decide.
    + subst. rewrite Ho. simpl. intros [= <-]. simpl. apply (inv_live0 _ _ Ho).
    + apply inv_live0.
  - intros c' obj'. rewrite heap_update_channel. case_decide.
    + subst. rewrite Ho. simpl. intros [= <-]. simpl.
      destruct (inv_handlers0 c obj Ho) as [He Hcl]. rewrite Hflag in *.
      rewrite !length_app, He, Hcl. done.
    + apply inv_handlers0.
Qed.


Lemma Inv_alloc tp ps st :
  Inv st → channels st !! tp = None → is_Some (channelStates st !! tp) →
  size (channels st) < maxChannels →
  Inv (with_channels (λ chans, <[tp := length (heap st)]> chans)
         (with_heap (λ h, h ++ [new_channel tp ps]) st)).
Proof.
  intros [] Hnone Hstate Hlt. split; simpl.
  - rewrite map_size_insert, Hnone. simpl. lia.
  - intros tp' c'. rewrite lookup_insert. case_decide as Htp.
    + intros [= <-]. subst tp'. exists (new_channel tp ps).
      split; [by apply list_lookup_middle|]. split_and!; try done.
      intros event. unfold listeners; simpl. by rewrite (inv_nolisten0 tp Hnone).
    + intros Hc. destruct (inv_ref0 tp' c' Hc) as (obj & Ho & Hrest).
      exists obj. split; [|done]. by apply lookup_app_l_Some.
  - intros c obj [[Hlen Ho]|[-> <-]]%lookup_snoc_Some Hl.
    + pose proof (inv_live0 c obj Ho Hl) as Hc.
      rewrite lookup_insert. case_decide as Htp; [|done].
      rewrite Htp in Hnone. congruence.
    + simpl. by rewrite lookup_insert_eq.
  - intros c obj [[Hlen Ho]|[-> <-]]%lookup_snoc_Some; [by eapply inv_handlers0|done].
  - intros tp' c'. rewrite lookup_insert. case_decide as Htp; [by subst|].
    apply inv_states0.
  - intros tp'. rewrite lookup_insert. case_decide as Htp; [done|]. apply inv_nolisten0.
  - apply inv_nodup0.
Qed.

Lemma Inv_joinChannel_try tp options st :
  Inv st → size (channels st) < maxChannels →
  Inv (joinChannel_try tp options (channels st !! tp) st).1.
Proof.
  intros HI Hlt. unfold joinChannel_try.
  set (st1 := updateChannelState tp _ st).
  assert (HI1 : Inv st1) by by apply Inv_updateChannelState.
  assert (Hst : is_Some (channelStates st1 !! tp)).
  { unfold st1, updateChannelState; simpl. rewrite lookup_insert_eq. by eexists. }
  destruct (channels st !! tp) as [c|] eqn:Hc; simpl.
  - apply Inv_channel_join, Inv_setupChannelHandlers.
    eapply Inv_ext; [..|exact HI1]; try done. simpl. by apply insert_id.
  - apply Inv_channel_join, Inv_setupChannelHandlers.
    by apply (Inv_alloc tp _ st1).
Qed.

Lemma Inv_joinChannel tp options st : Inv st → Inv (joinChannel tp options st).1.
Proof.
  intros HI. unfold joinChannel. destruct (socket st); [|done].
  case_decide as Hcap; [done|].
  pose proof (Inv_joinChannel_try tp options st HI ltac:(lia)) as Htry.
  destruct (channels st !! tp) as [c|] eqn:Hc; [|done].
  by destruct (is_joined c st).
Qed.

Lemma Inv_joinChannel_settle tp c options ack st :
  Inv st → Inv (joinChannel_settle tp c options ack st).1.
Proof.
  intros HI. destruct ack; simpl;
    repeat first [apply Inv_emit | apply Inv_call | apply Inv_updateChannelState]; done.
Qed.

Lemma Inv_leaveChannel tp st : Inv st → Inv (leaveChannel tp st).
Proof.
  intros HI. unfold leaveChannel. destruct (channels st !! tp) as [c|] eqn:Hc; [|done].
  apply Inv_emit, Inv_updateChannelState.
  destruct HI. destruct (inv_ref0 tp c Hc) as (obj & Ho & Ht & Hl & Hb).
  set (st1 := channel_leave c st).
  assert (Hne : ∀ i, i ≠ c → heap st1 !! i = heap st !! i).
  { intros i Hi. unfold st1, channel_leave. rewrite heap_update_channel.
    by case_decide. }
  assert (Heq : ∃ obj', heap st1 !! c = Some obj' ∧ ch_leaves obj' = S (ch_leaves obj)
            ∧ ch_managerHandlers obj' = ch_managerHandlers obj
            ∧ ch_errorHandlers obj' = ch_errorHandlers obj
            ∧ ch_closeHandlers obj' = ch_closeHandlers obj).
  { unfold st1, channel_leave. rewrite heap_update_channel.
    case_decide; [|done]. rewrite Ho. simpl. by eexists. }
  assert (Hc1 : channels st1 = channels st) by done.
  assert (Hs1 : channelStates st1 = channelStates st) by done.
  assert (Hl1 : messageListeners st1 = messageListeners st) by done.
  clearbody st1. destruct Heq as (obj1 & Ho1 & Hleft & Hflag & Herr & Hclose).
  split; simpl; rewrite ?Hc1, ?Hs1, ?Hl1.
  - rewrite map_size_delete, Hc. simpl. lia.
  - intros tp' c'. rewrite lookup_delete. case_decide as Htp; [done|]. intros Hc'.
    destruct (inv_ref0 tp' c' Hc') as (obj' & Ho' & Ht' & Hl' & Hb').
    assert (c' ≠ c) by (intros ->; congruence).
    exists obj'. rewrite Hne by done. split_and!; try done.
    intros event. rewrite Hb'. unfold listeners; simpl.
    by rewrite Hl1, lookup_delete_ne.
  - intros c' obj'. destruct (decide (c' = c)) as [->|Hcc].
    + rewrite Ho1. intros [= <-]. lia.
    + rewrite Hne by done. intros Ho' Hl'.
      pose proof (inv_live0 c' obj' Ho' Hl') as Hlive.
      rewrite lookup_delete. case_decide as Htp; [|done].
      rewrite <- Htp in Hlive. congruence.
  - intros c' obj'. destruct (decide (c' = c)) as [->|Hcc].
    + rewrite Ho1. intros [= <-]. rewrite Hflag, Herr, Hclose.
      by apply (inv_handlers0 c obj).
    + rewrite Hne by done. apply inv_handlers0.
  - intros tp' c'. rewrite lookup_delete. case_decide; [done|]. apply inv_states0.
  - intros tp'. rewrite !lookup_delete. case_decide; [done|]. apply inv_nolisten0.
  - intros tp' event. unfold listeners; simpl. rewrite Hl1, lookup_delete.
    case_decide; [|apply inv_nodup0]. simpl. rewrite lookup_empty. apply NoDup_nil_2.
Qed.

Lemma channels_leaveChannel tp st :
  channels (leaveChannel tp st) = delete tp (channels st).
Proof.
  unfold leaveChannel. destruct (channels st !! tp) eqn:E; [done|].
  symmetry. by apply delete_id.
Qed.

Lemma heap_leaveChannel_length tp st :
  length (heap (leaveChannel tp st)) = length (heap st).
Proof.
  unfold leaveChannel. destruct (channels st !! tp) eqn:E; [|done].
  simpl. fold (heap (channel_leave n st)). apply heap_update_channel_length.
Qed.

Lemma Inv_cleanup st : Inv st → Inv (cleanup st).
Proof.
  intros HI. unfold cleanup.
  set (topics := (map_to_list (channels st)).*1).
  assert (HI1 : Inv (foldr leaveChannel st topics)).
  { induction topics as [|tp l IH]; [done|]. simpl. by apply Inv_leaveChannel. }
  assert (Hch : channels (foldr leaveChannel st topics) = ∅).
  { assert (Hf : ∀ l, channels (foldr leaveChannel st l) = foldr delete (channels st) l).
    { induction l as [|tp l IH]; [done|]. simpl. by rewrite channels_leaveChannel, IH. }
    rewrite Hf. apply map_eq. intros tp. rewrite lookup_empty.
    destruct (channels st !! tp) as [c|] eqn:Hc.
    - apply lookup_foldr_delete. apply list_elem_of_fmap. exists (tp, c).
      split; [done|]. by apply elem_of_map_to_list.
    - destruct (decide (tp ∈ topics)).
      + by apply lookup_foldr_delete.
      + by rewrite lookup_foldr_delete_not_elem_of. }
  destruct HI1. split; simpl; unfold listeners; simpl.
  - rewrite map_size_empty. lia.
  - intros tp c. by rewrite lookup_empty.
  - intros c obj Ho Hl. pose proof (inv_live0 c obj Ho Hl) as Hlive.
    rewrite Hch, lookup_empty in Hlive. done.
  - apply inv_handlers0.
  - intros tp c. by rewrite lookup_empty.
  - intros tp _. by rewrite lookup_empty.
  - intros tp event. rewrite lookup_empty. simpl. rewrite lookup_empty. apply NoDup_nil_2.
Qed.


Lemma listeners_insert tp event (ls : list nat) st tp' event' :
  listeners tp' event'
    (with_messageListeners
       (λ m, <[tp := <[event := ls]> (default ∅ (messageListeners st !! tp))]> m) st)
  = if decide (tp' = tp ∧ event' = event) then ls else listeners tp' event' st.
Proof.
  unfold listeners; simpl. rewrite lookup_insert. case_decide as Htp.
  - subst tp'. simpl. rewrite lookup_insert. case_decide as Hev.
    + subst. by rewrite decide_True.
    + rewrite decide_False; [done|]. by intros [_ ->].
  - rewrite decide_False; [done|]. by intros [-> _].
Qed.

Lemma bound_on event callback event' o :
  bound event' (set_bindings (ch_bindings o ++ [(event, callback)]) o)
  = bound event' o ++ (if decide (event' = event) then [callback] else []).
Proof.
  unfold bound; simpl. rewrite filter_app, fmap_app. f_equal.
  rewrite filter_cons. simpl. case_decide; case_decide; try congruence; by subst.
Qed.

Lemma bound_off event callback event' o :
  bound event' (set_bindings
     (filter (λ b, ¬ (b.1 = event ∧ b.2 = callback)) (ch_bindings o)) o)
  = if decide (event' = event) then set_delete callback (bound event' o)
    else bound event' o.
Proof.
  unfold bound, set_delete; simpl.
  induction (ch_bindings o) as [|[e cb] bs IH]; simpl.
  - by case_decide.
  - rewrite !filter_cons. simpl.
    destruct (decide (event' = event)) as [H3|H3];
    destruct (decide (e = event')) as [H2|H2];
    destruct (decide (cb = callback)) as [H1|H1]; subst; simpl;
    repeat (case_decide; try tauto; try congruence; simpl; rewrite ?filter_cons; simpl);
    rewrite ?IH; try done; f_equal; exact IH.
Qed.

Lemma Inv_listeners_same st st' :
  channels st' = channels st → channelStates st' = channelStates st →
  heap st' = heap st →
  (∀ tp event, listeners tp event st' = listeners tp event st) →
  (∀ tp, channels st !! tp = None → messageListeners st' !! tp = None) →
  Inv st → Inv st'.
Proof.
  intros Hc Hs Hh Hl Hn []. split; rewrite ?Hc, ?Hs, ?Hh; try done.
  - intros tp c Hcc. destruct (inv_ref0 tp c Hcc) as (obj & ? & ? & ? & Hb).
    exists obj. split_and!; try done. intros e. by rewrite Hl.
  - intros tp e. by rewrite Hl.
Qed.

Lemma Inv_onMessage tp event callback st : Inv st → Inv (onMessage tp event callback st).
Proof.
  intros HI. unfold onMessage.
  destruct (channels st !! tp) as [c|] eqn:Hc; [|by apply Inv_warn].
  fold (listeners tp event st).
  assert (HI1 : Inv (with_messageListeners
     (λ ls, <[tp := <[event := listeners tp event st]>
                         (default ∅ (messageListeners st !! tp))]> ls) st)).
  { eapply Inv_listeners_same; [..|exact HI]; try done.
    - intros tp' e'. rewrite listeners_insert. case_decide as H; [|done].
      by destruct H as [-> ->].
    - intros tp' Hn. simpl. rewrite lookup_insert_ne; [|congruence].
      by apply (inv_nolisten _ HI). }
  case_decide; [by apply Inv_warn|].
  destruct (set_has callback (listeners tp event st)) eqn:Hhas; [done|].
  clear HI1.
  set (st2 := with_messageListeners _ st).
  assert (Hls : ∀ tp' e', listeners tp' e' st2
     = if decide (tp' = tp ∧ e' = event)
       then set_add callback (listeners tp event st) else listeners tp' e' st).
  { intros. apply listeners_insert. }
  assert (Hml : ∀ tp', tp' ≠ tp → messageListeners st2 !! tp' = messageListeners st !! tp').
  { intros tp' Hne. unfold st2; simpl. by rewrite lookup_insert_ne. }
  assert (Hc2 : channels st2 = channels st) by done.
  assert (Hs2 : channelStates st2 = channelStates st) by done.
  assert (Hh2 : heap st2 = heap st) by done.
  clearbody st2.
  set (st3 := channel_on c event callback st2).
  assert (Hls3 : ∀ tp' e', listeners tp' e' st3 = listeners tp' e' st2) by done.
  assert (Hml3 : messageListeners st3 = messageListeners st2) by done.
  assert (Hc3 : channels st3 = channels st2) by done.
  assert (Hs3 : channelStates st3 = channelStates st2) by done.
  assert (Hh3 : ∀ i, heap st3 !! i =
    if decide (i = c)
    then (λ o, set_bindings (ch_bindings o ++ [(event, callback)]) o) <$> heap st !! c
    else heap st !! i).
  { intros i. unfold st3, channel_on. rewrite heap_update_channel. by rewrite Hh2. }
  clearbody st3. destruct HI.
  destruct (inv_ref0 tp c Hc) as (obj & Ho & Ht & Hl & Hb).
  split; rewrite ?Hc3, ?Hs3, ?Hml3, ?Hc2, ?Hs2; try done.
  - intros tp' c' Hc'. rewrite Hh3. case_decide as Hcc.
    + subst c'. rewrite Ho. simpl. eexists. split; [done|]. simpl.
      assert (tp' = tp) as ->.
      { destruct (inv_ref0 tp' c Hc') as (obj' & Ho' & Ht' & _). congruence. }
      split_and!; try done. intros e'. rewrite bound_on, Hls3, Hls, Hb.
      destruct (decide (e' = event)) as [->|Hne].
      * rewrite decide_True by done. rewrite set_add_absent; [done|].
        intros Hin%set_has_true. congruence.
      * rewrite decide_False by tauto. by rewrite app_nil_r.
    + destruct (inv_ref0 tp' c' Hc') as (obj' & Ho' & Ht' & Hl' & Hb').
      exists obj'. split_and!; try done. intros e'. rewrite Hls3, Hls.
      rewrite decide_False; [done|]. intros [-> _]. congruence.
  - intros c' obj'. rewrite Hh3. case_decide as Hcc.
    + subst c'. rewrite Ho. simpl. intros [= <-]. simpl. by apply inv_live0.
    + apply inv_live0.
  - intros c' obj'. rewrite Hh3. case_decide as Hcc.
    + subst c'. rewrite Ho. simpl. intros [= <-]. simpl. by apply (inv_handlers0 c).
    + apply inv_handlers0.
  - intros tp' Hn. rewrite Hml by congruence. by apply inv_nolisten0.
  - intros tp' e'. rewrite Hls3, Hls. case_decide; [|done]. by apply set_add_NoDup.
Qed.


Lemma listeners_offMessage tp event (el : list nat) (tl : gmap string (list nat)) st st1 tp' event' :
  messageListeners st !! tp = Some tl →
  messageListeners st1 = messageListeners st →
  listeners tp' event'
    (with_messageListeners
       (λ ls,
          if bool_decide (size (if bool_decide (length el = 0) then delete event tl
                                else <[event := el]> tl) = 0)
          then delete tp ls
          else <[tp := if bool_decide (length el = 0) then delete event tl
                       else <[event := el]> tl]> ls) st1)
  = if decide (tp' = tp ∧ event' = event) then el else listeners tp' event' st.
Proof.
  intros Htl Hml. unfold listeners; simpl. rewrite Hml.
  set (tl' := if bool_decide (length el = 0) then delete event tl else <[event := el]> tl).
  assert (Htl' : ∀ e, default [] (tl' !! e)
                      = if decide (e = event) then el else default [] (tl !! e)).
  { intros e. unfold tl'. destruct (decide (e = event)) as [->|He].
    - case_bool_decide as Hlen.
      + rewrite lookup_delete_eq. simpl. symmetry. by apply nil_length_inv.
      + by rewrite lookup_insert_eq.
    - case_bool_decide; by rewrite ?lookup_delete_ne, ?lookup_insert_ne. }
  destruct (decide (tp' = tp)) as [->|Hne].
  - rewrite Htl. simpl. case_bool_decide as Hsz.
    + rewrite lookup_delete_eq. simpl. rewrite lookup_empty. simpl.
      apply map_size_empty_iff in Hsz. specialize (Htl' event').
      rewrite Hsz, lookup_empty in Htl'. simpl in Htl'.
      destruct (decide (event' = event)) as [->|He].
      * by rewrite decide_True.
      * by rewrite decide_False by tauto.
    + rewrite lookup_insert_eq. simpl. rewrite Htl'.
      destruct (decide (event' = event)) as [->|He].
      * by rewrite decide_True.
      * by rewrite decide_False by tauto.
  - rewrite decide_False by tauto.
    case_bool_decide; by rewrite ?lookup_delete_ne, ?lookup_insert_ne.
Qed.

Lemma Inv_offMessage tp event callback st : Inv st → Inv (offMessage tp event callback st).
Proof.
  intros HI. unfold offMessage.
  destruct (messageListeners st !! tp) as [tl|] eqn:Htl; [|done].
  destruct (tl !! event) as [el|] eqn:Hel; [|done].
  destruct (channels st !! tp) as [c|] eqn:Hc.
  2: { apply (inv_nolisten _ HI) in Hc. congruence. }
  assert (Hlis : listeners tp event st = el).
  { unfold listeners. by rewrite Htl; simpl; rewrite Hel. }
  set (st1 := channel_off c event callback st).
  assert (Hml1 : messageListeners st1 = messageListeners st) by done.
  assert (Hc1 : channels st1 = channels st) by done.
  assert (Hs1 : channelStates st1 = channelStates st) by done.
  assert (Hh1 : ∀ i, heap st1 !! i =
    if decide (i = c)
    then (λ o, set_bindings
            (filter (λ b, ¬ (b.1 = event ∧ b.2 = callback)) (ch_bindings o)) o)
           <$> heap st !! c
    else heap st !! i).
  { intros i. unfold st1, channel_off. by rewrite heap_update_channel. }
  pose proof (λ tp' e', listeners_offMessage tp event (set_delete callback el)
                tl st st1 tp' e' Htl Hml1) as Hls.
  set (st2 := with_messageListeners _ st1) in *.
  assert (Hml2 : ∀ tp', tp' ≠ tp → messageListeners st2 !! tp' = messageListeners st !! tp').
  { intros tp' Hne. unfold st2; simpl. rewrite ?Hml1.
    case_bool_decide; by rewrite ?lookup_delete_ne, ?lookup_insert_ne. }
  assert (Hc2 : channels st2 = channels st) by done.
  assert (Hs2 : channelStates st2 = channelStates st) by done.
  assert (Hh2 : heap st2 = heap st1) by done.
  clearbody st2. clearbody st1. destruct HI.
  destruct (inv_ref0 tp c Hc) as (obj & Ho & Ht & Hl & Hb).
  split; rewrite ?Hc2, ?Hs2, ?Hh2; try done.
  - intros tp' c' Hc'. rewrite Hh1. case_decide as Hcc.
    + subst c'. rewrite Ho. simpl. eexists. split; [done|]. simpl.
      assert (tp' = tp) as ->.
      { destruct (inv_ref0 tp' c Hc') as (obj' & Ho' & Ht' & _). congruence. }
      split_and!; try done. intros e'. rewrite bound_off, Hls, Hb.
      destruct (decide (e' = event)) as [->|Hne].
      * rewrite decide_True by done. by rewrite Hlis.
      * by rewrite decide_False by tauto.
    + destruct (inv_ref0 tp' c' Hc') as (obj' & Ho' & Ht' & Hl' & Hb').
      exists obj'. split_and!; try done. intros e'. rewrite Hls.
      rewrite decide_False; [done|]. intros [-> _]. congruence.
  - intros c' obj'. rewrite Hh1. case_decide as Hcc.
    + subst c'. rewrite Ho. simpl. intros [= <-]. simpl. by apply inv_live0.
    + apply inv_live0.
  - intros c' obj'. rewrite Hh1. case_decide as Hcc.
    + subst c'. rewrite Ho. simpl. intros [= <-]. simpl. by apply (inv_handlers0 c).
    + apply inv_handlers0.
  - intros tp' Hn. rewrite Hml2 by congruence. by apply inv_nolisten0.
  - intros tp' e'. rewrite Hls. case_decide; [|done].
    unfold set_delete. apply NoDup_filter. rewrite <- Hlis. apply inv_nodup0.
Qed.

Lemma Inv_channel_error c reason st : Inv st → Inv (channel_error c reason st).
Proof.
  unfold channel_error. generalize (from_option ch_errorHandlers [] (heap st !! c)).
  intros hs. revert st. induction hs as [|h hs IH]; intros st HI; [done|].
  simpl. apply IH. unfold error_handler.
  by apply Inv_emit, Inv_call, Inv_updateChannelState.
Qed.

Lemma Inv_channel_close c st : Inv st → Inv (channel_close c st).
Proof.
  unfold channel_close. generalize (from_option ch_closeHandlers [] (heap st !! c)).
  intros hs. revert st. induction hs as [|h hs IH]; intros st HI; [done|].
  simpl. apply IH. unfold close_handler.
  by apply Inv_emit, Inv_call, Inv_updateChannelState.
Qed.

Lemma Inv_step op st : Inv st → Inv (step st op).
Proof.
  intros HI. destruct op; simpl.
  - by apply Inv_setSocket.
  - by apply Inv_joinChannel.
  - by apply Inv_joinChannel_settle.
  - by apply Inv_leaveChannel.
  - unfold sendMessage. destruct (channels st !! tp); [|done].
    by apply Inv_channel_push.
  - destruct ack; simpl; [by apply Inv_incrementMessageCount|done..].
  - by apply Inv_onMessage.
  - by apply Inv_offMessage.
  - by apply Inv_cleanup.
  - by apply Inv_channel_error.
  - by apply Inv_channel_close.
  - by apply Inv_transport_state.
  - by apply Inv_tick.
Qed.

Lemma Inv_run ops st : Inv st → Inv (run ops st).
Proof.
  revert st. induction ops as [|op ops IH]; intros st HI; [done|].
  simpl. by apply IH, Inv_step.
Qed.

Lemma reachable_Inv st : reachable st → Inv st.
Proof. intros (sock & ops & ->). apply Inv_run, Inv_init. Qed.


Lemma reachable_step op st : reachable st → reachable (step st op).
Proof.
  intros (sock & ops & ->). exists sock, (ops ++ [op]).
  unfold run. by rewrite foldl_app.
Qed.




(** *** The capacity check of [joinChannel] *)

Lemma joinChannel_at_cap tp options st :
  maxChannels ≤ getChannelCount st →
  joinChannel tp options st
  = (st, JoinRejected match socket st with
                      | Some _ => MAX_CHANNELS_EXCEEDED
                      | None => SOCKET_NOT_CONNECTED
                      end).
Proof.
  unfold getChannelCount, joinChannel. intros Hcap.
  destruct (socket st); [|done]. by rewrite decide_True.
Qed.

(** C4, as the code has it. After any sequence of operations the number of
    channels is at most [maxChannels] = 50, and a [joinChannel] call made
    when the count has reached the cap is rejected and leaves the manager as
    it was (no channel is created): with the capacity error when the manager
    holds a socket, with the socket-not-connected error, which is checked
    first, when it holds none. *)
Theorem channel_count_never_exceeds_cap ops sock :
  let st := run ops (init sock) in
  getChannelCount st ≤ maxChannels
  ∧ ∀ tp options, maxChannels ≤ getChannelCount st →
      joinChannel tp options st
      = (st, JoinRejected match socket st with
                          | Some _ => MAX_CHANNELS_EXCEEDED
                          | None => SOCKET_NOT_CONNECTED
                          end).
Proof.
  intros st. split.
  - apply (inv_cap st). apply Inv_run, Inv_init.
  - intros tp options. apply joinChannel_at_cap.
Qed.

(** Fifty acknowledged joins on a connected manager: the fifty-first is
    refused with the capacity error and nothing changes. *)
Lemma channel_count_never_exceeds_cap_witness :
  let st := run (joinedTopics 50) (init (Some 0)) in
  maxChannels ≤ getChannelCount st
  ∧ getChannelCount st ≤ maxChannels
  ∧ joinChannel (topicN 50) no_options st = (st, JoinRejected MAX_CHANNELS_EXCEEDED).
Proof.
  intros st.
  assert (Hcap : maxChannels ≤ getChannelCount st) by (vm_compute; lia).
  destruct (channel_count_never_exceeds_cap (joinedTopics 50) (Some 0)) as [Hle Hrej].
  split_and!; [exact Hcap|exact Hle|].
  exact (Hrej (topicN 50) no_options Hcap).
Defined.

(** The claim as stated fails: with fifty channels open and the socket
    reference dropped by [setSocket(null)], the call is rejected, but not
    with the capacity error. *)
Lemma capacity_error_counterexample :
  let st := run (joinedTopics 50 ++ [SetSocket None]) (init (Some 0)) in
  reachable st
  ∧ getChannelCount st = maxChannels
  ∧ (joinChannel (topicN 50) no_options st).2 = JoinRejected SOCKET_NOT_CONNECTED
  ∧ (joinChannel (topicN 50) no_options st).2 ≠ JoinRejected MAX_CHANNELS_EXCEEDED.
Proof.
  intros st. split_and!.
  - by exists (Some 0), (joinedTopics 50 ++ [SetSocket None]).
  - by vm_compute.
  - by vm_compute.
  - by vm_compute.
Qed.


(** *** Joining a topic twice *)

Lemma is_joined_update_channel c f st i :
  (∀ o, ch_state (f o) = ch_state o) →
  is_joined i (update_channel c f st) = is_joined i st.
Proof.
  intros Hf. unfold is_joined. rewrite heap_update_channel.
  case_decide; [|done]. subst. destruct (heap st !! c); simpl; [|done].
  by rewrite Hf.
Qed.

Lemma is_joined_setupChannelHandlers tp c options st i :
  is_joined i (setupChannelHandlers tp c options st) = is_joined i st.
Proof.
  unfold setupChannelHandlers. destruct (heap st !! c) as [obj|]; [|done].
  destruct (ch_managerHandlers obj); [done|]. by apply is_joined_update_channel.
Qed.

Lemma heap_setupChannelHandlers_length tp c options st :
  length (heap (setupChannelHandlers tp c options st)) = length (heap st).
Proof.
  unfold setupChannelHandlers. destruct (heap st !! c) as [obj|]; [|done].
  destruct (ch_managerHandlers obj); [done|]. apply heap_update_channel_length.
Qed.

Lemma update_channel_frame c f st :
  socket (update_channel c f st) = socket st
  ∧ channels (update_channel c f st) = channels st.
Proof. done. Qed.

Lemma setupChannelHandlers_frame tp c options st :
  socket (setupChannelHandlers tp c options st) = socket st
  ∧ channels (setupChannelHandlers tp c options st) = channels st.
Proof.
  unfold setupChannelHandlers. destruct (heap st !! c) as [obj|]; [|done].
  by destruct (ch_managerHandlers obj).
Qed.

Lemma joinChannel_try_existing tp options c st :
  channels st !! tp = Some c →
  let r := joinChannel_try tp options (Some c) st in
  r.2 = JoinPending c ∧ socket r.1 = socket st ∧ channels r.1 = channels st
  ∧ length (heap r.1) = length (heap st) ∧ is_joined c r.1 = is_joined c st.
Proof.
  intros Hc. unfold joinChannel_try, channel_join.
  cbv beta iota zeta delta [fst snd]. split_and!.
  - done.
  - by rewrite (proj1 (update_channel_frame _ _ _)),
      (proj1 (setupChannelHandlers_frame _ _ _ _)).
  - rewrite (proj2 (update_channel_frame _ _ _)),
      (proj2 (setupChannelHandlers_frame _ _ _ _)). simpl. by apply insert_id.
  - by rewrite heap_update_channel_length, heap_setupChannelHandlers_length.
  - rewrite is_joined_update_channel by done.
    by rewrite is_joined_setupChannelHandlers.
Qed.

Lemma joinChannel_try_new tp options st :
  let r := joinChannel_try tp options None st in
  let c := length (heap st) in
  r.2 = JoinPending c ∧ socket r.1 = socket st
  ∧ channels r.1 = <[tp := c]> (channels st)
  ∧ length (heap r.1) = S (length (heap st)) ∧ is_joined c r.1 = false.
Proof.
  unfold joinChannel_try, socket_channel, channel_join.
  cbv beta iota zeta delta [fst snd]. split_and!.
  - done.
  - by rewrite (proj1 (update_channel_frame _ _ _)),
      (proj1 (setupChannelHandlers_frame _ _ _ _)).
  - by rewrite (proj2 (update_channel_frame _ _ _)),
      (proj2 (setupChannelHandlers_frame _ _ _ _)).
  - rewrite heap_update_channel_length, heap_setupChannelHandlers_length.
    simpl. rewrite length_app. simpl. lia.
  - rewrite is_joined_update_channel by done.
    rewrite is_joined_setupChannelHandlers. unfold is_joined; simpl.
    by rewrite list_lookup_middle.
Qed.

Lemma joinChannel_pending tp options st st1 c :
  joinChannel tp options st = (st1, JoinPending c) →
  is_Some (socket st1) ∧ channels st1 !! tp = Some c ∧ is_joined c st1 = false
  ∧ (channels st !! tp = None → length (heap st1) = S (length (heap st)))
  ∧ (is_Some (channels st !! tp) →
       channels st !! tp = Some c ∧ length (heap st1) = length (heap st)).
Proof.
  unfold joinChannel. destruct (socket st) as [sock|] eqn:Hs; [|done].
  case_decide; [done|].
  destruct (channels st !! tp) as [c0|] eqn:Hc.
  - destruct (is_joined c0 st) eqn:Hj; [done|].
    destruct (joinChannel_try_existing tp options c0 st Hc) as (H2 & Hsock & Hch & Hlen & Hjoin).
    destruct (joinChannel_try tp options (Some c0) st) as [r1 r2]. simpl in *.
    intros [= <- ->]. injection H2 as <-.
    rewrite Hsock, Hch, Hjoin. split_and!; try done; try by intros [? ?].
  - destruct (joinChannel_try_new tp options st) as (H2 & Hsock & Hch & Hlen & Hjoin).
    destruct (joinChannel_try tp options None st) as [r1 r2]. simpl in *.
    intros [= <- ->]. injection H2 as ->.
    rewrite Hsock, Hch, lookup_insert_eq. split_and!; try done; try by intros [? ?].
Qed.







(** *** [sendMessage] *)







(** *** [onMessage] *)


Lemma dispatch_listeners tp event c st :
  reachable st → channels st !! tp = Some c →
  dispatch c event st = listeners tp event st.
Proof.
  intros Hreach Hc.
  destruct (inv_ref _ (reachable_Inv _ Hreach) tp c Hc) as (obj & Ho & _ & _ & Hb).
  unfold dispatch. rewrite Ho. simpl. apply Hb.
Qed.




End ChannelFacts.

(** ** Connection manager *)

Section ConnectionFacts.
Import Js Connection.

Lemma startsWith_spec s sub :
  startsWith s sub = true ↔ ∃ post, s = sub +:+ post.
Proof.
  revert s. induction sub as [|c sub IH]; intros s; simpl.
  - split; [intros _; by exists s|done].
  - destruct s as [|d s]; simpl.
    + split; [done|]. by intros [post H].
    + rewrite andb_true_iff, bool_decide_eq_true, IH. split.
      * intros [-> [post ->]]. by exists post.
      * intros [post [= -> ->]]. split; [done|by exists post].
Qed.

Lemma includes_spec s sub :
  includes s sub = true ↔ ∃ pre post, s = pre +:+ sub +:+ post.
Proof.
  induction s as [|d s IH]; simpl.
  - rewrite orb_false_r, startsWith_spec. split.
    + intros [post ->]. by exists EmptyString, post.
    + intros [pre [post H]]. destruct pre; simpl in H; [by exists post|done].
  - rewrite orb_true_iff, startsWith_spec, IH. split.
    + intros [[post ->]|[pre [post ->]]].
      * by exists EmptyString, post.
      * by exists (String d pre), post.
    + intros [pre [post H]]. destruct pre as [|c pre]; simpl in H.
      * left. by exists post.
      * right. injection H as -> ->. by exists pre, post.
Qed.

(** *** What [updateState], [disconnect] and [updateConfig] leave alone *)

Lemma updateState_spec u st :
  connectionState (updateState u st) = apply_updates (connectionState st) u
  ∧ notified (updateState u st) = notified st ++ [apply_updates (connectionState st) u]
  ∧ socket (updateState u st) = socket st
  ∧ sockets (updateState u st) = sockets st
  ∧ connectionParams (updateState u st) = connectionParams st
  ∧ config (updateState u st) = config st
  ∧ timers (updateState u st) = timers st
  ∧ emitted (updateState u st) = emitted st
  ∧ lastReconnectTime (updateState u st) = lastReconnectTime st.
Proof. done. Qed.

Lemma update_socket_frame s f st :
  socket (update_socket s f st) = socket st
  ∧ connectionState (update_socket s f st) = connectionState st
  ∧ connectionParams (update_socket s f st) = connectionParams st
  ∧ config (update_socket s f st) = config st
  ∧ timers (update_socket s f st) = timers st
  ∧ emitted (update_socket s f st) = emitted st
  ∧ notified (update_socket s f st) = notified st
  ∧ clock (update_socket s f st) = clock st
  ∧ lastReconnectTime (update_socket s f st) = lastReconnectTime st
  ∧ length (sockets (update_socket s f st)) = length (sockets st).
Proof.
  unfold update_socket. destruct (sockets st !! s); simpl; split_and!; try done.
  apply length_insert.
Qed.

Lemma sockets_update_socket s f st i :
  sockets (update_socket s f st) !! i
  = if decide (i = s) then f <$> sockets st !! s else sockets st !! i.
Proof.
  unfold update_socket. destruct (sockets st !! s) as [obj|] eqn:E; simpl.
  - case_decide as Hi.
    + subst. simpl. apply list_lookup_insert_eq. by eapply lookup_lt_Some.
    + by apply list_lookup_insert_ne.
  - case_decide; by subst.
Qed.

Lemma disconnect_spec reason st :
  socket (disconnect reason st) = None
  ∧ connectionParams (disconnect reason st) = connectionParams st
  ∧ config (disconnect reason st) = config st
  ∧ timers (disconnect reason st) = timers st
  ∧ emitted (disconnect reason st) = emitted st
  ∧ lastReconnectTime (disconnect reason st) = lastReconnectTime st
  ∧ reconnectAttempts (connectionState (disconnect reason st))
    = reconnectAttempts (connectionState st)
  ∧ length (sockets (disconnect reason st)) = length (sockets st)
  ∧ (socket st = None → disconnect reason st = st)
  ∧ (∀ s, socket st = Some s →
       status (connectionState (disconnect reason st)) = disconnected
       ∧ notified (disconnect reason st)
         = notified st ++ [connectionState (disconnect reason st)]
       ∧ (s_disconnects <$> sockets (disconnect reason st) !! s)
         = (λ o, s_disconnects o ++ [default "Client disconnect" (truthy reason)])
             <$> sockets st !! s).
Proof.
  unfold disconnect. destruct (socket st) as [s|] eqn:Hs.
  - set (f := λ o : Socket, _).
    destruct (update_socket_frame s f st)
      as (H1 & H2 & H3 & H4 & H5 & H6 & H7 & H8 & H9 & H10).
    pose proof (sockets_update_socket s f st s) as Hl.
    rewrite decide_True in Hl by done.
    simpl. rewrite H2, H3, H4, H5, H6, H7, H9, H10.
    split_and!; try done. intros s' [= <-]. split_and!; try done.
    rewrite Hl. unfold f. by destruct (sockets st !! s).
  - split_and!; try done.
Qed.


Lemma canConnect_status st :
  canConnect st = true
  ↔ status (connectionState st) = disconnected ∨ status (connectionState st) = error.
Proof.
  unfold canConnect. rewrite orb_true_iff, !bool_decide_eq_true. done.
Qed.

Lemma connect_guarded p st :
  canConnect st = false → connect p st = (st, ConnectResolved (socket st)).
Proof. intros H. unfold connect. by rewrite H. Qed.

Lemma connect_admitted p st :
  canConnect st = true → ∀ s, (connect p st).2 ≠ ConnectResolved s.
Proof.
  intros H s. unfold connect. rewrite H. simpl.
  destruct (buildSocketUrl _ _); [done|]. by destruct (ctorFailure _).
Qed.

(** *** The poll-status fault *)




(** *** [forceReconnect] *)




(** *** [connect] *)

Lemma saveConnectionParams_frame p st :
  socket (saveConnectionParams p st) = socket st
  ∧ connectionState (saveConnectionParams p st) = connectionState st
  ∧ connectionParams (saveConnectionParams p st) = connectionParams st
  ∧ sockets (saveConnectionParams p st) = sockets st
  ∧ emitted (saveConnectionParams p st) = emitted st.
Proof. unfold saveConnectionParams. by destruct (storageAvailable st). Qed.

Lemma connect_waiting p st st1 :
  connect p st = (st1, ConnectWaiting) →
  canConnect st = true
  ∧ status (connectionState st1) = connecting
  ∧ reconnectAttempts (connectionState st1) = reconnectAttempts (connectionState st)
  ∧ socket st1 = Some (length (sockets st))
  ∧ length (sockets st1) = S (length (sockets st))
  ∧ (∃ obj, sockets st1 !! length (sockets st) = Some obj
            ∧ s_connected obj = false ∧ s_handlers obj = true
            ∧ s_longPoll obj = useLongPoll (config st))
  ∧ is_Some (connectionParams st1).
Proof.
  unfold connect. destruct (canConnect st) eqn:Hcan; cbn [negb]; [|done].
  set (st0 := updateState _ st).
  destruct (buildSocketUrl _ st0) as [e|socketUrl]; [done|].
  destruct (ctorFailure st0) eqn:Hctor; [done|].
  intros [= <-].
  set (eff := mergeConnectionParams p st0).
  destruct (saveConnectionParams_frame eff
    (set_connectionParams (Some eff)
       (setupSocketHandlers (createSocket socketUrl (buildSocketParams eff st0) st0))))
    as (-> & -> & -> & -> & _).
  unfold setupSocketHandlers, createSocket. cbn [socket set_socket set_sockets
    set_connectionParams connectionState connectionParams sockets].
  set (f := λ o : Socket, _).
  set (stn := set_socket _ _).
  destruct (update_socket_frame (length (sockets st0)) f stn)
    as (U1 & U2 & _ & _ & _ & _ & _ & _ & _ & U10).
  pose proof (sockets_update_socket (length (sockets st0)) f stn (length (sockets st0))) as Hl.
  rewrite decide_True in Hl by done.
  rewrite U1, U2, U10.
  change (sockets st0) with (sockets st) in *.
  split_and!; try done.
  - unfold stn. simpl. rewrite length_app. simpl. lia.
  - rewrite Hl. unfold stn. simpl. rewrite list_lookup_middle by done. simpl.
    eexists. split; [done|]. by simpl.
Qed.




(** *** [waitForConnection] and the outcome of [connect] *)

Lemma checkConnection_settles events : ∀ fuel attempts elapsed st,
  attempts < maxAttempts → maxAttempts ≤ attempts + fuel →
  elapsed = (checkInterval * Z.of_nat attempts)%Z →
  ∃ st' r t, checkConnection fuel attempts elapsed events st = Some (st', r, t)
    ∧ (0 ≤ t ≤ 4950)%Z
    ∧ (r = WaitLimit ∨ (r = WaitConnected ∧ socket_isConnected st' = true)).
Proof.
  induction fuel as [|fuel IH]; intros attempts elapsed st Hlt Hfuel Hel; [lia|].
  simpl. set (st1 := foldl _ st (events attempts)).
  destruct (decide (maxAttempts ≤ S attempts)) as [Hmax|Hmax];
    unfold maxAttempts, checkInterval, waitTimeoutMs in *.
  - exists st1, WaitLimit, elapsed. split_and!; [done|lia|lia|by left].
  - destruct (socket_isConnected st1) eqn:Hconn.
    + exists st1, WaitConnected, elapsed. split_and!; [done|lia|lia|by right].
    + rewrite decide_False by lia. apply IH; lia.
Qed.

Lemma waitForConnection_settles events st :
  ∃ st' r t, waitForConnection events st = Some (st', r, t)
    ∧ (0 ≤ t ≤ 4950)%Z
    ∧ r ≠ WaitTimeout
    ∧ (r = WaitConnected → socket_isConnected st' = true).
Proof.
  unfold waitForConnection. destruct (socket st) as [s|].
  - destruct (checkConnection_settles events maxAttempts 0 0 st
                ltac:(unfold maxAttempts; lia) ltac:(lia) eq_refl)
      as (st' & r & t & Heq & Ht & Hr).
    exists st', r, t. split; [done|]. split; [done|]. split.
    + by destruct Hr as [->|[-> _]].
    + intros ->. by destruct Hr as [?|[_ ?]].
  - exists st, WaitNoSocket, 0%Z. split; [done|]. split; [lia|]. by split.
Qed.

Lemma handleConnectionError_spec e st :
  status (connectionState (handleConnectionError e st)) = error
  ∧ reconnectAttempts (connectionState (handleConnectionError e st))
    = S (reconnectAttempts (connectionState st))
  ∧ lastError (connectionState (handleConnectionError e st)) = Some e
  ∧ emitted (handleConnectionError e st) = emitted st ++ [(EventBus.ERROR, "connection")]
  ∧ socket (handleConnectionError e st) = socket st.
Proof. unfold handleConnectionError. simpl. split_and!; try done. f_equal. lia. Qed.

Lemma connect_rejected p st st' e :
  connect p st = (st', ConnectRejected e) →
  ∃ st0, st' = handleConnectionError e st0
         ∧ reconnectAttempts (connectionState st0) = reconnectAttempts (connectionState st).
Proof.
  unfold connect. destruct (canConnect st); cbn [negb]; [|done].
  set (st0 := updateState _ st).
  destruct (buildSocketUrl _ st0) as [e0|socketUrl].
  - intros [= <- <-]. by exists st0.
  - destruct (ctorFailure st0) as [e0|]; [|done].
    intros [= <- <-]. by exists st0.
Qed.

Lemma connect_run_total p events st : is_Some (connect_run p events st).
Proof.
  unfold connect_run. destruct (connect p st) as [st1 [s|e|]]; [by eexists..|].
  destruct (waitForConnection_settles events st1) as (st' & r & t & -> & _).
  by eexists.
Qed.

Lemma connect_run_rejected p events st st' e :
  connect_run p events st = Some (st', ConnectRejected e) →
  ∃ st0, st' = handleConnectionError e st0.
Proof.
  unfold connect_run. destruct (connect p st) as [st1 [s|e1|]] eqn:Hc.
  - done.
  - intros [= <- <-]. destruct (connect_rejected _ _ _ _ Hc) as (st0 & -> & _).
    by exists st0.
  - destruct (waitForConnection events st1) as [[[st2 r] t]|]; [|done].
    destruct r; simpl; [done|..]; intros [= <- <-]; by exists st2.
Qed.

(** The handlers of the transport and the invariant of a waiting call. *)
Lemma onOpen_spec st :
  status (connectionState (onOpen st)) = connected
  ∧ reconnectAttempts (connectionState (onOpen st)) = 0
  ∧ lastError (connectionState (onOpen st)) = None
  ∧ socket (onOpen st) = socket st ∧ sockets (onOpen st) = sockets st
  ∧ emitted (onOpen st)
    = emitted st ++ [(if bool_decide (status (connectionState st) = reconnecting)
                      then EventBus.RECONNECT else EventBus.CONNECT, "")].
Proof. done. Qed.

Lemma onClose_frame st :
  reconnectAttempts (connectionState (onClose st)) = reconnectAttempts (connectionState st)
  ∧ socket (onClose st) = socket st ∧ sockets (onClose st) = sockets st.
Proof.
  unfold onClose. case_bool_decide; [done|]. by case_bool_decide.
Qed.

Lemma handleSocketError_frame ev st :
  reconnectAttempts (connectionState (handleSocketError ev st))
  = reconnectAttempts (connectionState st)
  ∧ (socket (handleSocketError ev st) = None
     ∨ socket (handleSocketError ev st) = socket st)
  ∧ (∀ i, (s_connected <$> sockets (handleSocketError ev st) !! i)
          = (s_connected <$> sockets st !! i))
  ∧ (∀ i, (s_handlers <$> sockets (handleSocketError ev st) !! i)
          = (s_handlers <$> sockets st !! i)).
Proof.
  unfold handleSocketError. destruct (includes _ _).
  - unfold handlePollStatusError.
    set (st2 := updateConfig _ _).
    assert (Hfr : connectionState st2 = connectionState st ∧ sockets st2 = sockets st).
    { unfold st2, updateConfig, saveConfig. by destruct (storageAvailable _). }
    destruct Hfr as [Hcs Hss]. clearbody st2.
    set (st3 := updateState _ st2).
    destruct (disconnect_spec (Some "Poll status recovery") st3)
      as (D1 & _ & _ & _ & _ & _ & D7 & _ & D9 & D10).
    assert (Hheap : ∀ i,
      (s_connected <$> sockets (disconnect (Some "Poll status recovery") st3) !! i)
        = (s_connected <$> sockets st !! i)
      ∧ (s_handlers <$> sockets (disconnect (Some "Poll status recovery") st3) !! i)
        = (s_handlers <$> sockets st !! i)).
    { intros i. unfold disconnect. destruct (socket st3) as [s|]; simpl.
      - rewrite sockets_update_socket. change (sockets st3) with (sockets st2).
        rewrite Hss. case_decide; [|done]. subst. by destruct (sockets st !! s).
      - change (sockets st3) with (sockets st2). by rewrite Hss. }
    simpl. rewrite D7. simpl. rewrite Hcs. split_and!; try done.
    + by left.
    + intros i. apply Hheap.
    + intros i. apply Hheap.
  - case_bool_decide; simpl; split_and!; try done; by right.
Qed.

Lemma has_handlers_set_connected n s b st :
  has_handlers n (update_socket s (set_connected b) st) = has_handlers n st.
Proof.
  unfold has_handlers. rewrite sockets_update_socket. case_decide; [|done].
  subst. by destruct (sockets st !! s).
Qed.

Lemma connected_set_connected n s b st :
  from_option s_connected false (sockets (update_socket s (set_connected b) st) !! n) = true →
  n = s ∧ b = true ∨ n ≠ s ∧ from_option s_connected false (sockets st !! n) = true.
Proof.
  rewrite sockets_update_socket. case_decide as Hn; [|by right].
  subst. destruct (sockets st !! s); simpl; [|done]. intros ->. by left.
Qed.

Lemma attempt_inv_socket_event n ev st :
  attempt_inv n st → attempt_inv n (socket_event ev st).
Proof.
  intros [Hh Hinv]. unfold attempt_inv. destruct ev as [s|s|s e]; unfold socket_event.
  - set (st1 := update_socket s (set_connected true) st).
    destruct (update_socket_frame s (set_connected true) st) as (U1 & U2 & _).
    pose proof (has_handlers_set_connected n s true st) as Hhn.
    fold st1 in U1, U2, Hhn.
    destruct (has_handlers s st) eqn:Hs.
    + destruct (onOpen_spec st1) as (_ & Ha & _ & Hso & Hss & _).
      unfold has_handlers in *. rewrite Hso, Hss, Ha, U1. split; [congruence|].
      destruct Hinv as [?|[? _]]; [by left|by right].
    + rewrite U1, U2. split; [congruence|].
      destruct Hinv as [?|[Hso Hc]]; [by left|right]. split; [done|].
      intros [[-> _]|[_ Hconn]]%connected_set_connected; [congruence|by apply Hc].
  - set (st1 := update_socket s (set_connected false) st).
    destruct (update_socket_frame s (set_connected false) st) as (U1 & U2 & _).
    pose proof (has_handlers_set_connected n s false st) as Hhn.
    fold st1 in U1, U2, Hhn.
    assert (Hcn : from_option s_connected false (sockets st1 !! n) = true →
                  from_option s_connected false (sockets st !! n) = true).
    { by intros [[_ ?]|[_ ?]]%connected_set_connected. }
    destruct (has_handlers s st) eqn:Hs.
    + destruct (onClose_frame st1) as (Ha & Hso & Hss).
      unfold has_handlers in *. rewrite Hso, Hss, Ha, U1, U2. split; [congruence|].
      destruct Hinv as [?|[Hso' Hc]]; [by left|right]. split; [done|]. auto.
    + rewrite U1, U2. split; [congruence|].
      destruct Hinv as [?|[Hso' Hc]]; [by left|right]. split; [done|]. auto.
  - destruct (has_handlers s st) eqn:Hs; [|done].
    destruct (handleSocketError_frame e st) as (Ha & Hso & Hcs & Hhs).
    split.
    + specialize (Hhs n). unfold has_handlers in *.
      destruct (sockets (handleSocketError e st) !! n), (sockets st !! n);
        simpl in *; congruence.
    + destruct Hso as [Hso|Hso]; [by left|]. rewrite Hso, Ha.
      destruct Hinv as [?|[Hso' Hc]]; [by left|right]. split; [done|].
      intros Hconn. apply Hc. specialize (Hcs n).
      destruct (sockets (handleSocketError e st) !! n), (sockets st !! n);
        simpl in *; congruence.
Qed.

Lemma attempt_inv_events n evs : ∀ st,
  attempt_inv n st → attempt_inv n (foldl (λ s ev, socket_event ev s) st evs).
Proof.
  induction evs as [|ev evs IH]; intros st Hinv; [done|].
  simpl. by apply IH, attempt_inv_socket_event.
Qed.

Lemma attempt_inv_checkConnection n events : ∀ fuel attempts elapsed st st' r t,
  attempt_inv n st →
  checkConnection fuel attempts elapsed events st = Some (st', r, t) →
  attempt_inv n st'.
Proof.
  induction fuel as [|fuel IH]; intros attempts elapsed st st' r t Hinv; [done|].
  simpl. pose proof (attempt_inv_events n (events attempts) st Hinv) as Hinv1.
  set (st1 := foldl _ st (events attempts)) in *.
  case_decide; [by intros [= <- _ _]|].
  destruct (socket_isConnected st1); [by intros [= <- _ _]|].
  case_decide; [by intros [= <- _ _]|]. by apply IH.
Qed.

Lemma connect_url_failure p st e :
  canConnect st = true →
  buildSocketUrl (mergeConnectionParams p st) st = inl e →
  (connect p st).2 = ConnectRejected e.
Proof.
  intros Hcan Hurl. unfold connect. rewrite Hcan. cbn [negb].
  set (st0 := updateState _ st).
  change (buildSocketUrl (mergeConnectionParams p st0) st0)
    with (buildSocketUrl (mergeConnectionParams p st) st).
  by rewrite Hurl.
Qed.

Lemma connect_constructor_failure p st socketUrl e :
  canConnect st = true →
  buildSocketUrl (mergeConnectionParams p st) st = inr socketUrl →
  ctorFailure st = Some e →
  (connect p st).2 = ConnectRejected e.
Proof.
  intros Hcan Hurl Hctor. unfold connect. rewrite Hcan. cbn [negb].
  set (st0 := updateState _ st).
  change (buildSocketUrl (mergeConnectionParams p st0) st0)
    with (buildSocketUrl (mergeConnectionParams p st) st).
  change (ctorFailure st0) with (ctorFailure st).
  by rewrite Hurl, Hctor.
Qed.

Lemma checkConnection_never_opened st : ∀ fuel attempts,
  socket_isConnected st = false →
  attempts < maxAttempts → maxAttempts ≤ attempts + fuel →
  checkConnection fuel attempts (checkInterval * Z.of_nat attempts)%Z (λ _, []) st
  = Some (st, WaitLimit, 4950%Z).
Proof.
  induction fuel as [|fuel IH]; intros attempts Hno Hlt Hfuel; [lia|].
  simpl. rewrite Hno.
  destruct (decide (maxAttempts ≤ S attempts)) as [Hmax|Hmax];
    unfold maxAttempts, checkInterval, waitTimeoutMs in *.
  - do 3 f_equal. lia.
  - rewrite decide_False by lia.
    replace (50 * Z.of_nat attempts + 50)%Z with (50 * Z.of_nat (S attempts))%Z by lia.
    apply IH; [done|lia..].
Qed.

Lemma connect_run_wait_failure p events st st1 st2 r t :
  connect p st = (st1, ConnectWaiting) →
  waitForConnection events st1 = Some (st2, r, t) →
  r ≠ WaitConnected →
  connect_run p events st
  = Some (handleConnectionError (wait_error r) st2, ConnectRejected (wait_error r)).
Proof.
  intros Hc Hw Hr. unfold connect_run. rewrite Hc, Hw. by destruct r.
Qed.

(** C8. With the timers firing when they are due, the wait of [connect]
    for the transport always settles, and does so within the 10 s of the
    timeout (the limit of 100 checks, 50 ms apart, settles it by 4950 ms).
    Every failure of [connect], be it the missing URL, the constructor of
    the transport or the wait (a transport that never opens), rejects the
    call with the error after [handleConnectionError]: the status becomes
    [error], [reconnectAttempts] grows by exactly one and the error event
    is emitted. The open handler of the transport sets [reconnectAttempts]
    to 0 at every connect and reconnect, and a [connect] call that was
    admitted and resolves leaves the counter at 0. *)
Theorem connect_wait_bounded_failures_counted p events st :
  (∃ st' r t, waitForConnection events st = Some (st', r, t)
     ∧ (0 ≤ t ≤ waitTimeoutMs)%Z)
  ∧ is_Some (connect_run p events st)
  ∧ (∀ e, canConnect st = true →
       buildSocketUrl (mergeConnectionParams p st) st = inl e →
       (connect p st).2 = ConnectRejected e)
  ∧ (∀ socketUrl e, canConnect st = true →
       buildSocketUrl (mergeConnectionParams p st) st = inr socketUrl →
       ctorFailure st = Some e →
       (connect p st).2 = ConnectRejected e)
  ∧ (∀ st1 st2 r t, connect p st = (st1, ConnectWaiting) →
       waitForConnection events st1 = Some (st2, r, t) →
       r ≠ WaitConnected →
       connect_run p events st
       = Some (handleConnectionError (wait_error r) st2, ConnectRejected (wait_error r)))
  ∧ (∀ st1, connect p st = (st1, ConnectWaiting) →
       connect_run p (λ _, []) st
       = Some (handleConnectionError (wait_error WaitLimit) st1,
               ConnectRejected (wait_error WaitLimit)))
  ∧ (∀ st' e, connect_run p events st = Some (st', ConnectRejected e) →
       ∃ st0, st' = handleConnectionError e st0
         ∧ status (connectionState st') = error
         ∧ reconnectAttempts (connectionState st')
           = S (reconnectAttempts (connectionState st0))
         ∧ lastError (connectionState st') = Some e
         ∧ emitted st' = emitted st0 ++ [(EventBus.ERROR, "connection")])
  ∧ (∀ st' e, connect p st = (st', ConnectRejected e) →
       status (connectionState st') = error
       ∧ reconnectAttempts (connectionState st')
         = S (reconnectAttempts (connectionState st)))
  ∧ (∀ s, has_handlers s st = true →
       reconnectAttempts (connectionState (socket_event (Opened s) st)) = 0
       ∧ status (connectionState (socket_event (Opened s) st)) = connected)
  ∧ (∀ st' s, canConnect st = true →
       connect_run p events st = Some (st', ConnectResolved s) →
       reconnectAttempts (connectionState st') = 0
       ∧ s = socket st' ∧ socket_isConnected st' = true).
Proof.
  split_and!.
  - destruct (waitForConnection_settles events st) as (st' & r & t & Heq & Ht & _).
    exists st', r, t. split; [done|]. unfold waitTimeoutMs. lia.
  - apply connect_run_total.
  - intros e. apply connect_url_failure.
  - intros socketUrl e. apply connect_constructor_failure.
  - intros st1 st2 r t. apply connect_run_wait_failure.
  - intros st1 Hc.
    destruct (connect_waiting _ _ _ Hc)
      as (_ & _ & _ & Hso & _ & (obj & Ho & Hconn & _) & _).
    apply (connect_run_wait_failure p _ st st1 st1 WaitLimit 4950%Z Hc); [|done].
    unfold waitForConnection. rewrite Hso.
    apply (checkConnection_never_opened st1 maxAttempts 0);
      [|unfold maxAttempts; lia|lia].
    unfold socket_isConnected. by rewrite Hso, Ho.
  - intros st' e Hrun. destruct (connect_run_rejected _ _ _ _ _ Hrun) as (st0 & ->).
    exists st0. by destruct (handleConnectionError_spec e st0) as (? & ? & ? & ? & _).
  - intros st' e Hc. destruct (connect_rejected _ _ _ _ Hc) as (st0 & -> & Hat).
    destruct (handleConnectionError_spec e st0) as (? & ? & _). split; congruence.
  - intros s Hs. unfold socket_event. rewrite Hs.
    by destruct (onOpen_spec (update_socket s (set_connected true) st)) as (? & ? & _).
  - intros st' s Hcan. unfold connect_run.
    destruct (connect p st) as [st1 [s1|e1|]] eqn:Hc.
    + by destruct (connect_admitted p st Hcan s1); rewrite Hc.
    + done.
    + destruct (connect_waiting _ _ _ Hc)
        as (_ & _ & _ & Hso & _ & (obj & Ho & Hconn & Hhand & _) & _).
      assert (Hinv1 : attempt_inv (length (sockets st)) st1).
      { split; [unfold has_handlers; by rewrite Ho|].
        right. split; [done|]. rewrite Ho. simpl. congruence. }
      unfold waitForConnection. rewrite Hso.
      destruct (checkConnection maxAttempts 0 0 events st1) as [[[st2 r] t]|] eqn:Hw;
        [|done].
      pose proof (attempt_inv_checkConnection _ _ _ _ _ _ _ _ _ Hinv1 Hw) as [_ Hinv2].
      destruct (checkConnection_settles events maxAttempts 0 0 st1
                  ltac:(unfold maxAttempts; lia) ltac:(lia) eq_refl)
        as (st2' & r' & t' & Heq & _ & Hr).
      rewrite Hw in Heq. injection Heq as <- <- <-.
      destruct r; simpl; try done. intros [= <- <-].
      destruct Hr as [?|[_ Hic]]; [done|]. split_and!; try done.
      unfold socket_isConnected in Hic.
      destruct Hinv2 as [Hnone|[Hsome Hzero]].
      * by rewrite Hnone in Hic.
      * rewrite Hsome in Hic. by apply Hzero.
Qed.

(** The scenario: the transport opens before the first check. *)
Lemma connect_wait_bounded_failures_counted_witness :
  let st := init no_env plain_config in
  canConnect st = true
  ∧ (∃ st', connect_run lobby_params opens_at_once st = Some (st', ConnectResolved (Some 0))
        ∧ reconnectAttempts (connectionState st') = 0).
Proof.
  intros st.
  assert (Hcan : canConnect st = true) by done.
  destruct (connect_wait_bounded_failures_counted lobby_params opens_at_once st)
    as (_ & _ & _ & _ & _ & _ & _ & _ & _ & Hres).
  split; [exact Hcan|].
  destruct (connect_run lobby_params opens_at_once st) as [[st' out]|] eqn:Hrun;
    [|by vm_compute in Hrun].
  assert (Hout : out = ConnectResolved (Some 0)).
  { assert (H : option_map snd (connect_run lobby_params opens_at_once st)
                = Some (ConnectResolved (Some 0))) by (by vm_compute).
    rewrite Hrun in H. by injection H. }
  subst out. exists st'. split; [done|].
  by destruct (Hres st' (Some 0) Hcan eq_refl).
Defined.

End ConnectionFacts.

(** ** [connect] while connected: the manager and the monolithic client *)

Section WhileConnected.
Import Js Connection.

Lemma hasConnectionParamsChanged_spec options st current :
  Legacy.l_connectionParams st = Some current →
  Legacy._hasConnectionParamsChanged options st = true
  ↔ (∃ newEndpoint, truthy (default None (endpoint options)) = Some newEndpoint
       ∧ match truthy (default None (endpoint current)) with
         | Some e => Some e
         | None => url (Legacy.l_config st)
         end ≠ Some newEndpoint)
    ∨ (∃ key, default ∅ (default None (params current)) !! key
              ≠ default ∅ (default None (params options)) !! key).
Proof.
  intros Hcur. unfold Legacy._hasConnectionParamsChanged. rewrite Hcur.
  set (cur := default ∅ (default None (params current))).
  set (new := default ∅ (default None (params options))).
  assert (Hex : set_Exists (λ key, cur !! key ≠ new !! key) (dom cur ∪ dom new)
                ↔ ∃ key, cur !! key ≠ new !! key).
  { split.
    - intros (key & _ & Hk). by exists key.
    - intros (key & Hk). exists key. split; [|done].
      apply elem_of_union. rewrite !elem_of_dom.
      destruct (cur !! key) eqn:E1; [left; by eexists|].
      destruct (new !! key) eqn:E2; [right; by eexists|]. done. }
  destruct (truthy (default None (endpoint options))) as [ne|] eqn:Hne.
  - case_bool_decide as Hch.
    + split; [|done]. intros _. left. by exists ne.
    + rewrite bool_decide_eq_true, Hex. split; [by right|].
      intros [(ne' & [= <-] & Hd)|?]; [done|done].
  - rewrite bool_decide_eq_true, Hex. split; [by right|].
    intros [(ne' & ? & _)|?]; [done|done].
Qed.

Lemma legacy_disconnect_spec st old :
  Legacy.l_socket st = Some old →
  Legacy.l_socket (Legacy.disconnect st) = None
  ∧ Legacy.l_connectionState (Legacy.disconnect st) = disconnected
  ∧ Legacy.l_connectionParams (Legacy.disconnect st) = Legacy.l_connectionParams st
  ∧ Legacy.l_config (Legacy.disconnect st) = Legacy.l_config st
  ∧ Legacy.l_env (Legacy.disconnect st) = Legacy.l_env st
  ∧ Legacy.l_ctorFailure (Legacy.disconnect st) = Legacy.l_ctorFailure st
  ∧ length (Legacy.l_sockets (Legacy.disconnect st)) = length (Legacy.l_sockets st)
  ∧ (s_disconnects <$> Legacy.l_sockets (Legacy.disconnect st) !! old)
    = (λ o, s_disconnects o ++ ["Client disconnect"]) <$> Legacy.l_sockets st !! old.
Proof.
  intros Hs. unfold Legacy.disconnect. rewrite Hs. simpl. split_and!; try done.
  - destruct (Legacy.l_sockets st !! old); [apply length_insert|done].
  - destruct (Legacy.l_sockets st !! old) as [o|] eqn:Ho; simpl.
    + rewrite list_lookup_insert_eq; [done|]. by eapply lookup_lt_Some.
    + by rewrite Ho.
Qed.

(** C2, as the code has it. In the connection manager a [connect] call made
    while the status is [connected] returns the socket held and changes
    nothing, whatever parameters it is given: a changed parameter does not
    make the manager disconnect. The disconnect-then-reconnect is what the
    [connect] of the monolithic client does: called while the transport
    reports connected, it returns the socket held when its comparison finds
    the effective options unchanged (no non-empty endpoint different from
    the current one, no [params] entry with a different value), and
    otherwise asks the socket to disconnect, drops it, and constructs a new
    socket from the effective options. *)
Theorem connect_while_connected p st options lst :
  (status (connectionState st) = connected →
   connect p st = (st, ConnectResolved (socket st)))
  ∧ (Legacy.isConnected lst = true →
     let effective := Legacy.effectiveOptions options lst in
     (Legacy._hasConnectionParamsChanged effective lst = false →
        Legacy.connect options lst = (lst, Legacy.Returned (Legacy.l_socket lst)))
     ∧ (Legacy._hasConnectionParamsChanged effective lst = true →
        ∃ old, Legacy.l_socket lst = Some old
          ∧ Legacy.connect options lst
            = Legacy.connect_attempt effective (Legacy.disconnect lst)
          ∧ (s_disconnects <$> Legacy.l_sockets (Legacy.connect options lst).1 !! old)
            = (λ o, s_disconnects o ++ ["Client disconnect"])
                <$> Legacy.l_sockets lst !! old
          ∧ (∀ socketUrl, Legacy._getSocketUrl effective lst = inr socketUrl →
               Legacy.l_ctorFailure lst = None →
               (Legacy.connect options lst).2
               = Legacy.Returned (Some (length (Legacy.l_sockets lst)))
               ∧ Legacy.l_connectionParams (Legacy.connect options lst).1 = Some effective
               ∧ Legacy.l_sockets (Legacy.connect options lst).1
                   !! length (Legacy.l_sockets lst)
                 = Some {| s_url := socketUrl;
                           s_params := Legacy._getSocketParams effective lst;
                           s_longPoll := useLongPoll (Legacy.l_config lst);
                           s_connected := false; s_handlers := true;
                           s_disconnects := [] |})))
  ∧ (∀ current, Legacy.l_connectionParams lst = Some current →
       Legacy._hasConnectionParamsChanged (Legacy.effectiveOptions options lst) lst = true
       ↔ (∃ newEndpoint,
            truthy (default None (endpoint (Legacy.effectiveOptions options lst)))
            = Some newEndpoint
            ∧ match truthy (default None (endpoint current)) with
              | Some e => Some e
              | None => url (Legacy.l_config lst)
              end ≠ Some newEndpoint)
         ∨ (∃ key, default ∅ (default None (params current)) !! key
                   ≠ default ∅ (default None
                       (params (Legacy.effectiveOptions options lst))) !! key)).
Proof.
  split_and!.
  - intros Hst. apply connect_guarded. unfold canConnect. by rewrite Hst.
  - intros Hconn effective. split.
    + intros Hsame. unfold Legacy.connect. fold effective. by rewrite Hconn, Hsame.
    + intros Hchanged.
      assert (∃ old, Legacy.l_socket lst = Some old) as [old Hold].
      { unfold Legacy.isConnected in Hconn. destruct (Legacy.l_socket lst); [by eexists|done]. }
      destruct (legacy_disconnect_spec lst old Hold)
        as (D1 & D2 & D3 & D4 & D5 & D6 & D7 & D8).
      assert (Heq : Legacy.connect options lst
                    = Legacy.connect_attempt effective (Legacy.disconnect lst)).
      { unfold Legacy.connect. fold effective. rewrite Hconn, Hchanged. cbn [negb].
        by rewrite D2. }
      assert (Hurl : Legacy._getSocketUrl effective (Legacy.disconnect lst)
                     = Legacy._getSocketUrl effective lst).
      { unfold Legacy._getSocketUrl. by rewrite D4, D5. }
      assert (Hlt : old < length (Legacy.l_sockets lst)).
      { unfold Legacy.isConnected in Hconn. rewrite Hold in Hconn.
        destruct (Legacy.l_sockets lst !! old) eqn:Ho; [|done]. by eapply lookup_lt_Some. }
      exists old. split_and!; try done.
      * rewrite Heq. unfold Legacy.connect_attempt. rewrite Hurl, D6.
        destruct (Legacy._getSocketUrl effective lst); [by rewrite <- D8|].
        destruct (Legacy.l_ctorFailure lst); [by rewrite <- D8|].
        cbn [fst Legacy.l_sockets]. rewrite lookup_app_l by by rewrite D7.
        exact D8.
      * intros socketUrl Hu Hctor. rewrite Heq. unfold Legacy.connect_attempt.
        rewrite Hurl, D6, Hu, Hctor. cbn [fst snd Legacy.l_sockets Legacy.l_connectionParams].
        rewrite D7. split_and!; try done.
        rewrite <- D7. rewrite list_lookup_middle by done.
        unfold Legacy._getSocketParams. by rewrite D4.
  - intros current Hcur. by apply hasConnectionParamsChanged_spec.
Qed.

(** The connected manager of the scenario, asked to connect again with the
    same parameters. *)
Lemma connect_while_connected_witness :
  let st := from_option fst (init no_env plain_config) connected_state in
  status (connectionState st) = connected
  ∧ connect lobby_params st = (st, ConnectResolved (Some 0)).
Proof.
  intros st.
  assert (Hst : status (connectionState st) = connected) by (by vm_compute).
  destruct (connect_while_connected lobby_params st empty_params
              {| Legacy.l_socket := None; Legacy.l_channels := ∅;
                 Legacy.l_connectionState := disconnected;
                 Legacy.l_connectionParams := None; Legacy.l_env := no_env;
                 Legacy.l_config := plain_config; Legacy.l_sockets := [];
                 Legacy.l_ctorFailure := None; Legacy.l_storageAvailable := true;
                 Legacy.l_storedParams := None; Legacy.l_left := [];
                 Legacy.l_emitted := [] |}) as (Hguard & _).
  split; [exact Hst|]. exact (Hguard Hst).
Defined.

(** The claim as stated fails on the connection manager: connected to
    ["wss://x/socket"] with the token ["abc"], a [connect] with another
    endpoint and another token returns the socket held; the socket was not
    asked to disconnect and no second socket exists. *)
Lemma connect_changed_params_counterexample :
  let st := from_option fst (init no_env plain_config) connected_state in
  let changed := {| endpoint := Some (Some "wss://y/socket");
                    params := Some (Some {["token" := "xyz"]});
                    extras := ∅ |} in
  connected_state = Some (st, ConnectResolved (Some 0))
  ∧ isConnected st = true
  ∧ (endpoint <$> connectionParams st) = Some (Some (Some "wss://x/socket"))
  ∧ endpoint (mergeConnectionParams changed st) = Some (Some "wss://y/socket")
  ∧ connect changed st = (st, ConnectResolved (Some 0))
  ∧ (s_disconnects <$> sockets (connect changed st).1 !! 0) = Some []
  ∧ length (sockets (connect changed st).1) = 1.
Proof.
  intros st changed. split_and!; by vm_compute.
Qed.

End WhileConnected.

(** ** Channel manager: leaving, cleaning up, failed joins *)

Section ChannelLifecycle.
Import Js Channels Registry.

Lemma leaveChannel_registered tp c st :
  channels st !! tp = Some c →
  leaveChannel tp st
  = emit EventBus.CHANNEL_LEAVE tp
      (updateChannelState tp
         {| u_status := Some disconnected; u_error := None;
            u_lastJoined := None; u_lastLeft := Some (clock st) |}
         (with_messageListeners (λ ls, delete tp ls)
            (with_channels (λ chans, delete tp chans) (channel_leave c st)))).
Proof. intros Hc. unfold leaveChannel. by rewrite Hc. Qed.

Lemma heap_leaveChannel tp c st i :
  channels st !! tp = Some c →
  heap (leaveChannel tp st) !! i
  = if decide (i = c)
    then (λ o, {| ch_topic := ch_topic o; ch_params := ch_params o; ch_state := ch_state o;
                  ch_managerHandlers := ch_managerHandlers o;
                  ch_errorHandlers := ch_errorHandlers o;
                  ch_closeHandlers := ch_closeHandlers o;
                  ch_bindings := ch_bindings o; ch_joins := ch_joins o;
                  ch_pushes := ch_pushes o; ch_leaves := S (ch_leaves o) |}) <$> heap st !! c
    else heap st !! i.
Proof.
  intros Hc. rewrite (leaveChannel_registered _ _ _ Hc).
  change (heap (emit _ _ _)) with (heap (channel_leave c st)).
  unfold channel_leave. by rewrite heap_update_channel.
Qed.





(** The loop of [cleanup] over a list of distinct topics. *)
Lemma leaveChannel_all st : ∀ l,
  Inv st → NoDup l →
  Inv (foldr leaveChannel st l)
  ∧ channels (foldr leaveChannel st l) = foldr delete (channels st) l
  ∧ (∀ tp c, tp ∈ l → channels st !! tp = Some c →
       (ch_leaves <$> heap (foldr leaveChannel st l) !! c) = Some 1)
  ∧ (∀ c, (∀ tp, tp ∈ l → channels st !! tp ≠ Some c) →
       heap (foldr leaveChannel st l) !! c = heap st !! c)
  ∧ ((∀ tp, tp ∈ l → is_Some (channels st !! tp)) →
       emitted (foldr leaveChannel st l)
       = emitted st ++ ((λ tp, (EventBus.CHANNEL_LEAVE, tp)) <$> reverse l))
  ∧ socket (foldr leaveChannel st l) = socket st
  ∧ length (heap (foldr leaveChannel st l)) = length (heap st).
Proof.
  induction l as [|tp l IH]; intros HI Hnd.
  { simpl. split_and!; try done.
    - intros tp c Hin. by apply elem_of_nil in Hin.
    - intros _. by rewrite app_nil_r. }
  apply NoDup_cons in Hnd as [Hnotin Hnd].
  destruct (IH HI Hnd) as (HI1 & Hch1 & Hleft1 & Hkeep1 & Hem1 & Hsock1 & Hlen1).
  cbn [foldr].
  set (st1 := foldr leaveChannel st l) in *.
  assert (Htp : channels st1 !! tp = channels st !! tp).
  { rewrite Hch1. by apply lookup_foldr_delete_not_elem_of. }
  assert (Hcase : (∃ c0, channels st1 !! tp = Some c0) ∨ channels st1 !! tp = None)
    by (destruct (channels st1 !! tp); eauto).
  clearbody st1. split_and!.
  - by apply Inv_leaveChannel.
  - by rewrite channels_leaveChannel, Hch1.
  - intros tp' c Hin Hc. apply elem_of_cons in Hin as [->|Hin].
    + rewrite <- Htp in Hc. rewrite (heap_leaveChannel _ _ _ _ Hc), decide_True by done.
      destruct (inv_ref _ HI1 tp c Hc) as (obj & Ho & _ & Hl & _).
      rewrite Ho. simpl. by rewrite Hl.
    + destruct Hcase as [[c0 Hc0]|Hc0].
      * rewrite (heap_leaveChannel _ _ _ _ Hc0).
        rewrite decide_False; [by eapply Hleft1|].
        intros ->. rewrite Htp in Hc0.
        destruct (inv_ref _ HI tp c0 Hc0) as (o1 & Ho1 & Ht1 & _).
        destruct (inv_ref _ HI tp' c0 Hc) as (o2 & Ho2 & Ht2 & _).
        apply Hnotin. by replace tp with tp' by congruence.
      * unfold leaveChannel. rewrite Hc0. by eapply Hleft1.
  - intros c Hnot. destruct Hcase as [[c0 Hc0]|Hc0].
    + rewrite (heap_leaveChannel _ _ _ _ Hc0). rewrite decide_False.
      * apply Hkeep1. intros tp' Hin. apply Hnot. by apply elem_of_cons; right.
      * intros ->. rewrite Htp in Hc0. eapply Hnot; [|done]. by apply elem_of_cons; left.
    + unfold leaveChannel. rewrite Hc0. apply Hkeep1.
      intros tp' Hin. apply Hnot. by apply elem_of_cons; right.
  - intros Hreg. destruct (Hreg tp ltac:(by apply elem_of_cons; left)) as [c Hc].
    rewrite <- Htp in Hc. rewrite (leaveChannel_registered _ _ _ Hc).
    change (emitted (emit ?e ?t ?s)) with (emitted s ++ [(e, t)]).
    change (emitted (updateChannelState _ _ _)) with (emitted st1).
    rewrite Hem1.
    + rewrite reverse_cons, fmap_app, app_assoc. done.
    + intros tp' Hin. apply Hreg. by apply elem_of_cons; right.
  - rewrite <- Hsock1. unfold leaveChannel. by destruct (channels st1 !! tp).
  - by rewrite heap_leaveChannel_length.
Qed.



End ChannelLifecycle.

(** ** Channel manager: handlers and listeners over every sequence of operations *)

Section ChannelRegistries.
Import Js Channels Registry.

Lemma same_handlers_heap st st' : heap st' = heap st → same_handlers st st'.
Proof.
  intros Hh. split; [by rewrite Hh|]. intros c obj' Ho. left. exists obj'.
  by rewrite <- Hh.
Qed.

Lemma same_handlers_trans st st1 st2 :
  same_handlers st st1 → same_handlers st1 st2 → same_handlers st st2.
Proof.
  intros [Hl1 H1] [Hl2 H2]. split; [lia|]. intros c obj2 Ho2.
  destruct (H2 c obj2 Ho2) as [(obj1 & Ho1 & Ht & Hf & He & Hc)|(Hn & Hf & options & He & Hc)].
  - destruct (H1 c obj1 Ho1) as [(obj & Ho & Ht' & Hf' & He' & Hc')
                                |(Hn & Hf' & options & He' & Hc')].
    + left. exists obj. split_and!; congruence.
    + right. split_and!; [done|congruence|]. exists options. split; congruence.
  - right. split_and!; [|done|by exists options].
    apply lookup_ge_None. apply lookup_ge_None in Hn. lia.
Qed.

Lemma same_handlers_update c f st :
  (∀ o, ch_topic (f o) = ch_topic o
        ∧ ch_managerHandlers (f o) = ch_managerHandlers o
        ∧ ch_errorHandlers (f o) = ch_errorHandlers o
        ∧ ch_closeHandlers (f o) = ch_closeHandlers o) →
  same_handlers st (update_channel c f st).
Proof.
  intros Hf. split; [by rewrite heap_update_channel_length|].
  intros i obj'. rewrite heap_update_channel. case_decide as Hi.
  - subst. destruct (heap st !! c) as [o|] eqn:Ho; [|done]. simpl. intros [= <-].
    left. exists o. by destruct (Hf o) as (? & ? & ? & ?).
  - intros Ho. left. by exists obj'.
Qed.

Lemma handlers_installed_same st st' :
  handlers_installed st → same_handlers st st' → handlers_installed st'.
Proof.
  intros HI [_ Hs] c obj' Ho'.
  destruct (Hs c obj' Ho') as [(obj & Ho & Ht & Hf & He & Hc)|(_ & Hf & Hrest)]; [|done].
  destruct (HI c obj Ho) as (Hflag & options & Herr & Hclose).
  split; [congruence|]. exists options. split; congruence.
Qed.


(** The channel object that [joinChannel] builds for a topic without one. *)
Lemma joinChannel_try_new_object tp options st :
  heap (joinChannel_try tp options None st).1
  = heap st ++ [{| ch_topic := tp; ch_params := default ∅ (params options);
                   ch_state := t_closed; ch_managerHandlers := true;
                   ch_errorHandlers := [(tp, options)];
                   ch_closeHandlers := [(tp, options)];
                   ch_bindings := []; ch_joins := 1; ch_pushes := []; ch_leaves := 0 |}].
Proof.
  unfold joinChannel_try, socket_channel.
  cbv beta iota zeta delta [fst snd].
  set (st1 := updateChannelState tp _ st).
  assert (Hh1 : heap st1 = heap st) by done. clearbody st1.
  set (st3 := with_channels _ (with_heap _ st1)).
  assert (Hh3 : heap st3 = heap st ++ [new_channel tp (default ∅ (params options))]).
  { unfold st3; simpl. by rewrite Hh1. }
  assert (Hlen : length (heap st1) = length (heap st)) by by rewrite Hh1.
  rewrite Hlen. clearbody st3.
  unfold channel_join, update_channel, with_heap; simpl.
  unfold setupChannelHandlers. rewrite Hh3, list_lookup_middle by done. simpl.
  unfold update_channel, with_heap; simpl. rewrite Hh3, list_lookup_middle by done.
  rewrite !list_lookup_insert_eq by (rewrite ?length_insert, length_app; simpl; lia).
  rewrite list_insert_insert_eq.
  rewrite insert_app_r_alt by lia. by rewrite Nat.sub_diag.
Qed.

Lemma same_handlers_joinChannel_try tp options st :
  handlers_installed st →
  same_handlers st (joinChannel_try tp options (channels st !! tp) st).1.
Proof.
  intros HI. destruct (channels st !! tp) as [c|] eqn:Hc.
  - unfold joinChannel_try. cbv beta iota zeta delta [fst snd].
    set (st1 := updateChannelState tp _ st).
    set (st3 := with_channels _ st1).
    assert (Hh : heap st3 = heap st) by done.
    assert (HI3 : handlers_installed st3).
    { apply (handlers_installed_same st); [done|]. by apply same_handlers_heap. }
    clearbody st3.
    eapply same_handlers_trans; [by apply same_handlers_heap|].
    eapply same_handlers_trans; [|by apply same_handlers_update].
    unfold setupChannelHandlers. destruct (heap st3 !! c) as [obj|] eqn:Ho.
    + destruct (HI3 c obj Ho) as [-> _]. by apply same_handlers_heap.
    + by apply same_handlers_heap.
  - pose proof (joinChannel_try_new_object tp options st) as Hh.
    split; [rewrite Hh, length_app; simpl; lia|].
    intros c obj'. rewrite Hh. intros [[Hlen Ho]|[-> <-]]%lookup_snoc_Some.
    + left. by exists obj'.
    + right. split_and!; [by apply lookup_ge_None|done|]. by eexists.
Qed.

Lemma same_handlers_leaveChannel tp st : same_handlers st (leaveChannel tp st).
Proof.
  unfold leaveChannel. destruct (channels st !! tp) as [c|]; [|by apply same_handlers_heap].
  apply (same_handlers_trans _ (channel_leave c st)); [by apply same_handlers_update|].
  by apply same_handlers_heap.
Qed.

Lemma same_handlers_fold {A} (f : A → State → State) (l : list A) st :
  (∀ x s, same_handlers s (f x s)) → same_handlers st (foldl (λ s x, f x s) st l).
Proof.
  intros Hf. revert st. induction l as [|x l IH]; intros st; simpl.
  - by apply same_handlers_heap.
  - eapply same_handlers_trans; [apply Hf|apply IH].
Qed.

Lemma same_handlers_step op st :
  handlers_installed st → same_handlers st (step st op).
Proof.
  intros HI. destruct op; simpl; try (by apply same_handlers_heap).
  - unfold joinChannel. destruct (socket st); [|by apply same_handlers_heap].
    case_decide; [by apply same_handlers_heap|].
    pose proof (same_handlers_joinChannel_try tp options st HI) as Htry.
    destruct (channels st !! tp) as [c|]; [|done].
    destruct (is_joined c st); [by apply same_handlers_heap|done].
  - destruct ack; by apply same_handlers_heap.
  - apply same_handlers_leaveChannel.
  - unfold sendMessage. destruct (channels st !! tp); [|by apply same_handlers_heap].
    by apply same_handlers_update.
  - destruct ack; simpl; [|by apply same_handlers_heap..].
    unfold incrementMessageCount. destruct (channelStates st !! tp); by apply same_handlers_heap.
  - unfold onMessage. destruct (channels st !! tp) as [c|]; [|by apply same_handlers_heap].
    case_decide; [by apply same_handlers_heap|].
    destruct (set_has _ _); [by apply same_handlers_heap|].
    eapply same_handlers_trans; [|by apply same_handlers_update].
    by apply same_handlers_heap.
  - unfold offMessage. destruct (messageListeners st !! tp) as [tl|]; [|by apply same_handlers_heap].
    destruct (tl !! event); [|by apply same_handlers_heap].
    eapply same_handlers_trans; [|by apply same_handlers_heap].
    destruct (channels st !! tp); [|by apply same_handlers_heap].
    by apply same_handlers_update.
  - unfold cleanup.
    apply (same_handlers_trans _ (foldr leaveChannel st (map_to_list (channels st)).*1));
      [|by apply same_handlers_heap].
    generalize ((map_to_list (channels st)).*1). intros l.
    induction l as [|tp l IH]; simpl.
    + by apply same_handlers_heap.
    + eapply same_handlers_trans; [exact IH|apply same_handlers_leaveChannel].
  - unfold channel_error. apply same_handlers_fold. intros h s. by apply same_handlers_heap.
  - unfold channel_close. apply same_handlers_fold. intros h s. by apply same_handlers_heap.
  - by apply same_handlers_update.
Qed.

Lemma handlers_installed_run ops : ∀ st,
  handlers_installed st → handlers_installed (run ops st) ∧ same_handlers st (run ops st).
Proof.
  induction ops as [|op ops IH]; intros st HI.
  - split; [done|by apply same_handlers_heap].
  - simpl. pose proof (same_handlers_step op st HI) as Hs.
    destruct (IH (step st op) (handlers_installed_same _ _ HI Hs)) as [H1 H2].
    split; [done|]. by eapply same_handlers_trans.
Qed.

Lemma reachable_handlers_installed st : reachable st → handlers_installed st.
Proof.
  intros (sock & ops & ->). apply handlers_installed_run.
  intros c obj. unfold init; simpl. by rewrite lookup_nil.
Qed.


(** X3 (setupChannelHandlers): the error and close callbacks of a channel
    object are those installed by the join call that built the object. Whatever
    the manager does afterwards (further joins of the topic with other
    options included), an error or a close reported by the transport for the
    object runs that first pair of callbacks exactly once, records the status
    of the topic, emits one event, and leaves the topic registered. *)
Theorem channel_callbacks_keep_first_options st tp options1 st1 c ops reason :
  reachable st →
  channels st !! tp = None →
  joinChannel tp options1 st = (st1, JoinPending c) →
  let st2 := run ops st1 in
  channel_error c reason st2 = error_handler reason (tp, options1) st2
  ∧ channel_close c st2 = close_handler (tp, options1) st2
  ∧ called (channel_error c reason st2)
    = called st2 ++ from_option (λ f, [f]) [] (onError options1)
  ∧ emitted (channel_error c reason st2) = emitted st2 ++ [(EventBus.CHANNEL_ERROR, tp)]
  ∧ (status <$> getChannelState tp (channel_error c reason st2)) = Some error
  ∧ called (channel_close c st2)
    = called st2 ++ from_option (λ f, [f]) [] (onLeave options1)
  ∧ emitted (channel_close c st2) = emitted st2 ++ [(EventBus.CHANNEL_LEAVE, tp)]
  ∧ (status <$> getChannelState tp (channel_close c st2)) = Some disconnected
  ∧ channels (channel_error c reason st2) = channels st2
  ∧ channels (channel_close c st2) = channels st2.
Proof.
  intros Hreach Hnone Hjoin st2.
  pose proof (reachable_handlers_installed _ Hreach) as HI.
  assert (Hheap1 : ∃ obj, heap st1 !! c = Some obj ∧ ch_topic obj = tp
            ∧ ch_errorHandlers obj = [(tp, options1)]
            ∧ ch_closeHandlers obj = [(tp, options1)]).
  { unfold joinChannel in Hjoin. destruct (socket st); [|done].
    case_decide; [done|]. rewrite Hnone in Hjoin.
    pose proof (joinChannel_try_new_object tp options1 st) as Hh.
    destruct (joinChannel_try_new tp options1 st) as (Hp & _).
    rewrite Hjoin in Hh, Hp. simpl in Hh, Hp. injection Hp as ->.
    rewrite Hh. eexists. split; [by apply list_lookup_middle|done]. }
  destruct Hheap1 as (obj & Ho & Ht & He & Hc).
  assert (HI1 : handlers_installed st1).
  { pose proof (handlers_installed_run [JoinChannel tp options1] st HI) as [H _].
    simpl in H. unfold run in H. simpl in H. by rewrite Hjoin in H. }
  destruct (handlers_installed_run ops st1 HI1) as [HI2 [Hlen Hsame]].
  fold st2 in HI2, Hlen, Hsame.
  assert (Hheap2 : ∃ obj2, heap st2 !! c = Some obj2
            ∧ ch_errorHandlers obj2 = [(tp, options1)]
            ∧ ch_closeHandlers obj2 = [(tp, options1)]).
  { assert (Hlt : c < length (heap st2)).
    { apply lookup_lt_Some in Ho. lia. }
    destruct (lookup_lt_is_Some_2 _ _ Hlt) as [obj2 Ho2].
    exists obj2. split; [done|].
    destruct (Hsame c obj2 Ho2) as [(obj' & Ho' & _ & _ & He' & Hc')|(Hn & _)];
      [|congruence].
    rewrite Ho in Ho'. injection Ho' as <-. split; congruence. }
  destruct Hheap2 as (obj2 & Ho2 & He2 & Hc2).
  assert (Herr : channel_error c reason st2 = error_handler reason (tp, options1) st2).
  { unfold channel_error. rewrite Ho2. simpl. by rewrite He2. }
  assert (Hclose : channel_close c st2 = close_handler (tp, options1) st2).
  { unfold channel_close. rewrite Ho2. simpl. by rewrite Hc2. }
  clearbody st2. rewrite Herr, Hclose.
  split_and!; try done.
  - unfold error_handler, getChannelState; simpl. by rewrite lookup_insert_eq.
  - unfold close_handler, getChannelState; simpl. by rewrite lookup_insert_eq.
Qed.

Lemma channel_callbacks_keep_first_options_witness :
  let st := init (Some 0) in
  let first := {| params := None; onJoin := None; onLeave := Some 2; onError := Some 1 |} in
  let second := {| params := None; onJoin := None; onLeave := Some 4; onError := Some 3 |} in
  let st1 := (joinChannel "room:lobby" first st).1 in
  let st2 := run [JoinChannel "room:lobby" second] st1 in
  reachable st
  ∧ channels st !! "room:lobby" = None
  ∧ joinChannel "room:lobby" first st = (st1, JoinPending 0)
  ∧ called (channel_error 0 "boom" st2) = [1].
Proof.
  intros st first second st1 st2.
  assert (Hreach : reachable st) by (by exists (Some 0), []).
  assert (Hnone : channels st !! "room:lobby" = None) by done.
  assert (Hjoin : joinChannel "room:lobby" first st = (st1, JoinPending 0)) by done.
  destruct (channel_callbacks_keep_first_options st "room:lobby" first st1 0
              [JoinChannel "room:lobby" second] "boom" Hreach Hnone Hjoin)
    as (_ & _ & Hcalled & _).
  by split_and!.
Defined.




End ChannelRegistries.

(** ** Channel manager: message listeners and message counts *)

Section ChannelListeners.
Import Js Channels Registry.

Lemma listeners_heap_only st st' :
  messageListeners st' = messageListeners st →
  ∀ tp event, listeners tp event st' = listeners tp event st.
Proof. intros H tp event. unfold listeners. by rewrite H. Qed.



Lemma set_delete_absent x s : x ∉ s → set_delete x s = s.
Proof.
  intros Hx. unfold set_delete. induction s as [|y s IH]; [done|].
  rewrite filter_cons. apply not_elem_of_cons in Hx as [Hne Hx].
  rewrite decide_True by congruence. by rewrite IH.
Qed.


Lemma set_delete_add x s : x ∉ s → set_delete x (set_add x s) = s.
Proof.
  intros Hx. rewrite set_add_absent by done. unfold set_delete.
  rewrite filter_app, filter_cons, decide_False by (intros H; by apply H).
  rewrite filter_nil, app_nil_r. by apply set_delete_absent.
Qed.

Lemma messageListeners_joinChannel tp options st :
  messageListeners (joinChannel tp options st).1 = messageListeners st.
Proof.
  unfold joinChannel. destruct (socket st); [|done]. case_decide; [done|].
  assert (Htry : ∀ e, messageListeners (joinChannel_try tp options e st).1
                      = messageListeners st).
  { intros e. unfold joinChannel_try. cbv beta iota zeta delta [fst snd].
    destruct e; simpl; unfold setupChannelHandlers; simpl;
      repeat (case_match; simpl; try done). }
  destruct (channels st !! tp) as [c|]; [|apply Htry].
  destruct (is_joined c st); [done|apply Htry].
Qed.








Lemma dispatch_step_listeners op st tp c event :
  reachable st → channels (step st op) !! tp = Some c →
  dispatch c event (step st op) = listeners tp event (step st op).
Proof.
  intros Hreach Hc. apply dispatch_listeners; [|done]. by apply reachable_step.
Qed.




(** X7 (onMessage without a channel): a listener registered for a topic
    that has no channel is not kept for later, whatever the warning says:
    only the warning is logged, and once the topic is joined and the join
    acknowledged the event still has no listener and the transport calls
    nothing for it. *)
Theorem onMessage_without_channel_registers_nothing st tp event callback :
  reachable st →
  channels st !! tp = None →
  let st0 := onMessage tp event callback st in
  st0 = warn ("[ChannelManager] Channel " +:+ tp
              +:+ " not joined, deferring message listener") st
  ∧ listeners tp event st0 = []
  ∧ (∀ options st1 c response,
       joinChannel tp options st0 = (st1, JoinPending c) →
       let st2 := (joinChannel_settle tp c options (join_ok response)
                     (transport_state c t_joined st1)).1 in
       isChannelJoined tp st2 = true
       ∧ listeners tp event st2 = []
       ∧ dispatch c event st2 = []
       ∧ invocations callback (dispatch c event st2) = 0).
Proof.
  intros Hreach Hnone st0.
  pose proof (reachable_Inv _ Hreach) as HI.
  assert (H0 : st0 = warn ("[ChannelManager] Channel " +:+ tp
              +:+ " not joined, deferring message listener") st).
  { unfold st0, onMessage. by rewrite Hnone. }
  assert (Hl0 : listeners tp event st0 = []).
  { rewrite H0. unfold listeners; simpl. by rewrite (inv_nolisten _ HI tp Hnone). }
  assert (Hreach0 : reachable st0)
    by apply (reachable_step (OnMessage tp event callback) st Hreach).
  split_and!; [done..|].
  intros options st1 c response Hjoin st2.
  assert (Hreach2 : reachable st2).
  { apply (reachable_step (JoinSettled tp c options (join_ok response))).
    apply (reachable_step (TransportState_ c t_joined)).
    pose proof (reachable_step (JoinChannel tp options) st0 Hreach0) as H.
    simpl in H. by rewrite Hjoin in H. }
  destruct (joinChannel_pending _ _ _ _ _ Hjoin) as (_ & Hc1 & _).
  assert (Hc2 : channels st2 !! tp = Some c) by done.
  assert (Hl2 : listeners tp event st2 = []).
  { rewrite <- Hl0. apply listeners_heap_only.
    change (messageListeners st2) with (messageListeners st1).
    pose proof (messageListeners_joinChannel tp options st0) as H.
    by rewrite Hjoin in H. }
  assert (Hd : dispatch c event st2 = []).
  { by rewrite (dispatch_listeners tp event c st2 Hreach2 Hc2). }
  split_and!; [|done|done|by rewrite Hd].
  unfold st2, isChannelJoined, joinChannel_settle; simpl. by rewrite lookup_insert_eq.
Qed.

Lemma onMessage_without_channel_registers_nothing_witness :
  let st := init (Some 0) in
  let st0 := onMessage "room:lobby" "msg" 7 st in
  let st1 := (joinChannel "room:lobby" no_options st0).1 in
  let st2 := (joinChannel_settle "room:lobby" 0 no_options (join_ok "ok")
                (transport_state 0 t_joined st1)).1 in
  reachable st
  ∧ channels st !! "room:lobby" = None
  ∧ joinChannel "room:lobby" no_options st0 = (st1, JoinPending 0)
  ∧ isChannelJoined "room:lobby" st2 = true
  ∧ dispatch 0 "msg" st2 = [].
Proof.
  intros st st0 st1 st2.
  assert (Hreach : reachable st) by (by exists (Some 0), []).
  assert (Hnone : channels st !! "room:lobby" = None) by done.
  assert (Hjoin : joinChannel "room:lobby" no_options st0 = (st1, JoinPending 0)) by done.
  destruct (onMessage_without_channel_registers_nothing st "room:lobby" "msg" 7
              Hreach Hnone) as (_ & _ & Hlater).
  destruct (Hlater no_options st1 0 "ok" Hjoin) as (Hj & _ & Hd & _).
  split_and!; [done|done|done|exact Hj|exact Hd].
Defined.

Lemma counts_kept_refl st st' :
  channelStates st' = channelStates st → counts_kept st st'.
Proof. intros H tp state Hs. exists state. by rewrite H. Qed.

Lemma counts_kept_trans st st1 st2 :
  counts_kept st st1 → counts_kept st1 st2 → counts_kept st st2.
Proof.
  intros H1 H2 tp state Hs. destruct (H1 tp state Hs) as (s1 & Hs1 & Hm1).
  destruct (H2 tp s1 Hs1) as (s2 & Hs2 & Hm2). exists s2. split; [done|congruence].
Qed.

Lemma counts_kept_updateChannelState tp updates st :
  counts_kept st (updateChannelState tp updates st).
Proof.
  intros tp' state Hs. unfold updateChannelState; simpl. rewrite lookup_insert.
  case_decide as Htp; [|by exists state]. subst tp'. rewrite Hs. simpl. by eexists.
Qed.

Lemma counts_kept_fold {A} (f : A → State → State) (l : list A) st :
  (∀ x s, counts_kept s (f x s)) → counts_kept st (foldl (λ s x, f x s) st l).
Proof.
  intros Hf. revert st. induction l as [|x l IH]; intros st; simpl.
  - by apply counts_kept_refl.
  - eapply counts_kept_trans; [apply Hf|apply IH].
Qed.

Lemma counts_kept_joinChannel tp options st :
  counts_kept st (joinChannel tp options st).1.
Proof.
  unfold joinChannel. destruct (socket st); [|by apply counts_kept_refl].
  case_decide; [by apply counts_kept_refl|].
  assert (Htry : ∀ e, counts_kept st (joinChannel_try tp options e st).1).
  { intros e. unfold joinChannel_try. cbv beta iota zeta delta [fst snd].
    apply (counts_kept_trans _ (updateChannelState tp
      {| u_status := Some joining; u_error := None;
         u_lastJoined := None; u_lastLeft := None |} st));
      [apply counts_kept_updateChannelState|].
    apply counts_kept_refl.
    destruct e; simpl; unfold setupChannelHandlers; simpl;
      repeat (case_match; simpl; try done). }
  destruct (channels st !! tp) as [c|]; [|apply Htry].
  destruct (is_joined c st); [by apply counts_kept_refl|apply Htry].
Qed.

Lemma counts_kept_leaveChannel tp st : counts_kept st (leaveChannel tp st).
Proof.
  unfold leaveChannel. destruct (channels st !! tp) as [c|]; [|by apply counts_kept_refl].
  set (st3 := with_messageListeners _ _).
  apply (counts_kept_trans _ st3); [by apply counts_kept_refl|].
  eapply counts_kept_trans; [apply counts_kept_updateChannelState|].
  by apply counts_kept_refl.
Qed.

(** What one operation other than [cleanup] does to the message count of a
    topic that has a [ChannelState]. *)
Lemma messageCount_step op st tp state :
  op ≠ Cleanup →
  channelStates st !! tp = Some state →
  ∃ state', channelStates (step st op) !! tp = Some state'
    ∧ messageCount state'
      = messageCount state + (if is_okAck tp op then 1 else 0).
Proof.
  intros Hop Hs.
  assert (Hkept : ∀ st', is_okAck tp op = false → counts_kept st st' →
            ∃ state', channelStates st' !! tp = Some state'
              ∧ messageCount state'
                = messageCount state + (if is_okAck tp op then 1 else 0)).
  { intros st' -> Hk. destruct (Hk tp state Hs) as (s' & Hs' & Hm).
    exists s'. split; [done|lia]. }
  destruct op; simpl; try (apply Hkept; [done|by apply counts_kept_refl]).
  - apply Hkept; [done|]. apply counts_kept_joinChannel.
  - apply Hkept; [done|]. destruct ack; simpl.
    + eapply counts_kept_trans; [apply counts_kept_updateChannelState|].
      by apply counts_kept_refl.
    + eapply counts_kept_trans; [apply counts_kept_updateChannelState|].
      by apply counts_kept_refl.
    + eapply counts_kept_trans; [apply counts_kept_updateChannelState|].
      by apply counts_kept_refl.
    + eapply counts_kept_trans; [apply counts_kept_updateChannelState|].
      by apply counts_kept_refl.
  - apply Hkept; [done|]. apply counts_kept_leaveChannel.
  - apply Hkept; [done|]. apply counts_kept_refl. unfold sendMessage.
    by destruct (channels st !! tp0).
  - destruct ack; simpl; try (apply Hkept; [done|by apply counts_kept_refl]).
    unfold incrementMessageCount. case_bool_decide as Htp.
    + subst tp0. rewrite Hs. simpl. rewrite lookup_insert_eq. eexists. split; [done|].
      simpl. lia.
    + destruct (channelStates st !! tp0) as [s0|]; simpl.
      * rewrite lookup_insert_ne by done. exists state. split; [done|lia].
      * exists state. split; [done|lia].
  - apply Hkept; [done|]. apply counts_kept_refl. unfold onMessage.
    destruct (channels st !! tp0); [|done]. case_decide; [done|].
    by destruct (set_has _ _).
  - apply Hkept; [done|]. apply counts_kept_refl. unfold offMessage.
    destruct (messageListeners st !! tp0) as [tl|]; [|done].
    destruct (tl !! event); [|done]. by destruct (channels st !! tp0).
  - done.
  - apply Hkept; [done|]. unfold channel_error. apply counts_kept_fold.
    intros h s. unfold error_handler.
    eapply counts_kept_trans; [apply counts_kept_updateChannelState|].
    by apply counts_kept_refl.
  - apply Hkept; [done|]. unfold channel_close. apply counts_kept_fold.
    intros h s. unfold close_handler.
    eapply counts_kept_trans; [apply counts_kept_updateChannelState|].
    by apply counts_kept_refl.
Qed.

(** X8 (incrementMessageCount, updateChannelState): the message count of a
    topic counts the pushes acknowledged with ok. Over every sequence of
    operations without [cleanup], the topic keeps its [ChannelState] and its
    count grows by exactly the number of ok acknowledgments for the topic:
    joining, leaving and joining again, errors and closes do not reset it. An
    ok acknowledgment for a topic that has no [ChannelState] is not counted
    and creates none. *)
Theorem messageCount_counts_ok_acks st tp state ops :
  Cleanup ∉ ops →
  getChannelState tp st = Some state →
  (∃ state', getChannelState tp (run ops st) = Some state'
     ∧ messageCount state' = messageCount state + okAcks tp ops)
  ∧ (∀ other response, getChannelState other st = None →
       sendMessage_settle other (push_ok response) st = (st, SendResolved response)).
Proof.
  intros Hops Hs. split.
  - revert st state Hops Hs. induction ops as [|op ops IH]; intros st state Hops Hs.
    + exists state. split; [done|]. unfold okAcks; simpl. lia.
    + apply not_elem_of_cons in Hops as [Hop Hops].
      destruct (messageCount_step op st tp state ltac:(congruence) Hs) as (s1 & Hs1 & Hm1).
      destruct (IH (step st op) s1 Hops Hs1) as (s2 & Hs2 & Hm2).
      exists s2. split; [done|]. rewrite Hm2, Hm1. unfold okAcks.
      rewrite filter_cons. destruct (is_okAck tp op); simpl; lia.
  - intros other response Hn. unfold sendMessage_settle, incrementMessageCount.
    unfold getChannelState in Hn. by rewrite Hn.
Qed.

Lemma messageCount_counts_ok_acks_witness :
  let st := run (joinedTopics 1) (init (Some 0)) in
  let ops := [SendMessage "room:00" "msg" "a"; SendSettled "room:00" (push_ok "ok");
              LeaveChannel "room:00"; JoinChannel "room:00" no_options;
              SendMessage "room:00" "msg" "b"; SendSettled "room:00" (push_ok "ok");
              SendSettled "room:00" push_timeout] in
  (Cleanup ∉ ops)
  ∧ (messageCount <$> getChannelState "room:00" st) = Some 0
  ∧ (messageCount <$> getChannelState "room:00" (run ops st)) = Some 2.
Proof.
  intros st ops.
  assert (Hops : Cleanup ∉ ops).
  { intros Hin. repeat (apply elem_of_cons in Hin as [Hin|Hin]; [done|]).
    by apply elem_of_nil in Hin. }
  destruct (getChannelState "room:00" st) as [state|] eqn:Hs; [|by vm_compute in Hs].
  assert (Hz : messageCount state = 0).
  { vm_compute in Hs. by injection Hs as <-. }
  destruct (messageCount_counts_ok_acks st "room:00" state ops Hops Hs)
    as ((state' & Hs' & Hm) & _).
  split_and!; [done|simpl; by rewrite Hz|].
  rewrite Hs'. simpl. rewrite Hm, Hz. done.
Defined.

End ChannelListeners.

(** ** Event bus: unsubscribing *)

Section EventBusUnsubscribe.
Import Js EventBus BusOps.

Lemma emit_emitter_off event handler (listeners : gmap string (list nat)) event' :
  emitter_emit event' (emitter_off event handler listeners)
  = if decide (event' = event)
    then set_delete handler (emitter_emit event listeners)
    else emitter_emit event' listeners.
Proof.
  unfold emitter_emit, emitter_off.
  destruct (decide (event' = event)) as [->|Hne].
  - destruct (listeners !! event) as [handlers|] eqn:Hh.
    + case_bool_decide as Hlen.
      * rewrite lookup_delete_eq. by rewrite (nil_length_inv _ Hlen).
      * by rewrite lookup_insert_eq.
    + by rewrite Hh.
  - destruct (listeners !! event) as [handlers|] eqn:Hh; [|done].
    case_bool_decide; by rewrite ?lookup_delete_ne, ?lookup_insert_ne.
Qed.

Lemma emit_emitter_on event handler (listeners : gmap string (list nat)) event' :
  emitter_emit event' (emitter_on event handler listeners)
  = if decide (event' = event)
    then set_add handler (emitter_emit event listeners)
    else emitter_emit event' listeners.
Proof.
  rewrite emitter_on_insert. unfold emitter_emit.
  destruct (decide (event' = event)) as [->|Hne].
  - rewrite lookup_insert_eq. by destruct (listeners !! event).
  - by rewrite lookup_insert_ne.
Qed.

Lemma emit_off event handler m e :
  emit e (off event handler m)
  = if decide (e = event) then set_delete handler (emit event m) else emit e m.
Proof. apply emit_emitter_off. Qed.

Lemma currentCount_off event handler m event' :
  currentCount event' (off event handler m)
  = if decide (event' = event) then currentCount event m - 1 else currentCount event' m.
Proof.
  unfold off, currentCount; simpl.
  destruct (decide (0 < default 0 (listenerCounts m !! event))) as [Hpos|Hpos].
  - destruct (decide (event' = event)) as [->|Hne].
    + by rewrite lookup_insert_eq.
    + by rewrite lookup_insert_ne.
  - destruct (decide (event' = event)) as [->|Hne]; [|done]. lia.
Qed.

Lemma currentCount_on_other event handler m event' :
  currentCount event' (on event handler m)
  = if decide (event' = event ∧ currentCount event m < maxListenersPerEvent)
    then currentCount event m + 1 else currentCount event' m.
Proof.
  unfold on. case_decide as Hcap.
  - rewrite decide_False by lia. done.
  - unfold currentCount at 1; simpl.
    destruct (decide (event' = event)) as [->|Hne].
    + rewrite lookup_insert_eq. by rewrite decide_True by (split; [done|lia]).
    + rewrite lookup_insert_ne by done. by rewrite decide_False by tauto.
Qed.

(** X9 (PhoenixEventManager.off): [off] lowers the count of the event by one
    (not below zero) whether or not the handler was subscribed. Removing a
    handler that is not subscribed therefore leaves every handler in place,
    still called on emit, while the count of the event drops. *)
Theorem off_counts_unsubscribed_handler m event handler :
  handler ∉ emit event m →
  let m' := off event handler m in
  (∀ e, emit e m' = emit e m)
  ∧ currentCount event m' = currentCount event m - 1
  ∧ (∀ e, e ≠ event → currentCount e m' = currentCount e m)
  ∧ (currentCount event m = 1 → emit event m ≠ [] →
       currentCount event m' = 0 ∧ emit event m' ≠ []).
Proof.
  intros Hnot m'.
  assert (Hemit : ∀ e, emit e m' = emit e m).
  { intros e. unfold m'. rewrite emit_off.
    case_decide as He; [|done]. subst. by apply set_delete_absent. }
  assert (Hcount : currentCount event m' = currentCount event m - 1).
  { unfold m'. by rewrite currentCount_off, decide_True. }
  split_and!; try done.
  - intros e Hne. unfold m'. by rewrite currentCount_off, decide_False.
  - intros H1 Hne. rewrite Hcount, Hemit, H1. done.
Qed.

Lemma off_counts_unsubscribed_handler_witness :
  let m := on CONNECT 1 init in
  (2 ∉ emit CONNECT m)
  ∧ emit CONNECT (off CONNECT 2 m) = [1]
  ∧ currentCount CONNECT (off CONNECT 2 m) = 0.
Proof.
  intros m.
  assert (Hnot : 2 ∉ emit CONNECT m).
  { intros Hin. vm_compute in Hin. apply list_elem_of_singleton in Hin. lia. }
  destruct (off_counts_unsubscribed_handler m CONNECT 2 Hnot) as (Hemit & Hcount & _).
  split_and!; [done|by rewrite Hemit|by rewrite Hcount].
Defined.

Lemma run_churn_S n :
  run (churn (S n)) init = off CONNECT (S n) (on CONNECT n (run (churn n) init)).
Proof.
  unfold churn. rewrite seq_S, fmap_app, join_app. simpl.
  unfold run. by rewrite foldl_app.
Qed.

Lemma run_churn n :
  emit CONNECT (run (churn n) init) = seq 0 n
  ∧ currentCount CONNECT (run (churn n) init) = 0.
Proof.
  induction n as [|n [IHe IHc]]; [done|].
  rewrite run_churn_S.
  set (m := run (churn n) init) in *. clearbody m.
  assert (Hadm : currentCount CONNECT m < maxListenersPerEvent)
    by (rewrite IHc; unfold maxListenersPerEvent; lia).
  assert (Hon : emit CONNECT (on CONNECT n m) = seq 0 n ++ [n]).
  { rewrite (emit_on _ _ _ Hadm).
    replace (default [] (emitter m !! CONNECT)) with (emit CONNECT m)
      by (unfold emit, emitter_emit; by destruct (emitter m !! CONNECT)).
    rewrite IHe. apply set_add_absent.
    intros Hin%elem_of_seq. lia. }
  split.
  - rewrite emit_off, decide_True by done. rewrite Hon, seq_S.
    apply set_delete_absent. rewrite <- seq_S. intros Hin%elem_of_seq. lia.
  - rewrite currentCount_off, decide_True by done.
    rewrite (currentCount_on _ _ _ Hadm), IHc. done.
Qed.

(** X10 (PhoenixEventManager, cap of 20): over every sequence of [on], [off]
    and [clear], the count of an event never exceeds the cap of twenty
    listeners; the cap bounds the count, not the handlers held: for every
    [n] there is a sequence after which the connect event has [n] handlers,
    all called on emit, with a count of zero. *)
Theorem listener_count_capped_handlers_not ops event n :
  currentCount event (run ops init) ≤ maxListenersPerEvent
  ∧ length (emit CONNECT (run (churn n) init)) = n
  ∧ currentCount CONNECT (run (churn n) init) = 0
  ∧ NoDup (emit CONNECT (run (churn n) init)).
Proof.
  split_and!.
  - assert (H : ∀ m, (∀ e, currentCount e m ≤ maxListenersPerEvent) →
                 ∀ e, currentCount e (run ops m) ≤ maxListenersPerEvent).
    { induction ops as [|op ops IH]; intros m Hm e; [apply Hm|].
      simpl. apply IH. intros e'. destruct op; simpl.
      - rewrite currentCount_on_other. case_decide as H; [|apply Hm]. lia.
      - rewrite currentCount_off. case_decide; [|apply Hm].
        pose proof (Hm event0). lia.
      - unfold clear, currentCount; simpl. rewrite lookup_empty. simpl. lia. }
    apply H. intros e. unfold init, currentCount; simpl. rewrite lookup_empty. simpl. lia.
  - destruct (run_churn n) as [-> _]. apply length_seq.
  - apply run_churn.
  - destruct (run_churn n) as [-> _]. apply NoDup_seq.
Qed.

(** X11 (on then off): for a handler that is not subscribed to an event
    whose count is below the cap, [off] after [on] restores the handlers
    called on emit and the count of every event, and the total of
    [getResourceStats]; the event keeps an entry in the counts, so that
    [eventsWithListeners] counts it even when its count is zero. *)
Theorem off_undoes_on m event handler :
  handler ∉ emit event m →
  currentCount event m < maxListenersPerEvent →
  let m' := off event handler (on event handler m) in
  (∀ e, emit e m' = emit e m)
  ∧ (∀ e, currentCount e m' = currentCount e m)
  ∧ totalListeners (getResourceStats m') = totalListeners (getResourceStats m)
  ∧ eventsWithListeners (getResourceStats m')
    = match listenerCounts m !! event with
      | Some _ => eventsWithListeners (getResourceStats m)
      | None => S (eventsWithListeners (getResourceStats m))
      end
  ∧ (listenerCounts m !! event = None → listenerCounts m' !! event = Some 0).
Proof.
  intros Hnot Hadm m'.
  assert (Hem : ∀ e, emit e m' = emit e m).
  { intros e. unfold m'. rewrite emit_off.
    assert (Hon : ∀ e', emit e' (on event handler m)
                        = if decide (e' = event) then set_add handler (emit event m)
                          else emit e' m).
    { intros e'. rewrite on_admitted by done. apply emit_emitter_on. }
    rewrite !Hon. rewrite (decide_True (P := event = event)) by done.
    case_decide as He; [|done]. subst. by apply set_delete_add. }
  assert (Hcounts : listenerCounts m' = <[event := currentCount event m]> (listenerCounts m)).
  { unfold m', off. rewrite (currentCount_on _ _ _ Hadm). simpl.
    rewrite decide_True by lia. rewrite on_admitted by done. simpl.
    rewrite insert_insert_eq. f_equal. lia. }
  clearbody m'. split_and!.
  - done.
  - intros e. unfold currentCount at 1. rewrite Hcounts, lookup_insert.
    case_decide; [by subst|done].
  - unfold getResourceStats; cbn [totalListeners]. rewrite Hcounts.
    pose proof (fold_sum_insert (λ x : nat, x) (listenerCounts m) event
                  (currentCount event m)) as H.
    unfold currentCount in *. destruct (listenerCounts m !! event); simpl in *; lia.
  - unfold getResourceStats; cbn [eventsWithListeners]. rewrite Hcounts, map_size_insert.
    by destruct (listenerCounts m !! event).
  - intros Hn. rewrite Hcounts, lookup_insert_eq. unfold currentCount. by rewrite Hn.
Qed.

Lemma off_undoes_on_witness :
  let m' := off CONNECT 7 (on CONNECT 7 init) in
  (7 ∉ emit CONNECT init)
  ∧ currentCount CONNECT init < maxListenersPerEvent
  ∧ emit CONNECT m' = []
  ∧ totalListeners (getResourceStats m') = 0
  ∧ eventsWithListeners (getResourceStats m') = 1.
Proof.
  intros m'.
  assert (Hnot : 7 ∉ emit CONNECT init).
  { intros Hin. vm_compute in Hin. by apply elem_of_nil in Hin. }
  assert (Hadm : currentCount CONNECT init < maxListenersPerEvent)
    by (vm_compute; lia).
  destruct (off_undoes_on init CONNECT 7 Hnot Hadm) as (Hemit & _ & Htotal & Hevents & _).
  split_and!; [done|done|by rewrite Hemit|by etrans; [exact Htotal|]|
               by etrans; [exact Hevents|]].
Defined.

End EventBusUnsubscribe.

(** ** Connection manager: URL, parameters, storage *)

Section ConnectionParameters.
Import Js Connection.

Lemma list_ascii_of_string_app s1 s2 :
  String.list_ascii_of_string (s1 +:+ s2)
  = String.list_ascii_of_string s1 ++ String.list_ascii_of_string s2.
Proof. induction s1 as [|c s1 IH]; [done|]. simpl. by rewrite IH. Qed.

Lemma string_of_list_ascii_app l1 l2 :
  String.string_of_list_ascii (l1 ++ l2)
  = String.string_of_list_ascii l1 +:+ String.string_of_list_ascii l2.
Proof. induction l1 as [|c l1 IH]; [done|]. simpl. by rewrite IH. Qed.

Lemma strip_suffix_app suffix s : strip_suffix suffix (s +:+ suffix) = s.
Proof.
  unfold strip_suffix. rewrite list_ascii_of_string_app.
  set (l := String.list_ascii_of_string s).
  set (k := String.list_ascii_of_string suffix).
  rewrite length_app. replace (length l + length k - length k) with (length l) by lia.
  rewrite drop_app_length, take_app_length.
  rewrite bool_decide_eq_true_2 by (split; [lia|done]).
  apply String.string_of_list_ascii_of_string.
Qed.

Lemma strip_suffix_other suffix s :
  (∀ pre, s ≠ pre +:+ suffix) → strip_suffix suffix s = s.
Proof.
  intros Hnot. unfold strip_suffix. case_bool_decide as H; [|done].
  destruct H as [Hlen Hdrop]. exfalso.
  set (l := String.list_ascii_of_string s) in *.
  set (k := String.list_ascii_of_string suffix) in *.
  apply (Hnot (String.string_of_list_ascii (take (length l - length k) l))).
  transitivity (String.string_of_list_ascii
                  (take (length l - length k) l ++ drop (length l - length k) l)).
  - rewrite take_drop. unfold l. by rewrite String.string_of_list_ascii_of_string.
  - rewrite string_of_list_ascii_app, Hdrop. unfold k.
    by rewrite String.string_of_list_ascii_of_string.
Qed.

Lemma string_app_assoc (a b c : string) : (a +:+ b) +:+ c = a +:+ (b +:+ c).
Proof.
  induction a as [|x a IH]; [done|].
  change (String x ((a +:+ b) +:+ c) = String x (a +:+ (b +:+ c))). by f_equal.
Qed.

Lemma string_last_char (pre a : string) (x y : ascii) :
  a +:+ String x "" = pre +:+ String y "" → x = y.
Proof.
  intros H. apply (f_equal String.list_ascii_of_string) in H.
  rewrite !list_ascii_of_string_app in H. simpl in H.
  by apply app_inj_tail in H as [_ ?].
Qed.

(** The URL derived from an environment URL. *)
Lemma buildSocketUrl_env p st base :
  truthy (default None (endpoint p)) = None →
  truthy (url (config st)) = None →
  truthy (EDGE_URL (env st)) = Some base
    ∨ (truthy (EDGE_URL (env st)) = None ∧ truthy (SOCKET_EDGE_URL (env st)) = Some base) →
  buildSocketUrl p st
  = inr (strip_suffix "/" (strip_suffix "/api/v1" (replace_scheme base)) +:+ "/socket").
Proof.
  intros He Hu Hbase. unfold buildSocketUrl. rewrite He, Hu.
  destruct Hbase as [->|[-> ->]]; [|done].
  by destruct (truthy (SOCKET_EDGE_URL (env st))).
Qed.

(** X12 (buildSocketUrl): the socket URL is the endpoint of the parameters
    if it is a non-empty string, else the configured url if it is one, else
    it is derived from the environment, [EDGE_URL] before [SOCKET_EDGE_URL];
    with none of them the call fails with "No WebSocket URL configured". The
    derivation turns a leading http or https into wss, removes a final
    /api/v1, then one final slash, and appends /socket: for a host part
    that does not end in a slash, https://H/api/v1, http://H/api/v1 and
    https://H/ all give wss://H/socket, while https://H/api/v1/ gives
    wss://H/api/v1/socket, the slash being removed after /api/v1 was looked
    for. *)
Theorem buildSocketUrl_sources p st :
  (∀ e, truthy (default None (endpoint p)) = Some e → buildSocketUrl p st = inr e)
  ∧ (truthy (default None (endpoint p)) = None →
     (∀ u, truthy (url (config st)) = Some u → buildSocketUrl p st = inr u)
     ∧ (truthy (url (config st)) = None →
        (truthy (EDGE_URL (env st)) = None → truthy (SOCKET_EDGE_URL (env st)) = None →
           buildSocketUrl p st = inl NO_URL)
        ∧ (∀ base host c,
             truthy (EDGE_URL (env st)) = Some base
               ∨ (truthy (EDGE_URL (env st)) = None
                  ∧ truthy (SOCKET_EDGE_URL (env st)) = Some base) →
             c ≠ "/"%char →
             (base = "https://" +:+ host +:+ String c "/api/v1"
                ∨ base = "http://" +:+ host +:+ String c "/api/v1"
                ∨ base = "https://" +:+ host +:+ String c "/" →
              buildSocketUrl p st = inr ("wss://" +:+ host +:+ String c "/socket"))
             ∧ (base = "https://" +:+ host +:+ String c "/api/v1/" →
                buildSocketUrl p st
                = inr ("wss://" +:+ host +:+ String c "/api/v1/socket"))
             ∧ (base = "ws://" +:+ host +:+ String c "/api/v1" →
                buildSocketUrl p st = inr ("ws://" +:+ host +:+ String c "/socket"))))).
Proof.
  split; [intros e He; unfold buildSocketUrl; by rewrite He|].
  intros He. split; [intros u Hu; unfold buildSocketUrl; by rewrite He, Hu|].
  intros Hu. split; [intros H1 H2; unfold buildSocketUrl; by rewrite He, Hu, H1, H2|].
  intros base host c Hbase Hc.
  rewrite (buildSocketUrl_env p st base He Hu Hbase).
  assert (Hno_slash : ∀ scheme pre, scheme +:+ host +:+ String c "" ≠ pre +:+ "/").
  { intros scheme pre H. rewrite <- string_app_assoc in H.
    apply string_last_char in H. done. }
  assert (Hno_api : ∀ scheme tail : string,
            scheme +:+ host +:+ String c tail = (scheme +:+ host +:+ String c "") +:+ tail).
  { intros scheme tail. rewrite !string_app_assoc. done. }
  split_and!.
  - intros [-> | [-> | ->]].
    + change (replace_scheme ("https://" +:+ host +:+ String c "/api/v1"))
        with ("wss://" +:+ host +:+ String c "/api/v1").
      rewrite (Hno_api "wss://" "/api/v1"), strip_suffix_app.
      rewrite strip_suffix_other by apply (Hno_slash "wss://").
      by rewrite !string_app_assoc.
    + change (replace_scheme ("http://" +:+ host +:+ String c "/api/v1"))
        with ("wss://" +:+ host +:+ String c "/api/v1").
      rewrite (Hno_api "wss://" "/api/v1"), strip_suffix_app.
      rewrite strip_suffix_other by apply (Hno_slash "wss://").
      by rewrite !string_app_assoc.
    + change (replace_scheme ("https://" +:+ host +:+ String c "/"))
        with ("wss://" +:+ host +:+ String c "/").
      rewrite (strip_suffix_other "/api/v1").
      * rewrite (Hno_api "wss://" "/"), strip_suffix_app.
        by rewrite !string_app_assoc.
      * intros pre H. rewrite (Hno_api "wss://" "/") in H.
        change (pre +:+ "/api/v1") with (pre +:+ "/api/v" +:+ "1") in H.
        rewrite <- (string_app_assoc pre) in H. apply string_last_char in H. done.
  - intros ->.
    change (replace_scheme ("https://" +:+ host +:+ String c "/api/v1/"))
      with ("wss://" +:+ host +:+ String c "/api/v1/").
    rewrite (strip_suffix_other "/api/v1").
    + rewrite (Hno_api "wss://" "/api/v1/").
      change "/api/v1/" with ("/api/v1" +:+ "/").
      rewrite <- (string_app_assoc _ "/api/v1" "/"), strip_suffix_app.
      by rewrite !string_app_assoc.
    + intros pre H. rewrite (Hno_api "wss://" "/api/v1/") in H.
      change "/api/v1/" with ("/api/v1" +:+ "/") in H.
      rewrite <- (string_app_assoc _ "/api/v1" "/") in H.
      change (pre +:+ "/api/v1") with (pre +:+ "/api/v" +:+ "1") in H.
      rewrite <- (string_app_assoc pre) in H. apply string_last_char in H. done.
  - intros ->.
    change (replace_scheme ("ws://" +:+ host +:+ String c "/api/v1"))
      with ("ws://" +:+ host +:+ String c "/api/v1").
    rewrite (Hno_api "ws://" "/api/v1"), strip_suffix_app.
    rewrite strip_suffix_other by apply (Hno_slash "ws://").
    by rewrite !string_app_assoc.
Qed.


(** The state in which an admitted [connect] waits for the transport. *)
Lemma connect_waiting_socket p st st1 :
  connect p st = (st1, ConnectWaiting) →
  let eff := mergeConnectionParams p st in
  ∃ socketUrl,
    buildSocketUrl eff st = inr socketUrl
    ∧ sockets st1
      = sockets st ++ [{| s_url := socketUrl; s_params := buildSocketParams eff st;
                          s_longPoll := useLongPoll (config st);
                          s_connected := false; s_handlers := true;
                          s_disconnects := [] |}]
    ∧ socket st1 = Some (length (sockets st))
    ∧ connectionParams st1 = Some eff
    ∧ loadConnectionParams st1
      = (if storageAvailable st then
           Some {| endpoint := Some (truthy (default None (endpoint eff)));
                   params := Some (default None (params eff)); extras := ∅ |}
         else None)
    ∧ config st1 = config st ∧ env st1 = env st
    ∧ storageAvailable st1 = storageAvailable st
    ∧ ctorFailure st1 = None ∧ ctorFailure st = None.
Proof.
  unfold connect. destruct (canConnect st) eqn:Hcan; cbn [negb]; [|done].
  set (st0 := updateState _ st).
  change (mergeConnectionParams p st0) with (mergeConnectionParams p st).
  change (buildSocketUrl ?e st0) with (buildSocketUrl e st).
  change (buildSocketParams ?e st0) with (buildSocketParams e st).
  change (ctorFailure st0) with (ctorFailure st).
  intros Hconn. set (eff := mergeConnectionParams p st) in *.
  destruct (buildSocketUrl eff st) as [e|socketUrl] eqn:Hurl; [done|].
  destruct (ctorFailure st) eqn:Hctor; [done|].
  injection Hconn as <-. exists socketUrl. split; [done|].
  assert (Hs0 : sockets st0 = sockets st) by done.
  assert (Hc0 : config st0 = config st) by done.
  assert (He0 : env st0 = env st) by done.
  assert (Ha0 : storageAvailable st0 = storageAvailable st) by done.
  assert (Hf0 : ctorFailure st0 = None) by done.
  clearbody st0.
  set (stc := createSocket socketUrl (buildSocketParams eff st) st0).
  assert (Hsc : sockets stc
    = sockets st ++ [{| s_url := socketUrl; s_params := buildSocketParams eff st;
                        s_longPoll := useLongPoll (config st);
                        s_connected := false; s_handlers := false;
                        s_disconnects := [] |}]).
  { unfold stc, createSocket. cbn [sockets set_socket set_sockets]. by rewrite Hs0, Hc0. }
  assert (Hkc : socket stc = Some (length (sockets st))).
  { unfold stc, createSocket. cbn [socket set_socket set_sockets]. by rewrite Hs0. }
  assert (Hrest : config stc = config st ∧ env stc = env st
            ∧ storageAvailable stc = storageAvailable st ∧ ctorFailure stc = None
            ∧ storedParams stc = storedParams st0) by done.
  clearbody stc.
  set (sth := setupSocketHandlers stc).
  assert (Hsh : sockets sth
    = sockets st ++ [{| s_url := socketUrl; s_params := buildSocketParams eff st;
                        s_longPoll := useLongPoll (config st);
                        s_connected := false; s_handlers := true;
                        s_disconnects := [] |}]).
  { unfold sth, setupSocketHandlers, update_socket. rewrite Hkc, Hsc.
    rewrite list_lookup_middle by done. cbn [sockets set_sockets].
    rewrite insert_app_r_alt by lia. by rewrite Nat.sub_diag. }
  assert (Hkh : socket sth = Some (length (sockets st))).
  { unfold sth, setupSocketHandlers. rewrite Hkc.
    destruct (update_socket_frame (length (sockets st))
      (λ o, {| s_url := s_url o; s_params := s_params o; s_longPoll := s_longPoll o;
               s_connected := s_connected o; s_handlers := true;
               s_disconnects := s_disconnects o |}) stc) as [-> _]. done. }
  assert (Hresth : config sth = config st ∧ env sth = env st
            ∧ storageAvailable sth = storageAvailable st ∧ ctorFailure sth = None).
  { destruct Hrest as (<- & <- & <- & <- & _).
    unfold sth, setupSocketHandlers, update_socket. rewrite Hkc.
    by destruct (sockets stc !! length (sockets st)). }
  clearbody sth. destruct Hresth as (Hc & He & Ha & Hf).
  unfold saveConnectionParams, loadConnectionParams.
  cbn [storageAvailable set_connectionParams].
  rewrite Ha. destruct (storageAvailable st) eqn:Hav.
  - cbn. rewrite ?Hsh, ?Hkh, ?Hc, ?He, ?Ha, ?Hf, ?Hav. split_and!; done.
  - cbn. rewrite ?Hsh, ?Hkh, ?Hc, ?He, ?Ha, ?Hf, ?Hav. split_and!; done.
Qed.

(** X13 (mergeConnectionParams, buildSocketParams): the parameters of the
    socket that an admitted [connect] builds are, key by key, the value given
    in the call, else the value stored by an earlier connect, else the
    configured authentication parameter; the manager keeps the merged
    parameters, and a key once stored is sent on every later connect until
    [reset]. The endpoint of the call wins over the stored one. *)
Theorem connect_params_precedence p st st1 :
  connect p st = (st1, ConnectWaiting) →
  let given := default ∅ (default None (params p)) in
  let stored := default ∅ (default None (params (default empty_params
                                                   (loadConnectionParams st)))) in
  let auth := default ∅ (authParams (config st)) in
  ∃ obj, sockets st1 !! length (sockets st) = Some obj
    ∧ socket st1 = Some (length (sockets st))
    ∧ (∀ key, s_params obj !! key
              = match given !! key with
                | Some v => Some v
                | None => match stored !! key with
                          | Some v => Some v
                          | None => auth !! key
                          end
                end)
    ∧ (∃ eff, connectionParams st1 = Some eff
         ∧ (∀ key, default ∅ (default None (params eff)) !! key
                   = match given !! key with
                     | Some v => Some v
                     | None => stored !! key
                     end)
         ∧ endpoint eff
           = match endpoint p with
             | Some v => Some v
             | None => endpoint (default empty_params (loadConnectionParams st))
             end).
Proof.
  intros Hconn given stored auth.
  destruct (connect_waiting_socket p st st1 Hconn)
    as (socketUrl & _ & Hsockets & Hsock & Hparams & _).
  eexists. split; [rewrite Hsockets; by apply list_lookup_middle|].
  split; [done|]. split.
  - intros key. cbn [s_params]. unfold buildSocketParams, mergeConnectionParams.
    cbn [params default from_option id]. rewrite !lookup_union.
    fold given stored auth.
    destruct (given !! key), (stored !! key), (auth !! key); done.
  - eexists. split; [done|]. split; [|done].
    intros key. unfold mergeConnectionParams. cbn [params default from_option id].
    rewrite lookup_union. fold given stored.
    destruct (given !! key), (stored !! key); done.
Qed.

Lemma connect_params_precedence_witness :
  let st0 := init no_env {| url := None; authParams := Some {["token" := "cfg"; "v" := "1"]};
                            useLongPoll := false; disableLongPollFallback := false |} in
  let st1 := (connect lobby_params st0).1 in
  connect lobby_params st0 = (st1, ConnectWaiting)
  ∧ ∃ obj, sockets st1 !! 0 = Some obj
      ∧ s_params obj !! "token" = Some "abc"
      ∧ s_params obj !! "v" = Some "1".
Proof.
  intros st0 st1.
  assert (Hconn : connect lobby_params st0 = (st1, ConnectWaiting)) by done.
  destruct (connect_params_precedence lobby_params st0 st1 Hconn)
    as (obj & Ho & _ & Hkeys & _).
  split; [done|]. exists obj. split; [exact Ho|].
  split; rewrite Hkeys; by vm_compute.
Defined.


Lemma connect_starts p st socketUrl :
  canConnect st = true →
  buildSocketUrl (mergeConnectionParams p st) st = inr socketUrl →
  ctorFailure st = None →
  ∃ st1, connect p st = (st1, ConnectWaiting).
Proof.
  intros Hcan Hurl Hctor. unfold connect. rewrite Hcan. cbn [negb].
  set (st0 := updateState _ st).
  change (mergeConnectionParams p st0) with (mergeConnectionParams p st).
  change (buildSocketUrl ?e st0) with (buildSocketUrl e st).
  change (ctorFailure st0) with (ctorFailure st).
  rewrite Hurl, Hctor. by eexists.
Qed.

Lemma disconnect_world reason st :
  storageAvailable (disconnect reason st) = storageAvailable st
  ∧ storedParams (disconnect reason st) = storedParams st
  ∧ storedConfig (disconnect reason st) = storedConfig st
  ∧ env (disconnect reason st) = env st
  ∧ ctorFailure (disconnect reason st) = ctorFailure st
  ∧ clock (disconnect reason st) = clock st
  ∧ console (disconnect reason st) = console st.
Proof.
  unfold disconnect. destruct (socket st) as [s|]; [|done].
  unfold update_socket. by destruct (sockets st !! s).
Qed.

Lemma truthy_idemp o : truthy (truthy o) = truthy o.
Proof. by destruct o as [[|]|]. Qed.

(** X14 (saveConnectionParams, loadConnectionParams, mergeConnectionParams):
    the parameters of an admitted [connect] are stored, and read back by the
    next one. With session storage, a [connect] without arguments after a
    disconnect builds a socket with the URL and the parameters of the
    previous one. Without session storage nothing is read back: the merged
    parameters of a later call are those given in the call alone, although
    the manager still holds the previous ones for its reconnect timers. *)
Theorem connect_without_arguments_reuses_stored p st st1 reason :
  connect p st = (st1, ConnectWaiting) →
  let n := length (sockets st) in
  let st2 := disconnect reason st1 in
  (storageAvailable st = true →
     ∃ st3 o1 o3, connect empty_params st2 = (st3, ConnectWaiting)
       ∧ socket st3 = Some (S n)
       ∧ sockets st1 !! n = Some o1 ∧ sockets st3 !! S n = Some o3
       ∧ s_url o3 = s_url o1 ∧ s_params o3 = s_params o1)
  ∧ (storageAvailable st = false →
       (∀ q, mergeConnectionParams q st2
             = {| endpoint := endpoint q;
                  params := Some (Some (default ∅ (default None (params q))));
                  extras := extras q |})
       ∧ connectionParams st2 = Some (mergeConnectionParams p st)).
Proof.
  intros Hconn n st2.
  destruct (connect_waiting_socket p st st1 Hconn)
    as (socketUrl & Hurl & Hsockets & Hsock & Hparams & Hload & Hcfg & Henv & Hav & Hctor & _).
  set (eff := mergeConnectionParams p st) in *.
  destruct (disconnect_spec reason st1)
    as (_ & Hcp2 & Hcfg2 & _ & _ & _ & _ & Hlen2 & _ & Hdis).
  destruct (Hdis _ Hsock) as (Hstat2 & _ & _).
  destruct (disconnect_world reason st1) as (Hav2 & Hsp2 & _ & Henv2 & Hctor2 & _).
  fold st2 in Hcp2, Hcfg2, Hlen2, Hstat2, Hav2, Hsp2, Henv2, Hctor2.
  assert (Hcan2 : canConnect st2 = true) by (apply canConnect_status; by left).
  assert (Hload2 : loadConnectionParams st2 = loadConnectionParams st1).
  { unfold loadConnectionParams. by rewrite Hav2, Hsp2. }
  clearbody st2. split.
  - intros Hst. rewrite Hst in Hload.
    set (eff2 := mergeConnectionParams empty_params st2).
    assert (He2 : endpoint eff2 = Some (truthy (default None (endpoint eff)))).
    { unfold eff2, mergeConnectionParams. by rewrite Hload2, Hload. }
    assert (Hp2 : default ∅ (default None (params eff2))
                  = default ∅ (default None (params eff))).
    { unfold eff2, mergeConnectionParams. rewrite Hload2, Hload. simpl.
      by rewrite (left_id_L ∅ (∪)). }
    assert (Hurl2 : buildSocketUrl eff2 st2 = inr socketUrl).
    { rewrite <- Hurl. unfold buildSocketUrl. rewrite He2. simpl.
      rewrite truthy_idemp. by rewrite Hcfg2, Hcfg, Henv2, Henv. }
    assert (Hbp2 : buildSocketParams eff2 st2 = buildSocketParams eff st).
    { unfold buildSocketParams. by rewrite Hp2, Hcfg2, Hcfg. }
    destruct (connect_starts empty_params st2 socketUrl Hcan2 Hurl2
                ltac:(by rewrite Hctor2)) as (st3 & Hconn3).
    destruct (connect_waiting_socket empty_params st2 st3 Hconn3)
      as (socketUrl3 & Hurl3 & Hsockets3 & Hsock3 & _).
    fold eff2 in Hurl3, Hsockets3. rewrite Hurl2 in Hurl3. injection Hurl3 as <-.
    assert (Hn2 : length (sockets st2) = S n).
    { rewrite Hlen2, Hsockets, length_app. simpl. unfold n. lia. }
    eexists st3, _, _. split; [done|]. split; [by rewrite Hsock3, Hn2|].
    split; [rewrite Hsockets; by apply list_lookup_middle|].
    split; [rewrite Hsockets3, <- Hn2; by apply list_lookup_middle|].
    split; [done|]. simpl. by rewrite Hbp2.
  - intros Hst. rewrite Hst in Hload. split; [|by rewrite Hcp2].
    intros q. unfold mergeConnectionParams. rewrite Hload2, Hload. simpl.
    rewrite !(right_id_L ∅ (∪)). by destruct (endpoint q).
Qed.

Lemma connect_without_arguments_reuses_stored_witness :
  let st := init no_env plain_config in
  let st1 := (connect lobby_params st).1 in
  let st2 := disconnect None st1 in
  connect lobby_params st = (st1, ConnectWaiting)
  ∧ storageAvailable st = true
  ∧ ∃ st3 o3, connect empty_params st2 = (st3, ConnectWaiting)
      ∧ sockets st3 !! 1 = Some o3
      ∧ s_url o3 = "wss://x/socket"
      ∧ s_params o3 !! "token" = Some "abc".
Proof.
  intros st st1 st2.
  assert (Hconn : connect lobby_params st = (st1, ConnectWaiting)) by done.
  destruct (connect_without_arguments_reuses_stored lobby_params st st1 None Hconn)
    as (Hstored & _).
  destruct (Hstored eq_refl) as (st3 & o1 & o3 & Hc3 & _ & Ho1 & Ho3 & Hu & Hp).
  split; [done|]. split; [done|]. exists st3, o3.
  assert (H1 : o1 = {| s_url := "wss://x/socket"; s_params := {["token" := "abc"]};
                       s_longPoll := false; s_connected := false; s_handlers := true;
                       s_disconnects := [] |}).
  { vm_compute in Ho1. by injection Ho1 as <-. }
  split_and!; [exact Hc3|exact Ho3|by rewrite Hu, H1|by rewrite Hp, H1].
Defined.

End ConnectionParameters.

(** ** Connection manager: disconnect, reset, transport events *)

Section ConnectionLifecycle.
Import Js Connection.

(** X15 (disconnect): without a socket [disconnect] does nothing, not even
    a state-change notification. With one, it asks the transport to
    disconnect with the reason given ("Client disconnect" when none or an
    empty one is given), drops the socket, records status disconnected with
    the time, and notifies once; it emits no event and keeps the failure
    count, the last error, the time of the last connection, the stored
    parameters and the timers. A second [disconnect] changes nothing. *)
Theorem disconnect_drops_socket reason st :
  let st' := disconnect reason st in
  socket st' = None
  ∧ (socket st = None → st' = st)
  ∧ (∀ s, socket st = Some s →
       connectionState st'
       = {| status := disconnected;
            lastConnected := lastConnected (connectionState st);
            lastDisconnected := Some (clock st);
            reconnectAttempts := reconnectAttempts (connectionState st);
            lastError := lastError (connectionState st) |}
       ∧ notified st' = notified st ++ [connectionState st']
       ∧ (s_disconnects <$> sockets st' !! s)
         = (λ o, s_disconnects o ++ [default "Client disconnect" (truthy reason)])
             <$> sockets st !! s
       ∧ (∀ i, i ≠ s → sockets st' !! i = sockets st !! i)
       ∧ canConnect st' = true ∧ isConnected st' = false)
  ∧ emitted st' = emitted st
  ∧ timers st' = timers st
  ∧ connectionParams st' = connectionParams st
  ∧ config st' = config st
  ∧ (∀ reason', disconnect reason' st' = st').
Proof.
  intros st'.
  destruct (disconnect_spec reason st)
    as (Hs & Hcp & Hcfg & Ht & He & _ & _ & _ & Hnone & Hsome).
  fold st' in Hs, Hcp, Hcfg, Ht, He, Hnone, Hsome.
  split_and!; try done.
  - intros s Hsock. destruct (Hsome s Hsock) as (Hst & Hnot & Hdis).
    assert (Hcs : connectionState st'
       = {| status := disconnected;
            lastConnected := lastConnected (connectionState st);
            lastDisconnected := Some (clock st);
            reconnectAttempts := reconnectAttempts (connectionState st);
            lastError := lastError (connectionState st) |}).
    { unfold st', disconnect. rewrite Hsock.
      destruct (update_socket_frame s
        (λ o, {| s_url := s_url o; s_params := s_params o; s_longPoll := s_longPoll o;
                 s_connected := s_connected o; s_handlers := s_handlers o;
                 s_disconnects := s_disconnects o
                                  ++ [default "Client disconnect" (truthy reason)] |}) st)
        as (_ & Hcs & _). cbn. by rewrite Hcs. }
    split_and!; try done.
    + intros i Hi. unfold st', disconnect. rewrite Hsock. cbn.
      rewrite sockets_update_socket. by rewrite decide_False.
    + apply canConnect_status. by left.
    + unfold isConnected, socket_isConnected. by rewrite Hs.
  - intros reason'. unfold disconnect at 1. by rewrite Hs.
Qed.

Lemma reset_spec st :
  connectionState (reset st)
  = {| status := disconnected; lastConnected := None; lastDisconnected := None;
       reconnectAttempts := 0; lastError := None |}
  ∧ socket (reset st) = None
  ∧ connectionParams (reset st) = None
  ∧ loadConnectionParams (reset st) = None
  ∧ config (reset st) = config st
  ∧ timers (reset st) = timers st
  ∧ env (reset st) = env st
  ∧ sockets (reset st) = sockets (disconnect (Some "Reset") st)
  ∧ storageAvailable (reset st) = storageAvailable st
  ∧ storedConfig (reset st) = storedConfig st.
Proof.
  destruct (disconnect_spec (Some "Reset") st)
    as (Hs & _ & Hcfg & Ht & _ & _ & _ & _ & _ & Hsome).
  destruct (disconnect_world (Some "Reset") st) as (Hav & _ & Hsc & Henv & _).
  unfold reset.
  set (st1 := disconnect (Some "Reset") st) in *. clearbody st1.
  unfold loadConnectionParams, clearConnectionParams. cbn.
  destruct (storageAvailable st1) eqn:E; cbn; rewrite ?E, ?Hs, ?Hcfg, ?Ht, ?Henv, ?Hsc;
    split_and!; done.
Qed.

(** X16 (reset): after [reset] the manager is as new, whatever it was
    before: status disconnected, no failure counted, no error, no dates, no
    socket, no parameters in memory or in the session storage. The
    configuration and the timers already set are kept, but a reconnect timer
    that fires afterwards finds no parameters and does nothing, and a later
    [connect] uses only what the call gives: with no URL configured and none
    given it is rejected. *)
Theorem reset_forgets_connection st :
  let st' := reset st in
  connectionState st'
  = {| status := disconnected; lastConnected := None; lastDisconnected := None;
       reconnectAttempts := 0; lastError := None |}
  ∧ socket st' = None
  ∧ connectionParams st' = None
  ∧ loadConnectionParams st' = None
  ∧ canConnect st' = true
  ∧ isConnected st' = false
  ∧ config st' = config st
  ∧ timers st' = timers st
  ∧ (∀ t, fire t st' = (st', None))
  ∧ (∀ q, mergeConnectionParams q st'
          = {| endpoint := endpoint q;
               params := Some (Some (default ∅ (default None (params q))));
               extras := extras q |})
  ∧ (∀ s, socket st = Some s →
       (s_disconnects <$> sockets st' !! s)
       = (λ o, s_disconnects o ++ ["Reset"]) <$> sockets st !! s)
  ∧ (truthy (url (config st)) = None → truthy (EDGE_URL (env st)) = None →
     truthy (SOCKET_EDGE_URL (env st)) = None →
     (connect empty_params st').2 = ConnectRejected NO_URL).
Proof.
  intros st'.
  destruct (reset_spec st) as (Hcs & Hsock & Hcp & Hload & Hcfg' & Ht' & Henv' & Hss & _).
  destruct (disconnect_spec (Some "Reset") st)
    as (_ & _ & _ & _ & _ & _ & _ & _ & _ & Hsome).
  fold st' in Hcs, Hsock, Hcp, Hload, Hcfg', Ht', Henv', Hss. clearbody st'.
  assert (Hcan : canConnect st' = true) by (apply canConnect_status; left; by rewrite Hcs).
  assert (Hmerge : ∀ q, mergeConnectionParams q st'
          = {| endpoint := endpoint q;
               params := Some (Some (default ∅ (default None (params q))));
               extras := extras q |}).
  { intros q. unfold mergeConnectionParams. rewrite Hload. simpl.
    rewrite !(right_id_L ∅ (∪)). by destruct (endpoint q). }
  split_and!; try done.
  - unfold isConnected, socket_isConnected. by rewrite Hsock.
  - intros []. unfold fire. by rewrite Hcp.
  - intros s Hsk. rewrite Hss. by destruct (Hsome s Hsk) as (_ & _ & ->).
  - intros Hu He1 He2. apply connect_url_failure; [done|].
    rewrite Hmerge. unfold buildSocketUrl. simpl. by rewrite Hcfg', Henv', Hu, He1, He2.
Qed.

Lemma forceReconnect_attempts st :
  reconnectAttempts (connectionState (forceReconnect st)) = 0
  ∨ reconnectAttempts (connectionState (forceReconnect st))
    = reconnectAttempts (connectionState st).
Proof. unfold forceReconnect. case_decide; [by right|by left]. Qed.

(** X17 (reconnectAttempts): the failure count is raised only by the catch
    block of [connect], by one per rejected call. No report of the transport
    (open, close, error, the poll-status fault included), no [disconnect],
    [forceReconnect], [updateConfig] or [reset] raises it: each leaves it as
    it is or sets it to zero. *)
Theorem reconnectAttempts_raised_only_by_failed_connect st :
  let attempts s := reconnectAttempts (connectionState s) in
  (∀ ev, attempts (socket_event ev st) = attempts st ∨ attempts (socket_event ev st) = 0)
  ∧ (∀ reason, attempts (disconnect reason st) = attempts st)
  ∧ (attempts (forceReconnect st) = attempts st ∨ attempts (forceReconnect st) = 0)
  ∧ (∀ u, attempts (updateConfig u st) = attempts st)
  ∧ attempts (reset st) = 0
  ∧ (∀ p st' outcome, connect p st = (st', outcome) →
       match outcome with
       | ConnectRejected _ => attempts st' = S (attempts st)
       | _ => attempts st' = attempts st
       end)
  ∧ (∀ r, attempts (connect_settle r st).1
          = match r with WaitConnected => attempts st | _ => S (attempts st) end).
Proof.
  intros attempts. unfold attempts. split_and!.
  - intros [s|s|s ev]; simpl.
    + destruct (has_handlers s st).
      * right. apply onOpen_spec.
      * left. by destruct (update_socket_frame s (set_connected true) st) as (_ & -> & _).
    + destruct (has_handlers s st).
      * left. destruct (onClose_frame (update_socket s (set_connected false) st)) as [-> _].
        by destruct (update_socket_frame s (set_connected false) st) as (_ & -> & _).
      * left. by destruct (update_socket_frame s (set_connected false) st) as (_ & -> & _).
    + left. destruct (has_handlers s st); [|done]. apply handleSocketError_frame.
  - intros reason. apply disconnect_spec.
  - destruct (forceReconnect_attempts st); [by right|by left].
  - intros u. unfold updateConfig, saveConfig. cbn. by destruct (storageAvailable st).
  - by destruct (reset_spec st) as [-> _].
  - intros p st' outcome Hc. destruct outcome as [s|e|].
    + unfold connect in Hc. destruct (canConnect st); cbn [negb] in Hc.
      * destruct (buildSocketUrl _ _); [done|]. by destruct (ctorFailure _).
      * by injection Hc as <-.
    + destruct (connect_rejected p st st' e Hc) as (st0 & -> & <-).
      apply handleConnectionError_spec.
    + by destruct (connect_waiting p st st' Hc) as (_ & _ & -> & _).
  - intros r. destruct r; try done; unfold connect_settle, connect_catch;
      cbn [fst]; apply handleConnectionError_spec.
Qed.

Lemma onClose_spec st :
  emitted (onClose st) = emitted st ++ [(EventBus.DISCONNECT, "Socket closed")]
  ∧ status (connectionState (onClose st))
    = match status (connectionState st) with
      | connected => reconnecting
      | connecting => disconnected
      | other => other
      end
  ∧ (status (connectionState st) = connected →
       lastDisconnected (connectionState (onClose st)) = Some (clock st)).
Proof.
  unfold onClose. destruct (status (connectionState st)) eqn:E.
  - rewrite !bool_decide_eq_false_2 by done. split_and!; [done|exact E|done].
  - rewrite bool_decide_eq_false_2 by done. rewrite bool_decide_eq_true_2 by done. done.
  - rewrite bool_decide_eq_true_2 by done. done.
  - rewrite !bool_decide_eq_false_2 by done. split_and!; [done|exact E|done].
  - rewrite !bool_decide_eq_false_2 by done. split_and!; [done|exact E|done].
Qed.

(** X18 (onClose, onOpen): when the transport reports that the socket of a
    connected manager closed, the status becomes reconnecting with the time
    of the loss, one disconnect event is emitted, and [connect] calls are
    answered with the socket held, without a new attempt; when it reports the
    socket open again, the status is connected, the failure count zero, and
    the event emitted is the reconnect event, not the connect event, which is
    emitted for an open that does not follow a loss. A close while connecting
    gives status disconnected; in any other status a close changes no status
    but still emits the disconnect event. *)
Theorem close_then_open_reports_reconnect st s :
  has_handlers s st = true →
  let st1 := socket_event (Closed s) st in
  let st2 := socket_event (Opened s) st1 in
  emitted st1 = emitted st ++ [(EventBus.DISCONNECT, "Socket closed")]
  ∧ status (connectionState st1)
    = match status (connectionState st) with
      | connected => reconnecting
      | connecting => disconnected
      | other => other
      end
  ∧ (status (connectionState st) = connected →
       lastDisconnected (connectionState st1) = Some (clock st)
       ∧ canConnect st1 = false
       ∧ (∀ p, connect p st1 = (st1, ConnectResolved (socket st1)))
       ∧ status (connectionState st2) = connected
       ∧ reconnectAttempts (connectionState st2) = 0
       ∧ lastError (connectionState st2) = None
       ∧ emitted st2 = emitted st ++ [(EventBus.DISCONNECT, "Socket closed");
                                       (EventBus.RECONNECT, "")])
  ∧ (status (connectionState st) ≠ reconnecting →
       emitted (socket_event (Opened s) st) = emitted st ++ [(EventBus.CONNECT, "")]
       ∧ status (connectionState (socket_event (Opened s) st)) = connected).
Proof.
  intros Hh st1 st2.
  set (stc := update_socket s (set_connected false) st).
  destruct (update_socket_frame s (set_connected false) st)
    as (Hsk & Hcs & _ & _ & _ & Hem & _ & Hclk & _).
  fold stc in Hsk, Hcs, Hem, Hclk.
  assert (H1 : st1 = onClose stc) by (unfold st1; simpl; by rewrite Hh).
  assert (Hhc : has_handlers s stc = true)
    by (unfold stc; by rewrite has_handlers_set_connected).
  clearbody stc. clearbody st1.
  destruct (onClose_spec stc) as (Hem1 & Hst1 & Hld1).
  rewrite <- H1 in Hem1, Hst1, Hld1. rewrite Hem in Hem1. rewrite Hcs in Hst1, Hld1.
  rewrite Hclk in Hld1.
  split_and!; try done.
  - intros Hconn. rewrite Hconn in Hst1.
    assert (Hh1 : has_handlers s st1 = true).
    { rewrite H1. unfold has_handlers.
      destruct (onClose_frame stc) as (_ & _ & ->). exact Hhc. }
    assert (Hcan : canConnect st1 = false).
    { unfold canConnect. by rewrite Hst1. }
    set (sto := update_socket s (set_connected true) st1).
    destruct (update_socket_frame s (set_connected true) st1)
      as (_ & Hcs2 & _ & _ & _ & Hem2 & _).
    fold sto in Hcs2, Hem2.
    assert (H2 : st2 = onOpen sto) by (unfold st2; simpl; by rewrite Hh1).
    clearbody sto. clearbody st2.
    destruct (onOpen_spec sto) as (Ho1 & Ho2 & Ho3 & _ & _ & Ho6).
    rewrite <- H2 in Ho1, Ho2, Ho3, Ho6.
    split_and!; try done.
    + by apply Hld1.
    + intros p. by apply connect_guarded.
    + rewrite Ho6, Hcs2, Hst1, Hem2, Hem1. cbn. by rewrite <- app_assoc.
  - intros Hnr. simpl. rewrite Hh.
    set (sto := update_socket s (set_connected true) st).
    destruct (update_socket_frame s (set_connected true) st)
      as (_ & Hcs2 & _ & _ & _ & Hem2 & _).
    fold sto in Hcs2, Hem2. clearbody sto.
    destruct (onOpen_spec sto) as (Ho1 & _ & _ & _ & _ & Ho6).
    split; [|done]. rewrite Ho6, Hcs2, Hem2.
    by rewrite bool_decide_eq_false_2.
Qed.

Lemma close_then_open_reports_reconnect_witness :
  let st := from_option fst (init no_env plain_config) connected_state in
  has_handlers 0 st = true
  ∧ status (connectionState st) = connected
  ∧ status (connectionState (socket_event (Closed 0) st)) = reconnecting
  ∧ emitted (socket_event (Opened 0) (socket_event (Closed 0) st))
    = emitted st ++ [(EventBus.DISCONNECT, "Socket closed"); (EventBus.RECONNECT, "")].
Proof.
  intros st.
  assert (Hh : has_handlers 0 st = true) by (by vm_compute).
  assert (Hc : status (connectionState st) = connected) by (by vm_compute).
  destruct (close_then_open_reports_reconnect st 0 Hh) as (_ & Hst & Hcyc & _).
  destruct (Hcyc Hc) as (_ & _ & _ & _ & _ & _ & Hem).
  split_and!; [done|done| |exact Hem].
  rewrite Hst. by rewrite Hc.
Defined.

(** X19 (handleSocketError): an error of the transport whose message does
    not contain "unhandled poll status" sets the status to error with that
    error, unless the manager is reconnecting, and emits one error event; it
    counts no failure, sets no timer, and keeps the socket. From the error
    status [connect] is admitted again: it builds a new socket and takes it
    in place of the one held, to which no disconnect request is made. An
    error value without message and without text reads "Unknown error". *)
Theorem socket_error_sets_error_status st ev :
  includes (errorMessage ev) "unhandled poll status" = false →
  let st' := handleSocketError ev st in
  status (connectionState st')
  = (if bool_decide (status (connectionState st) = reconnecting)
     then reconnecting else error)
  ∧ emitted st' = emitted st ++ [(EventBus.ERROR, "socket")]
  ∧ reconnectAttempts (connectionState st') = reconnectAttempts (connectionState st)
  ∧ socket st' = socket st ∧ sockets st' = sockets st
  ∧ timers st' = timers st ∧ config st' = config st
  ∧ (status (connectionState st) ≠ reconnecting →
       lastError (connectionState st') = Some (createError (errorMessage ev) None)
       ∧ canConnect st' = true
       ∧ ∀ p st1, connect p st' = (st1, ConnectWaiting) →
           socket st1 = Some (length (sockets st))
           ∧ ∀ i, i < length (sockets st) → sockets st1 !! i = sockets st !! i)
  ∧ (truthy (ev_message ev) = None → truthy (ev_toString ev) = None →
       errorMessage ev = "Unknown error").
Proof.
  intros Hmsg st'.
  assert (Hst' : st' = emit EventBus.ERROR "socket"
    (if bool_decide (status (connectionState st) ≠ reconnecting) then
       updateState
         {| u_status := Some error; u_lastConnected := None;
            u_lastDisconnected := None; u_reconnectAttempts := None;
            u_error := Some (Some (createError (errorMessage ev) None)) |} st
     else st)).
  { unfold st', handleSocketError. by rewrite Hmsg. }
  clearbody st'. subst st'.
  destruct (decide (status (connectionState st) = reconnecting)) as [Hr|Hr].
  - rewrite bool_decide_eq_false_2 by (intros H; by apply H).
    rewrite bool_decide_eq_true_2 by done. split_and!; try done.
    intros e1 e2. unfold errorMessage. by rewrite e1, e2.
  - rewrite bool_decide_eq_true_2 by done. rewrite bool_decide_eq_false_2 by done.
    split_and!; try done.
    + intros _. split_and!; try done.
      intros p st1 Hconn.
      destruct (connect_waiting_socket p _ st1 Hconn) as (u & _ & Hss & Hsk & _).
      cbn in Hss, Hsk. split; [done|].
      intros i Hi. rewrite Hss. by apply lookup_app_l.
    + intros e1 e2. unfold errorMessage. by rewrite e1, e2.
Qed.

Lemma socket_error_sets_error_status_witness :
  let st := from_option fst (init no_env plain_config) connected_state in
  let ev := {| ev_message := Some "network down"; ev_toString := None |} in
  includes (errorMessage ev) "unhandled poll status" = false
  ∧ status (connectionState (handleSocketError ev st)) = error
  ∧ emitted (handleSocketError ev st) = emitted st ++ [(EventBus.ERROR, "socket")].
Proof.
  intros st ev.
  assert (Hmsg : includes (errorMessage ev) "unhandled poll status" = false)
    by (by vm_compute).
  destruct (socket_error_sets_error_status st ev Hmsg) as (Hst & Hem & _).
  split_and!; [done| |exact Hem].
  rewrite Hst. by vm_compute.
Defined.

End ConnectionLifecycle.

(** ** Utilities *)

Section UtilityFacts.
Import Js Utils LegacyTiming.

(** X20 (calculateBackoffDelay): for a positive base delay the reconnect
    delay is positive, never exceeds 30 seconds, never decreases with the
    number of attempts, doubles from one attempt to the next until it
    reaches the 30 seconds, and equals [baseDelay * 2 ^ attempt] below them.
    With the default base of one second, which is what the connection
    manager gives the transport, it is [1000 * 2 ^ tries] for up to four
    tries and 30000 from the fifth on. *)
Theorem backoff_delay_doubles_up_to_cap attempt baseDelay :
  (0 < baseDelay)%Z →
  (0 < calculateBackoffDelay attempt baseDelay ≤ 30000)%Z
  ∧ (∀ later, attempt ≤ later →
       (calculateBackoffDelay attempt baseDelay ≤ calculateBackoffDelay later baseDelay)%Z)
  ∧ calculateBackoffDelay (S attempt) baseDelay
    = Z.min (2 * calculateBackoffDelay attempt baseDelay) 30000
  ∧ ((baseDelay * 2 ^ Z.of_nat attempt ≤ 30000)%Z →
       calculateBackoffDelay attempt baseDelay = (baseDelay * 2 ^ Z.of_nat attempt)%Z)
  ∧ reconnectAfterMs attempt
    = (if decide (attempt ≤ 4)%nat then 1000 * 2 ^ Z.of_nat attempt else 30000)%Z.
Proof.
  intros Hbase. unfold reconnectAfterMs, calculateBackoffDelay.
  assert (Hpow : (0 < 2 ^ Z.of_nat attempt)%Z) by (apply Z.pow_pos_nonneg; lia).
  split; [|split; [|split; [|split]]].
  - nia.
  - intros later Hle.
    assert ((2 ^ Z.of_nat attempt ≤ 2 ^ Z.of_nat later)%Z)
      by (apply Z.pow_le_mono_r; lia).
    nia.
  - rewrite Nat2Z.inj_succ, Z.pow_succ_r by lia. lia.
  - lia.
  - case_decide as H4.
    + assert (attempt = 0 ∨ attempt = 1 ∨ attempt = 2 ∨ attempt = 3 ∨ attempt = 4)
        as [->|[->|[->|[->| ->]]]] by lia; done.
    + assert ((2 ^ 5 ≤ 2 ^ Z.of_nat attempt)%Z) by (apply Z.pow_le_mono_r; lia).
      lia.
Qed.

Lemma backoff_delay_doubles_up_to_cap_witness :
  (0 < 1000)%Z
  ∧ calculateBackoffDelay 3 1000 = 8000%Z
  ∧ (calculateBackoffDelay 3 1000 ≤ calculateBackoffDelay 9 1000)%Z
  ∧ reconnectAfterMs 7 = 30000%Z.
Proof.
  destruct (backoff_delay_doubles_up_to_cap 3 1000 ltac:(lia)) as (_ & Hmono & _ & Hexact & _).
  destruct (backoff_delay_doubles_up_to_cap 7 1000 ltac:(lia)) as (_ & _ & _ & _ & Hseven).
  split_and!; [lia|apply Hexact; by vm_compute|apply Hmono; lia|exact Hseven].
Defined.



Lemma includes_char_cons (sep d : ascii) (s : string) :
  includes (String d s) (String sep "") = bool_decide (sep = d) || includes s (String sep "").
Proof.
  cbn [includes startsWith]. destruct (bool_decide (sep = d)); [|done].
  by destruct s.
Qed.

Lemma split_nonempty sep s : split sep s ≠ [].
Proof.
  destruct s as [|c s]; [done|]. cbn [split]. case_decide; [done|].
  by destruct (split sep s).
Qed.

Lemma split_head_cons sep c s :
  c ≠ sep → head (split sep (String c s)) = String c <$> head (split sep s).
Proof.
  intros Hc. cbn [split]. rewrite decide_False by done.
  pose proof (split_nonempty sep s). by destruct (split sep s).
Qed.

(** The first piece of a text that continues after a separator is the first
    piece of the text. *)
Lemma split_head_app sep a b :
  head (split sep (a +:+ String sep b)) = head (split sep a).
Proof.
  induction a as [|c a IH].
  - change ("" +:+ String sep b) with (String sep b). cbn [split].
    by rewrite decide_True.
  - change (String c a +:+ String sep b) with (String c (a +:+ String sep b)).
    destruct (decide (c = sep)) as [->|Hne].
    + cbn [split]. by rewrite !decide_True.
    + by rewrite !split_head_cons, IH.
Qed.

Lemma split_head_whole sep s :
  includes s (String sep "") = false → split sep s = [s].
Proof.
  induction s as [|c s IH]; [done|].
  rewrite includes_char_cons. intros [Hc Hs]%orb_false_iff.
  apply bool_decide_eq_false in Hc. cbn [split].
  rewrite decide_False by congruence. by rewrite (IH Hs).
Qed.

Lemma split_head_shorter sep s piece :
  includes s (String sep "") = true → head (split sep s) = Some piece →
  String.length piece < String.length s.
Proof.
  revert piece. induction s as [|c s IH]; intros piece; [done|].
  rewrite includes_char_cons. destruct (decide (c = sep)) as [->|Hne].
  - intros _. cbn [split]. rewrite decide_True by done. intros [= <-]. simpl. lia.
  - rewrite bool_decide_eq_false_2 by congruence. simpl orb. intros Hs.
    rewrite split_head_cons by done.
    destruct (head (split sep s)) as [p|] eqn:Hp; [|done].
    intros [= <-]. specialize (IH p Hs eq_refl). simpl. lia.
Qed.

Lemma isValidTopic_includes topic :
  isValidTopic topic = true ↔ includes topic ":" = true.
Proof.
  unfold isValidTopic. rewrite andb_true_iff, bool_decide_eq_true. split; [tauto|].
  intros H. split; [|done]. destruct topic; [done|]. simpl. lia.
Qed.

(** X22 (isValidTopic, createChannelKey, parseChannelKey): a topic is valid
    exactly when it contains a colon. The key of a topic is the topic, a
    colon and the text of the parameters; parsing a key cuts it at colons and
    keeps the first two pieces, so the topic read back from the key of a
    topic is the part of the topic before its first colon: it is the topic
    itself exactly when the topic contains no colon, hence for no valid
    topic. For a topic without colon the parameters read back are parsed
    from the text of the parameters cut at its first colon. *)
Theorem parseChannelKey_reads_topic_up_to_colon
    {Params : Type} (stringify : Params → string) (parse : string → option Params)
    (topic : string) (params : option Params) :
  let parsed := parseChannelKey parse (createChannelKey stringify topic params) in
  (isValidTopic topic = true ↔ ∃ pre post, topic = pre +:+ ":" +:+ post)
  ∧ Some (key_topic parsed) = head (split ":" topic)
  ∧ (key_topic parsed = topic ↔ includes topic ":" = false)
  ∧ (isValidTopic topic = true →
       key_topic parsed ≠ topic
       ∧ String.length (key_topic parsed) < String.length topic)
  ∧ (includes topic ":" = false →
       key_params parsed
       = match params with
         | Some ps =>
             match truthy (head (split ":" (stringify ps))) with
             | Some paramsStr => parse paramsStr
             | None => None
             end
         | None => None
         end).
Proof.
  intros parsed.
  set (paramsKey := match params with Some ps => stringify ps | None => "" end).
  assert (Hparts : ∀ i, take 2 (split ":" (topic +:+ ":" +:+ paramsKey)) !! i
                        = if decide (i < 2) then split ":" (topic +:+ ":" +:+ paramsKey) !! i
                          else None).
  { intros i. case_decide; [by rewrite lookup_take_lt|].
    apply lookup_ge_None. rewrite length_take. lia. }
  assert (Htopic : Some (key_topic parsed) = head (split ":" topic)).
  { unfold parsed, parseChannelKey, createChannelKey. fold paramsKey. cbn [key_topic].
    rewrite Hparts, decide_True by lia. rewrite <- head_lookup.
    change (topic +:+ ":" +:+ paramsKey) with (topic +:+ String ":" paramsKey).
    rewrite split_head_app.
    pose proof (split_nonempty ":" topic). by destruct (split ":" topic). }
  split_and!.
  - rewrite isValidTopic_includes. apply includes_spec.
  - done.
  - split.
    + intros Heq. destruct (includes topic ":") eqn:Hinc; [|done].
      pose proof (split_head_shorter ":" topic (key_topic parsed) Hinc (eq_sym Htopic)).
      rewrite Heq in H. lia.
    + intros Hinc. rewrite (split_head_whole _ _ Hinc) in Htopic. by injection Htopic.
  - intros Hvalid%isValidTopic_includes.
    pose proof (split_head_shorter ":" topic (key_topic parsed) Hvalid (eq_sym Htopic)) as Hlt.
    split; [|done]. intros Heq. rewrite Heq in Hlt. lia.
  - intros Hinc. unfold parsed, parseChannelKey, createChannelKey. fold paramsKey.
    cbn [key_params]. rewrite Hparts, decide_True by lia.
    assert (Hsplit : split ":" (topic +:+ ":" +:+ paramsKey) = topic :: split ":" paramsKey).
    { clear -Hinc. induction topic as [|c topic IH].
      - change ("" +:+ ":" +:+ paramsKey) with (String ":" paramsKey). cbn [split].
        by rewrite decide_True.
      - rewrite includes_char_cons in Hinc. apply orb_false_iff in Hinc as [Hc Hs].
        apply bool_decide_eq_false in Hc.
        change (String c topic +:+ ":" +:+ paramsKey)
          with (String c (topic +:+ ":" +:+ paramsKey)).
        cbn [split]. rewrite decide_False by congruence. by rewrite (IH Hs). }
    rewrite Hsplit.
    change ((topic :: split ":" paramsKey) !! 1) with (split ":" paramsKey !! 0).
    rewrite <- head_lookup.
    unfold paramsKey. destruct params as [ps|]; done.
Qed.

End UtilityFacts.

(** ** Session storage helpers *)

Section StorageFacts.
Import Js SessionStorage.

Lemma size_foldr_delete (items : gmap string string) : ∀ keys,
  NoDup keys → (∀ key, key ∈ keys → is_Some (items !! key)) →
  size (foldr delete items keys) + length keys = size items.
Proof.
  induction keys as [|key keys IH]; intros Hnd Hin; [simpl; lia|].
  apply NoDup_cons in Hnd as [Hnot Hnd]. cbn [foldr length].
  rewrite map_size_delete.
  assert (Hsome : is_Some (foldr delete items keys !! key)).
  { rewrite lookup_foldr_delete_not_elem_of by done. apply Hin. by left. }
  destruct Hsome as [v Hv]. rewrite Hv.
  assert (IH' : size (foldr delete items keys) + length keys = size items).
  { apply IH; [done|]. intros k Hk. apply Hin. by right. }
  assert (size (foldr delete items keys) ≠ 0); [|simpl; lia].
  intros Hz%map_size_empty_iff. by rewrite Hz, lookup_empty in Hv.
Qed.

Lemma clearByPattern_spec pattern items :
  ∃ items', clearByPattern pattern (Some items)
            = (size items - size items', Some items')
    ∧ (∀ key, items' !! key = if pattern key then None else items !! key)
    ∧ size items' ≤ size items.
Proof.
  unfold clearByPattern.
  set (keys := filter (λ key, pattern key = true) (map_to_list items).*1).
  assert (Hnd : NoDup keys) by (apply NoDup_filter, NoDup_fst_map_to_list).
  assert (Hin : ∀ key, key ∈ keys ↔ pattern key = true ∧ is_Some (items !! key)).
  { intros key. unfold keys. rewrite list_elem_of_filter, list_elem_of_fmap.
    split.
    - intros [Hp ([k v] & -> & Hkv%elem_of_map_to_list)]. split; [done|by eexists].
    - intros [Hp [v Hv]]. split; [done|]. exists (key, v). split; [done|].
      by apply elem_of_map_to_list. }
  clearbody keys. exists (foldr delete items keys).
  pose proof (size_foldr_delete items keys Hnd (λ k Hk, proj2 (proj1 (Hin k) Hk))) as Hsz.
  split_and!.
  - f_equal. lia.
  - intros key. destruct (pattern key) eqn:Hp.
    + destruct (items !! key) as [v|] eqn:Hv.
      * apply lookup_foldr_delete. apply Hin. split; [done|by eexists].
      * destruct (decide (key ∈ keys)); [by apply lookup_foldr_delete|].
        by rewrite lookup_foldr_delete_not_elem_of.
    + rewrite lookup_foldr_delete_not_elem_of; [done|].
      intros [Hp' _]%Hin. congruence.
  - lia.
Qed.

Lemma startsWith_app_prefix pre s : startsWith (pre +:+ s) pre = true.
Proof. apply startsWith_spec. by exists s. Qed.

(** X23 (clearByPattern, clearPhoenixData): without session storage nothing
    is cleared and the count is zero. With it, [clearPhoenixData] removes
    exactly the keys that start with "phoenix_" and keeps every other key
    with its text; the number it returns is the number of keys removed. The
    keys of the stored configuration, of the stored connection parameters and
    of every channel are among those removed, and a second run removes
    nothing. *)
Theorem clearPhoenixData_removes_prefixed_keys items :
  clearPhoenixData None = (0, None)
  ∧ ∃ items', clearPhoenixData (Some items) = (size items - size items', Some items')
      ∧ size items' ≤ size items
      ∧ (∀ key, items' !! key
                = if startsWith key "phoenix_" then None else items !! key)
      ∧ items' !! CONFIG = None
      ∧ items' !! CONNECTION_PARAMS = None
      ∧ (∀ topic, items' !! createChannelStorageKey topic = None)
      ∧ clearPhoenixData (Some items') = (0, Some items').
Proof.
  split; [done|].
  destruct (clearByPattern_spec (λ key, startsWith key "phoenix_") items)
    as (items' & Hclear & Hlook & Hle).
  exists items'. split_and!.
  - exact Hclear.
  - exact Hle.
  - exact Hlook.
  - by rewrite Hlook.
  - by rewrite Hlook.
  - intros topic. rewrite Hlook. unfold createChannelStorageKey.
    change "phoenix_channel_" with ("phoenix_" +:+ "channel_").
    by rewrite string_app_assoc, startsWith_app_prefix.
  - destruct (clearByPattern_spec (λ key, startsWith key "phoenix_") items')
      as (items'' & Hclear2 & Hlook2 & _).
    unfold clearPhoenixData. rewrite Hclear2.
    assert (items'' = items') as ->; [|f_equal; lia].
    apply map_eq. intros key. rewrite Hlook2, Hlook.
    by destruct (startsWith key "phoenix_").
Qed.

Lemma sanitize_idemp s : sanitize (sanitize s) = sanitize s.
Proof.
  induction s as [|c s IH]; [done|]. cbn [sanitize]. rewrite IH.
  by destruct (isAlphanumeric c) eqn:Hc; rewrite ?Hc.
Qed.

Lemma sanitize_app a b : sanitize (a +:+ b) = sanitize a +:+ sanitize b.
Proof.
  induction a as [|c a IH]; [done|].
  change (String c a +:+ b) with (String c (a +:+ b)). cbn [sanitize]. rewrite IH. done.
Qed.

Lemma sanitize_length s : String.length (sanitize s) = String.length s.
Proof. induction s as [|c s IH]; [done|]. cbn [sanitize String.length]. by rewrite IH. Qed.

Lemma string_length_app (a b : string) :
  String.length (a +:+ b) = String.length a + String.length b.
Proof.
  induction a as [|c a IH]; [done|].
  change (String c a +:+ b) with (String c (a +:+ b)). cbn [String.length]. by rewrite IH.
Qed.

(** X24 (createChannelStorageKey): the storage key of a topic is
    "phoenix_channel_" followed by the topic with every character that is
    neither a letter nor a digit replaced by an underscore. It has sixteen
    characters more than the topic and starts with "phoenix_". Two topics
    have the same key exactly when they are equal after the replacement: a
    topic and its replaced form share a key, and so do two topics that differ
    in one character that is neither a letter nor a digit. *)
Theorem createChannelStorageKey_collisions topic topic' :
  startsWith (createChannelStorageKey topic) "phoenix_" = true
  ∧ String.length (createChannelStorageKey topic) = 16 + String.length topic
  ∧ (createChannelStorageKey topic = createChannelStorageKey topic'
     ↔ sanitize topic = sanitize topic')
  ∧ createChannelStorageKey (sanitize topic) = createChannelStorageKey topic
  ∧ (∀ pre post c d, isAlphanumeric c = false → isAlphanumeric d = false →
       topic = pre +:+ String c post → topic' = pre +:+ String d post →
       createChannelStorageKey topic = createChannelStorageKey topic')
  ∧ (∀ c, isAlphanumeric c = true → sanitize (String c "") = String c "").
Proof.
  unfold createChannelStorageKey. split_and!.
  - change "phoenix_channel_" with ("phoenix_" +:+ "channel_").
    by rewrite string_app_assoc, startsWith_app_prefix.
  - by rewrite string_length_app, sanitize_length.
  - split; [|by intros ->]. intros H. by apply (inj (String.app "phoenix_channel_")) in H.
  - by rewrite sanitize_idemp.
  - intros pre post c d Hc Hd -> ->. f_equal. rewrite !sanitize_app. f_equal.
    cbn [sanitize]. by rewrite Hc, Hd.
  - intros c Hc. cbn [sanitize]. by rewrite Hc.
Qed.

End StorageFacts.

(** ** The client over the two managers *)

Section FacadeFacts.
Import Js.

Lemma cleanup_frame st :
  Channels.Inv st →
  Channels.channels (Channels.cleanup st) = ∅
  ∧ Channels.socket (Channels.cleanup st) = Channels.socket st
  ∧ length (Channels.heap (Channels.cleanup st)) = length (Channels.heap st).
Proof.
  intros HI.
  destruct (leaveChannel_all st (map_to_list (Channels.channels st)).*1 HI
              (NoDup_fst_map_to_list _)) as (_ & _ & _ & _ & _ & Hsock & Hlen).
  split; [done|]. split; [exact Hsock|exact Hlen].
Qed.

(** X25 (PhoenixClient.disconnect): [disconnect] leaves every channel and
    disconnects the socket of the connection manager, but the channel
    manager keeps the socket reference it was given. After [disconnect] no
    channel is registered, the connection manager holds no socket and is not
    connected; a [joinChannel] made then is not rejected for want of a
    socket: it starts a join on a new channel object of the socket
    disconnected. *)
Theorem client_disconnect_keeps_channel_socket client :
  Channels.reachable (Facade.channelManager client) →
  let client' := Facade.disconnect client in
  Channels.getChannelCount (Facade.channelManager client') = 0
  ∧ Connection.socket (Facade.connectionManager client') = None
  ∧ Facade.isConnected client' = false
  ∧ (is_Some (Connection.socket (Facade.connectionManager client)) →
       Facade.getConnectionState client' = Connection.disconnected
       ∧ Facade.canConnect client' = true)
  ∧ Channels.socket (Facade.channelManager client')
    = Channels.socket (Facade.channelManager client)
  ∧ (is_Some (Channels.socket (Facade.channelManager client)) →
       ∀ topic params,
         (Facade.joinChannel topic params client').2
         = Channels.JoinPending (length (Channels.heap (Facade.channelManager client)))
         ∧ (Facade.joinChannel topic params client').2
           ≠ Channels.JoinRejected Channels.SOCKET_NOT_CONNECTED).
Proof.
  intros Hreach client'.
  pose proof (reachable_Inv _ Hreach) as HI.
  destruct (cleanup_frame _ HI) as (Hch & Hsock & Hlen).
  destruct (disconnect_spec (Some "Client disconnect") (Facade.connectionManager client))
    as (Hs & _ & _ & _ & _ & _ & _ & _ & _ & Hsome).
  assert (Hcm : Facade.channelManager client'
                = Channels.cleanup (Facade.channelManager client)) by done.
  assert (Hconn : Facade.connectionManager client'
    = Connection.disconnect (Some "Client disconnect") (Facade.connectionManager client))
    by done.
  clearbody client'.
  assert (Hjoin : is_Some (Channels.socket (Facade.channelManager client)) →
       ∀ topic params,
         (Facade.joinChannel topic params client').2
         = Channels.JoinPending (length (Channels.heap (Facade.channelManager client)))).
  { intros [s Hsk] topic params. unfold Facade.joinChannel. cbn [snd].
    rewrite Hcm. unfold Channels.joinChannel.
    rewrite Hsock, Hsk, Hch, map_size_empty, lookup_empty.
    rewrite decide_False by (unfold Channels.maxChannels; lia).
    destruct (joinChannel_try_new topic
      {| Channels.params := Some params; Channels.onJoin := None;
         Channels.onLeave := None; Channels.onError := None |}
      (Channels.cleanup (Facade.channelManager client))) as (-> & _).
    by rewrite Hlen. }
  split_and!.
  - unfold Channels.getChannelCount. by rewrite Hcm, Hch, map_size_empty.
  - by rewrite Hconn.
  - unfold Facade.isConnected, Connection.isConnected, Connection.socket_isConnected.
    by rewrite Hconn, Hs.
  - intros [s Hsk]. destruct (Hsome s Hsk) as (Hst & _).
    unfold Facade.getConnectionState, Facade.canConnect, Connection.getState.
    rewrite Hconn. split; [done|]. apply canConnect_status. by left.
  - by rewrite Hcm.
  - intros Hsk topic params. split; [by apply Hjoin|].
    by rewrite (Hjoin Hsk topic params).
Qed.

Lemma client_disconnect_keeps_channel_socket_witness :
  let client := Facade.with_channelManager (Channels.run (Channels.joinedTopics 1))
                  Facade.connected_client in
  Channels.getChannelCount (Facade.channelManager client) = 1
  ∧ Facade.isConnected client = true
  ∧ Channels.getChannelCount (Facade.channelManager (Facade.disconnect client)) = 0
  ∧ Connection.socket (Facade.connectionManager (Facade.disconnect client)) = None
  ∧ Channels.socket (Facade.channelManager (Facade.disconnect client)) = Some 0
  ∧ (Facade.joinChannel "room:1" ∅ (Facade.disconnect client)).2 = Channels.JoinPending 1.
Proof.
  intros client.
  assert (Hreach : Channels.reachable (Facade.channelManager client)).
  { exists None, (Channels.SetSocket (Some 0) :: Channels.joinedTopics 1).
    vm_compute. reflexivity. }
  destruct (client_disconnect_keeps_channel_socket client Hreach)
    as (H0 & Hs & _ & _ & Hsock & Hjoin).
  split; [vm_compute; reflexivity|]. split; [vm_compute; reflexivity|].
  split; [exact H0|]. split; [exact Hs|].
  split; [etrans; [exact Hsock|]; vm_compute; reflexivity|].
  destruct (Hjoin ltac:(by eexists) "room:1" ∅) as [Hj _].
  etrans; [exact Hj|]. vm_compute. reflexivity.
Defined.

Lemma connect_run_resolved p events st st' s :
  Connection.connect_run p events st = Some (st', Connection.ConnectResolved s) →
  s = Connection.socket st'
  ∧ (Connection.canConnect st = false → st' = st)
  ∧ (Connection.canConnect st = true → Connection.socket_isConnected st' = true).
Proof.
  unfold Connection.connect_run.
  destruct (Connection.canConnect st) eqn:Hcan.
  - pose proof (connect_admitted p st Hcan) as Hadm.
    destruct (Connection.connect p st) as [st1 [s1|e|]] eqn:Hc.
    + by destruct (Hadm s1).
    + done.
    + destruct (waitForConnection_settles events st1)
        as (st2 & r & t & -> & _ & _ & Hconn).
      destruct r; simpl; [|done..]. intros [= <- <-].
      split; [done|]. split; [done|]. intros _. by apply Hconn.
  - rewrite (connect_guarded p st Hcan). intros [= <- <-]. by split_and!.
Qed.

Lemma connect_run_settled p events st st' o :
  Connection.connect_run p events st = Some (st', o) → o ≠ Connection.ConnectWaiting.
Proof.
  unfold Connection.connect_run.
  destruct (Connection.connect p st) as [st1 [s1|e|]].
  - by intros [= <- <-].
  - by intros [= <- <-].
  - destruct (Connection.waitForConnection events st1) as [[[st2 r] t]|]; [|done].
    destruct r; simpl; by intros [= <- <-].
Qed.

(** X26 (PhoenixClient.connect): a [connect] of the client always settles.
    When it resolves, the socket it returns is the one the connection
    manager holds, and the channel manager is given the same one; the
    channels registered and their objects are not touched, so channels of a
    former socket stay registered. When it is rejected, the channel manager
    is left as it was and the status is [error]. A call made while the
    status is connecting, connected or reconnecting changes nothing in the
    connection manager and resolves to its current socket; a call that was
    admitted and resolves returns a socket that is connected. *)
Theorem client_connect_hands_socket_to_channels options events client :
  ∃ client' outcome,
    Facade.connect options events client = Some (client', outcome)
    ∧ outcome ≠ Connection.ConnectWaiting
    ∧ Channels.channels (Facade.channelManager client')
      = Channels.channels (Facade.channelManager client)
    ∧ Channels.heap (Facade.channelManager client')
      = Channels.heap (Facade.channelManager client)
    ∧ Channels.messageListeners (Facade.channelManager client')
      = Channels.messageListeners (Facade.channelManager client)
    ∧ (∀ s, outcome = Connection.ConnectResolved s →
         Connection.socket (Facade.connectionManager client') = s
         ∧ Channels.socket (Facade.channelManager client') = s)
    ∧ (∀ e, outcome = Connection.ConnectRejected e →
         Facade.channelManager client' = Facade.channelManager client
         ∧ Facade.getConnectionState client' = Connection.error)
    ∧ (Facade.canConnect client = false →
         outcome = Connection.ConnectResolved
                     (Connection.socket (Facade.connectionManager client))
         ∧ Facade.connectionManager client' = Facade.connectionManager client)
    ∧ (Facade.canConnect client = true →
         ∀ s, outcome = Connection.ConnectResolved s →
           is_Some s
           ∧ Connection.socket_isConnected (Facade.connectionManager client') = true).
Proof.
  destruct (connect_run_total options events (Facade.connectionManager client))
    as [[st' o] Hrun].
  pose proof (connect_run_settled _ _ _ _ _ Hrun) as Hset.
  unfold Facade.connect. rewrite Hrun.
  destruct o as [s|e|]; [| |done].
  - destruct (connect_run_resolved _ _ _ _ _ Hrun) as (Hs & Hguard & Hadm).
    eexists _, _. split; [done|]. cbn.
    split_and!; try done.
    + by intros s' [= <-].
    + intros Hcan. rewrite (Hguard Hcan) in Hs |- *. by subst s.
    + intros Hcan s' [= <-]. specialize (Hadm Hcan). split; [|done].
      unfold Connection.socket_isConnected in Hadm. rewrite <- Hs in Hadm.
      destruct s; [by eexists|done].
  - destruct (connect_run_rejected _ _ _ _ _ Hrun) as (st0 & ->).
    eexists _, _. split; [done|]. cbn.
    split_and!; try done.
    intros Hcan. unfold Facade.canConnect in Hcan.
    unfold Connection.connect_run in Hrun.
    by rewrite (connect_guarded options _ Hcan) in Hrun.
Qed.

(** X27 (PhoenixClient.clearConfig): [clearConfig] sets the configuration
    of the connection manager to its defaults whatever it was, and, the
    update being saved after the stored configuration was removed, the
    session storage then holds the default configuration, not nothing.
    Nothing else changes: the socket in use, the state of the connection and
    the connection parameters in memory and in the storage stay. A URL is
    from then on taken from the endpoint given or from the environment
    only. *)
Theorem client_clearConfig_stores_defaults client :
  let cm := Facade.connectionManager client in
  let cm' := Facade.connectionManager (Facade.clearConfig client) in
  Connection.getConfig cm' = Connection.plain_config
  ∧ (Connection.storageAvailable cm = true →
       Connection.storedConfig cm' = Some Connection.plain_config)
  ∧ (Connection.storageAvailable cm = false →
       Connection.storedConfig cm' = Connection.storedConfig cm)
  ∧ Connection.socket cm' = Connection.socket cm
  ∧ Connection.sockets cm' = Connection.sockets cm
  ∧ Connection.connectionState cm' = Connection.connectionState cm
  ∧ Connection.connectionParams cm' = Connection.connectionParams cm
  ∧ Connection.loadConnectionParams cm' = Connection.loadConnectionParams cm
  ∧ Facade.channelManager (Facade.clearConfig client) = Facade.channelManager client
  ∧ (∀ p, truthy (default None (Connection.endpoint p)) = None →
       truthy (Connection.EDGE_URL (Connection.env cm)) = None →
       truthy (Connection.SOCKET_EDGE_URL (Connection.env cm)) = None →
       Connection.buildSocketUrl p cm' = inl Connection.NO_URL).
Proof.
  intros cm cm'. subst cm'. unfold Facade.clearConfig, Facade.with_connectionManager.
  cbn [Facade.connectionManager Facade.channelManager]. fold cm.
  set (cm' := Connection.updateConfig _ _).
  assert (Hfields : Connection.config cm' = Connection.plain_config
    ∧ Connection.env cm' = Connection.env cm
    ∧ Connection.storageAvailable cm' = Connection.storageAvailable cm
    ∧ Connection.storedParams cm' = Connection.storedParams cm
    ∧ Connection.storedConfig cm'
      = (if Connection.storageAvailable cm then Some Connection.plain_config
         else Connection.storedConfig cm)
    ∧ Connection.socket cm' = Connection.socket cm
    ∧ Connection.sockets cm' = Connection.sockets cm
    ∧ Connection.connectionState cm' = Connection.connectionState cm
    ∧ Connection.connectionParams cm' = Connection.connectionParams cm).
  { subst cm'. unfold Connection.updateConfig, Connection.saveConfig,
      Facade.storage_clearConfig.
    destruct (Connection.storageAvailable cm) eqn:Hav; cbn; rewrite ?Hav; cbn;
      by split_and!. }
  clearbody cm'.
  destruct Hfields as (Hcfg & Henv & Hav & Hsp & Hsc & Hs & Hss & Hcs & Hcp).
  split_and!; try done.
  - intros E. by rewrite Hsc, E.
  - intros E. by rewrite Hsc, E.
  - unfold Connection.loadConnectionParams. by rewrite Hav, Hsp.
  - intros p He H1 H2. unfold Connection.buildSocketUrl.
    by rewrite He, Hcfg, Henv, H1, H2.
Qed.

(** X28 (PhoenixClient.resetConnection): after [resetConnection] no channel
    is registered, the connection manager is as new (status disconnected,
    no failure counted, no socket, no parameters) and, where the session
    storage is available, neither the configuration nor the connection
    parameters are stored any more, while the configuration in memory is
    kept. The socket that was in use is asked to disconnect once, with the
    reason of the client's [disconnect]: the [reset] that follows finds no
    socket. *)
Theorem client_resetConnection_clears_state client :
  Channels.reachable (Facade.channelManager client) →
  let cm := Facade.connectionManager client in
  let client' := Facade.resetConnection client in
  let cm' := Facade.connectionManager client' in
  Channels.getChannelCount (Facade.channelManager client') = 0
  ∧ Connection.connectionState cm'
    = {| Connection.status := Connection.disconnected;
         Connection.lastConnected := None; Connection.lastDisconnected := None;
         Connection.reconnectAttempts := 0; Connection.lastError := None |}
  ∧ Connection.socket cm' = None
  ∧ Connection.connectionParams cm' = None
  ∧ Connection.loadConnectionParams cm' = None
  ∧ (Connection.storageAvailable cm = true →
       Connection.storedConfig cm' = None ∧ Connection.storedParams cm' = None)
  ∧ Connection.getConfig cm' = Connection.getConfig cm
  ∧ Facade.canConnect client' = true
  ∧ Facade.isConnected client' = false
  ∧ (∀ s, Connection.socket cm = Some s →
       (Connection.s_disconnects <$> Connection.sockets cm' !! s)
       = (λ o, Connection.s_disconnects o ++ ["Client disconnect"])
           <$> Connection.sockets cm !! s).
Proof.
  intros Hreach cm client' cm'.
  pose proof (reachable_Inv _ Hreach) as HI.
  destruct (cleanup_frame _ HI) as (Hch & _ & _).
  destruct (disconnect_spec (Some "Client disconnect") cm)
    as (Hs & _ & Hcfg & _ & _ & _ & _ & _ & _ & Hsome).
  destruct (disconnect_world (Some "Client disconnect") cm) as (Hav & _).
  set (st1 := Connection.disconnect (Some "Client disconnect") cm) in *.
  destruct (reset_spec st1) as (Hcs & Hsock & Hcp & Hload & Hcfg' & _ & _ & Hss & Hav' & _).
  destruct (disconnect_spec (Some "Reset") st1) as (_ & _ & _ & _ & _ & _ & _ & _ & Hnone & _).
  rewrite (Hnone Hs) in Hss.
  assert (Hcm' : cm' = Facade.storage_clearAll (Connection.reset st1)) by done.
  assert (Hchan : Facade.channelManager client'
                  = Channels.cleanup (Facade.channelManager client)) by done.
  assert (Hconn : Facade.connectionManager client' = cm') by done.
  clearbody cm' client'.
  set (st2 := Connection.reset st1) in *.
  assert (Hfields : Connection.connectionState cm' = Connection.connectionState st2
    ∧ Connection.socket cm' = Connection.socket st2
    ∧ Connection.connectionParams cm' = Connection.connectionParams st2
    ∧ Connection.config cm' = Connection.config st2
    ∧ Connection.sockets cm' = Connection.sockets st2
    ∧ Connection.storageAvailable cm' = Connection.storageAvailable st2
    ∧ (Connection.storageAvailable st2 = true →
         Connection.storedConfig cm' = None ∧ Connection.storedParams cm' = None)).
  { rewrite Hcm'. unfold Facade.storage_clearAll, Facade.storage_clearConfig,
      Connection.clearConnectionParams.
    clearbody st2. destruct (Connection.storageAvailable st2) eqn:E; cbn; rewrite ?E; cbn;
      by split_and!. }
  destruct Hfields as (Fcs & Fsock & Fcp & Fcfg & Fss & Fav & Fst).
  clearbody st2 st1.
  split_and!.
  - unfold Channels.getChannelCount. by rewrite Hchan, Hch, map_size_empty.
  - by rewrite Fcs.
  - by rewrite Fsock.
  - by rewrite Fcp.
  - unfold Connection.loadConnectionParams. rewrite Fav.
    destruct (Connection.storageAvailable st2); [|done].
    by destruct (Fst eq_refl) as [_ ->].
  - intros Ha. apply Fst. by rewrite Hav', Hav.
  - unfold Connection.getConfig. by rewrite Fcfg, Hcfg', Hcfg.
  - unfold Facade.canConnect. rewrite Hconn. apply canConnect_status. left.
    by rewrite Fcs, Hcs.
  - unfold Facade.isConnected, Connection.isConnected, Connection.socket_isConnected.
    by rewrite Hconn, Fsock, Hsock.
  - intros s Hsk. rewrite Fss, Hss. by destruct (Hsome s Hsk) as (_ & _ & ->).
Qed.

Lemma client_resetConnection_clears_state_witness :
  let client := Facade.with_channelManager (Channels.run (Channels.joinedTopics 1))
                  Facade.connected_client in
  let client' := Facade.resetConnection client in
  Facade.getConnectionState client = Connection.connected
  ∧ Channels.getChannelCount (Facade.channelManager client) = 1
  ∧ Channels.getChannelCount (Facade.channelManager client') = 0
  ∧ Connection.socket (Facade.connectionManager client') = None
  ∧ Connection.loadConnectionParams (Facade.connectionManager client') = None
  ∧ Facade.canConnect client' = true.
Proof.
  intros client client'.
  assert (Hreach : Channels.reachable (Facade.channelManager client)).
  { exists None, (Channels.SetSocket (Some 0) :: Channels.joinedTopics 1).
    vm_compute. reflexivity. }
  destruct (client_resetConnection_clears_state client Hreach)
    as (H0 & _ & Hs & _ & Hl & _ & _ & Hcan & _).
  split; [vm_compute; reflexivity|]. split; [vm_compute; reflexivity|].
  split; [exact H0|]. split; [exact Hs|]. split; [exact Hl|exact Hcan].
Defined.

End FacadeFacts.
